(* ===== verification/_CoqProject ===== *)
-Q . S2P
Prelude.v
Config.v
Host.v
Visibility.v
Route.v
Locomotion.v
Cruise.v
Registry.v
Lifecycle.v
Burst.v
Wf.v
Removal.v
Loop.v
Scenario.v
Reduced.v
Timers.v
Delay.v
