(* ===== verification/Prelude.v ===== *)
(** * A verification development for woodlouse.js

    The repository decorates a page-flipping book (Turn.js) with animated
    "woodlouse" sprites that walk across the visible pages along edge-to-edge
    routes.  All of the running code is [src/woodlouse.js], one IIFE of about
    330 lines; [src/page-variation.js] is entirely commented out, so none of
    it runs and it is not modelled.

    ** The program and how its parts interact

    [start] (on [DOMContentLoaded]) refreshes the per-page overlay layers,
    binds the refresh to [resize] and Turn.js's [turned] event (or to an
    800 ms poll), schedules sprite bursts (after 600 ms, then every 15 s) and,
    unless the reduced-motion preference is set, starts an animation-frame
    loop.  A burst ([spawnBurst]) asks the Visibility Tracker for the (at most
    two) largest visible pages, makes sure the Surface Registry has a layer
    for each, and lets [spawnOneOn] add sprites where a surface has room; the
    Route Configurator gives each new sprite its entry edge, exit target and
    initial velocity.  Every frame, [loop] steps the sprite images when 90 ms
    have accumulated and runs [tick], the Locomotion Engine, on every
    registered surface; a sprite that leaves its surface's despawn box is
    marked dead and a 160 ms timer later deletes it from its surface.

    ** Files, in dependency order

    - [Prelude] (this file): the scope [wl_scope], the random-source monad
      [Rnd] and its notation, the host's [Math.hypot] and [Math.atan2] over
      [R], the ordered association list [AMap] that models a JavaScript
      [Map], the closure [star], shared lemmas on lists and on [R], the hint
      database [wl] and the tactics [case_ifs] and [run_rnd].
    - [Config]: the [CFG] object as module [CFG]; [rnd], [clamp], [limit].
    - [Host]: the host snapshot ([host]: page elements, bounding boxes,
      offset sizes, [innerHeight], the reduced-motion query, Turn.js's event
      API) and [measure].
    - [Visibility]: [rectHasSize], [getVisiblePages].
    - [Route]: the sprite record [louse] ([makeLouse]'s object and its
      element's DOM state), [makeLouse], [configureRoute], and the route
      contract ([entry_on], [exit_beyond]) it is proved to implement.
    - [Locomotion]: [steerToward], [wanderForce], the speed clamp
      [clampSpeed], [accel] and [integrate] (the stages of [tick]'s body),
      [maybeDespawn], and the per-sprite / per-surface tick.
    - [Cruise]: consecutive physics steps of one sprite ([ticks]) and the
      speed they leave it with.
    - [Registry]: the layer, [surfaceInfo] and the world ([surfaces], the
      fresh-node counter of [document.createElement], the [Math.random]
      cursor, the pending removal timers); [ensureLayersOnVisiblePages].
    - [Lifecycle]: [spawnOneOn], [spawnBurst] with its random shuffle and
      two passes, the whole [tick], the removal callback, the host's own
      layer changes, and the step relation [lstep] that lets all of them
      happen in any order.
    - [Burst]: how many sprites the two passes of [spawnBurst] place.
    - [Wf]: the well-formedness invariant of the world (distinct surfaces,
      distinct and fresh sprite elements); it holds by construction of the
      model ([Wf.reachable_wf]) and is what [Removal] builds on.
    - [Removal]: the removal timers ([drain], [fire_all]): every dead sprite
      has its timer pending, every timer names only dead sprites, and
      firing them clears every dead sprite and no live one.
    - [Loop]: [preloadImages], [stepFrame], the frame clock, [loop],
      [start] and the event wiring of [bindFlipbookEvents], as the system
      [sys] and its step relation [sstep] over an environment of hosts; the
      due times of the removal timers.
    - [Scenario]: the spec's end-to-end bound on the number of sprites,
      and the exact count that consecutive bursts reach on the spec's book.
    - [Reduced]: the page under the reduced-motion preference: the
      invariant [inert] (loop stopped, no frame, no timer, every sprite
      alive) and the sprites every step [retains].
    - [Timers]: the timers [start] sets ([poll_timers], [burst_timers],
      [start_timers]) with their due times in whole milliseconds, the
      host's event loop that runs them first due first ([run], with fuel).
    - [Delay]: the removal timers on the clock of the animation frames:
      [fire_until t], the host running, first due first, the removal
      callbacks due by [t].

    ** What is proved

    - Capacity: in every world reachable by [lstep], and in every state of
      the whole page reachable by [sstep], no surface holds more than
      [CFG.activeMaxPerSurface] sprites ([Lifecycle.reachable_cap_ok],
      [Loop.sreachable_cap_ok]); a full surface gets no sprite, dead sprites
      awaiting removal included ([Lifecycle.spawnOneOn_full]); with the
      pages of every host among [P], the page never holds more than
      [CFG.activeMaxPerSurface * |P|] sprites, four on the spec's two-page
      book ([Scenario.sreachable_total_bound]).
    - Bursts: a burst places exactly [min(CFG.burstSize, room)] sprites on
      the visible pages and changes no other surface
      ([Burst.spawnBurst_count]); on the spec's book, [k] bursts with no
      frame between them leave exactly [min(2k, 4)] sprites, four after
      the spec's five ([Scenario.bursts_on_book]).
    - Motion: after a step a live sprite lies in the despawn box
      [[-S-64, W+64] x [-S-64, H+64]] and the removal timer is set exactly
      when the step kills it ([Locomotion.tick_louse_despawn]); the speed band
      [[speedMin, speedMax]] is kept by each step with [dt <= 0.05]
      ([Locomotion.tick_louse_band]) and holds of every live sprite of every
      reachable state ([Lifecycle.reachable_band], [Loop.sreachable_band]);
      at 60 frames per second four steps bring every live sprite to exactly
      [speedMin] ([Cruise.cruise_speed]); the clamp alone leaves a zero
      velocity at zero ([Locomotion.clampSpeed_zero]); dead sprites are
      frozen ([Locomotion.tick_louse_dead]).
    - Removal: every dead sprite has its removal timer pending
      ([Removal.reachable_pending]), due within 160 ms of the last frame,
      with the timers pending in due order ([Loop.sreachable_removal_due],
      [Loop.sreachable_timers]); once the pending timers fire no dead sprite
      is left ([Removal.fire_all_clears]); every pending timer names an
      element only dead sprites carry ([Removal.reachable_timers_target_dead]),
      so a callback, which the model runs as a delete by element where the
      code deletes the object, never removes a live sprite
      ([Removal.fire_keeps_live]); when the clock reaches [t] the host's
      run removes exactly the timers due by [t] and no live sprite
      ([Delay.fire_until_exact]), and 160 ms after the last frame no timer
      and no dead sprite is left ([Delay.removal_deadline]).
    - Routes: the entry point is on the drawn edge and the exit beyond the
      opposite one ([Route.route_endpoints_contract], a refinement of the
      route contract), the bottom case of the spec
      ([Route.configureRoute_bottom]), the initial velocity is the drawn
      speed toward the exit ([Route.configureRoute_velocity]), and the small
      surface fallback ([Route.configureRoute_fallback]).
    - Registry and visibility: [ensureLayersOnVisiblePages] settles every
      visible page, keeps every surface and sprite, and is idempotent;
      [getVisiblePages] returns the (at most two) largest qualifying pages in
      decreasing area ([Visibility.getVisiblePages_spec]); the insertion
      sort of the model is the stable sort ECMAScript requires of
      [pages.sort].
    - Whole page: every system step is a sequence of world steps
      ([Loop.sstep_refines]); with reduced motion the loop never runs
      ([Loop.reduced_motion_inert]); [preloadImages]'s promise, a
      [Promise.all] of one promise per image that resolves on [onload] and
      on [onerror] alike, is never rejected, and [start] runs exactly when
      no image is still loading ([Loop.preload_errors_ignored]); [start] is not idempotent
      ([Loop.start_twice]); the images step every [ceil(90/d)] frames of [d]
      ms, 100 ms at 60 Hz ([Loop.frame_clock_period]); the shown image is
      always a valid frame, and dead sprites keep animating
      ([Loop.sreachable_frames], [Loop.animate_steps_all]); with reduced
      motion bursts still place sprites, and every step keeps each of them
      unchanged and alive, with no removal pending
      ([Reduced.reduced_motion_frozen]).
    - Timers: [T] ms after [start] the page has had
      [1 + T / 15000] bursts once [T >= 600] and, without Turn.js, [T / 800]
      polls ([Timers.burst_schedule]); the first callback is the 600 ms
      burst ([Timers.first_callback_burst]).

    ** Bounds and modelling choices

    NUMBERS.  JavaScript numbers are IEEE doubles; the model idealises them
    as the real numbers [R] of the Standard Library, so rounding, NaN and
    infinities are not modelled.  The host's [Math.sqrt], [Math.hypot],
    [Math.cos], [Math.sin] and [Math.atan2] are the real functions; [atan2]
    follows the ECMAScript case split.  Decisions on reals use [Rlt_dec],
    [Rle_dec] and [Req_dec_T], so the definitions over [R] do not reduce by
    computation; witnesses discharge them with [lra].  Counts are [nat].

    RANDOMNESS.  [Math.random()] is an explicit source [src : nat -> R]
    read through a cursor (the monad [Rnd]); a source is valid when every
    value lies in [[0,1)].  The order of the draws is the code's.  The
    shuffle [sort(() => Math.random() - 0.5)] is modelled for the lists of
    at most two pages it is applied to, as V8's insertion sort calls it.

    TIME.  [loop] caps [dt] at 0.05 s; with animation-frame timestamps that
    never go back, [dt] lies in [[0, 0.05]] ([Loop.loop_dt]), which is the
    bound the speed-band step theorem needs (an inertia of 0.88 and an
    acceleration of at most 800 px/s^2 over 50 ms keep a speed of at least
    300 above 224 before the clamp).  [Cruise] takes [dt <= 1/60]: at that
    rate [0.88 s + 800 dt] falls from 420 under [speedMin] in four steps.
    Which pending callback runs next is left to the host: any may run,
    which over-approximates the browser's schedule, so the invariants proved
    over [lstep] and [sstep] hold of every real schedule.  [Timers] puts
    [start]'s timers on a clock of whole milliseconds (the delays the code
    passes are whole numbers) and runs them in due order; the fuel of its
    event loop is the number of runs due by the deadline, which
    [Timers.run_total] shows is enough.  The removal
    timers carry their due time [now + 160], and [Loop] proves they are
    pending in due order, so running the first one ([fire]) is what the
    browser does when it runs timers of equal delay in scheduling order;
    [Delay] runs all those due by a time [t] of the frames' clock, with
    one unit of fuel per pending timer.

    NOT MODELLED.  The load of the images themselves (I/O; [preloadImages]
    is modelled as the settling of its promises, each image loading or
    failing), the CSS of the sprites beyond the classes and image index the
    code writes, the no-op ["turning"] handler, the unused [spawnTimerId],
    [CFG.scatterBoost] (declared, never read), and [src/page-variation.js]
    (commented out).  The DOM geometry is an input: the environment chooses
    the host snapshot each callback sees.  The timers of [start] run on a
    clock of whole milliseconds ([Timers]) and the removal timers on the
    real-valued clock of the animation frames ([Delay]); the two clocks are
    not merged into one time line, which would only order a removal
    against a burst or poll falling due in the same millisecond, an order
    no property of the code depends on. *)

From Stdlib Require Import Reals Lra Lia List ZArith Sorted Permutation.
Import ListNotations.
Local Open Scope R_scope.

Declare Scope wl_scope.
Delimit Scope wl_scope with wl.

Create HintDb wl discriminated.

(** ** The random source and the [Rnd] monad *)

(** [src n] is the result of the [n]-th call of [Math.random()]. *)
Definition Source : Type := nat -> R.

Definition valid_source (src : Source) : Prop := forall n, 0 <= src n < 1.

(** A computation that may call [Math.random()]: it reads the source and
    advances the cursor. *)
Definition Rnd (A : Type) : Type := Source -> nat -> A * nat.

Definition rret {A} (a : A) : Rnd A := fun _ n => (a, n).

Definition rbind {A B} (m : Rnd A) (k : A -> Rnd B) : Rnd B :=
  fun src n => let (a, n') := m src n in k a src n'.

(** [Math.random()] *)
Definition random : Rnd R := fun src n => (src n, S n).

Notation "x <- m ;; k" := (rbind m (fun x => k))
  (at level 61, m at next level, right associativity) : wl_scope.

(** A source that always answers [0], and one that always answers [1/2]. *)
Definition src_zero : Source := fun _ => 0.
Definition src_half : Source := fun _ => 0.5.

Lemma src_zero_valid : valid_source src_zero.
Proof. intros n. unfold src_zero. lra. Qed.

Lemma src_half_valid : valid_source src_half.
Proof. intros n. unfold src_half. lra. Qed.

(** The value and the cursor of a run. *)
Definition rval {A} (m : Rnd A) (src : Source) (n : nat) : A := fst (m src n).
Definition rcur {A} (m : Rnd A) (src : Source) (n : nat) : nat := snd (m src n).

(** [m] draws exactly [k] random numbers, whatever the source says. *)
Definition draws {A} (k : nat) (m : Rnd A) : Prop :=
  forall src n, rcur m src n = (n + k)%nat.

(** ** The host's [Math] library over [R] *)

(** [Math.hypot(x, y)] *)
Definition hypot (x y : R) : R := sqrt (x * x + y * y).

(** [Math.atan2(y, x)], by the case split of ECMAScript 2015, 20.2.2.8 (on
    reals, so the signed zeros collapse to their positive cases). *)
Definition atan2 (y x : R) : R :=
  if Rlt_dec 0 x then atan (y / x)
  else if Rlt_dec x 0 then
    (if Rle_dec 0 y then atan (y / x) + PI else atan (y / x) - PI)
  else if Rlt_dec 0 y then PI / 2
  else if Rlt_dec y 0 then - (PI / 2)
  else 0.

(** [a || b] on a number [a] that is never NaN: [b] when [a] is zero. *)
Definition or_else (a b : R) : R := if Req_dec_T a 0 then b else a.

(** ** An ordered association list: the JavaScript [Map] *)

(** A [Map] iterates in insertion order and [set] on a present key keeps its
    position; the model is a list of pairs with unique keys. *)
Module AMap.
Section AMap.
Context {V : Type}.

Fixpoint get (k : nat) (m : list (nat * V)) : option V :=
  match m with
  | [] => None
  | (k', v) :: m' => if Nat.eq_dec k k' then Some v else get k m'
  end.

Fixpoint set (k : nat) (v : V) (m : list (nat * V)) : list (nat * V) :=
  match m with
  | [] => [(k, v)]
  | (k', v') :: m' =>
      if Nat.eq_dec k k' then (k', v) :: m' else (k', v') :: set k v m'
  end.

Definition keys (m : list (nat * V)) : list nat := map fst m.

Lemma get_set_eq k v m : get k (set k v m) = Some v.
Proof.
  induction m as [|[k' v'] m IH]; simpl.
  - destruct (Nat.eq_dec k k); congruence.
  - destruct (Nat.eq_dec k k') as [->|Hne]; simpl.
    + destruct (Nat.eq_dec k' k'); congruence.
    + destruct (Nat.eq_dec k k'); [congruence | exact IH].
Qed.

Lemma get_set_ne k k2 v m : k2 <> k -> get k2 (set k v m) = get k2 m.
Proof.
  intros Hne. induction m as [|[k' v'] m IH]; simpl.
  - destruct (Nat.eq_dec k2 k); congruence.
  - destruct (Nat.eq_dec k k') as [->|Hk]; simpl;
      destruct (Nat.eq_dec k2 k'); congruence.
Qed.

Lemma get_In k v m : get k m = Some v -> In (k, v) m.
Proof.
  induction m as [|[k' v'] m IH]; simpl; [discriminate|].
  destruct (Nat.eq_dec k k') as [->|_]; [injection 1 as <-; auto | auto].
Qed.

Lemma get_None_keys k m : get k m = None <-> ~ In k (keys m).
Proof.
  induction m as [|[k' v'] m IH]; simpl; [tauto|].
  destruct (Nat.eq_dec k k') as [->|Hne]; [split; [discriminate | tauto]|].
  rewrite IH. intuition congruence.
Qed.

Lemma keys_set_present k v m :
  In k (keys m) -> keys (set k v m) = keys m.
Proof.
  induction m as [|[k' v'] m IH]; simpl; [tauto|].
  destruct (Nat.eq_dec k k') as [->|Hne]; [reflexivity|].
  intros [->|Hin]; [congruence|]. simpl. f_equal. auto.
Qed.

Lemma keys_set_absent k v m :
  ~ In k (keys m) -> keys (set k v m) = keys m ++ [k].
Proof.
  induction m as [|[k' v'] m IH]; simpl; [reflexivity|].
  intros Hn. destruct (Nat.eq_dec k k') as [->|Hne]; [tauto|].
  simpl. f_equal. auto.
Qed.

Lemma keys_set_incl k k2 v m : In k2 (keys m) -> In k2 (keys (set k v m)).
Proof.
  destruct (in_dec Nat.eq_dec k (keys m)) as [Hk|Hk].
  - rewrite keys_set_present by exact Hk. auto.
  - rewrite keys_set_absent by exact Hk. intros; apply in_or_app; auto.
Qed.

Lemma set_NoDup k v m : NoDup (keys m) -> NoDup (keys (set k v m)).
Proof.
  destruct (in_dec Nat.eq_dec k (keys m)) as [Hk|Hk].
  - rewrite keys_set_present by exact Hk. auto.
  - rewrite keys_set_absent by exact Hk. intros Hnd.
    apply NoDup_app; auto using NoDup_cons, NoDup_nil.
    intros x Hx [<-|[]]. tauto.
Qed.

(** Mapping a function over the values keeps the keys. *)
Lemma get_map_values (g : V -> V) k m :
  get k (map (fun '(k', v) => (k', g v)) m) = option_map g (get k m).
Proof.
  induction m as [|[k' v'] m IH]; simpl; [reflexivity|].
  destruct (Nat.eq_dec k k'); [reflexivity | exact IH].
Qed.

(** The entry a lookup finds splits the map around it, and [set] replaces
    that entry in place. *)
Lemma get_split k v m : get k m = Some v ->
  exists m1 m2, m = m1 ++ (k, v) :: m2 /\ (forall v', set k v' m = m1 ++ (k, v') :: m2).
Proof.
  induction m as [|[k' v0] m IH]; simpl; [discriminate|].
  destruct (Nat.eq_dec k k') as [->|Hne].
  - injection 1 as ->. exists [], m. split; [reflexivity|]. intros v'. simpl.
    destruct (Nat.eq_dec k' k'); [reflexivity | congruence].
  - intros H. destruct (IH H) as [m1 [m2 [E1 E2]]]. exists ((k', v0) :: m1), m2.
    split; [rewrite E1; reflexivity|]. intros v'. simpl.
    destruct (Nat.eq_dec k k'); [contradiction|]. rewrite E2. reflexivity.
Qed.

(** A key not yet in the map is appended at the end, as [Map.set] does. *)
Lemma set_absent k v m : get k m = None -> set k v m = m ++ [(k, v)].
Proof.
  induction m as [|[k' v0] m IH]; simpl; [reflexivity|].
  destruct (Nat.eq_dec k k'); [discriminate|]. intros H. rewrite IH by exact H. reflexivity.
Qed.

Lemma keys_set_sub k v m : incl (keys (set k v m)) (k :: keys m).
Proof.
  destruct (in_dec Nat.eq_dec k (keys m)) as [Hk|Hk].
  - rewrite keys_set_present by exact Hk. intros x Hx. right. exact Hx.
  - rewrite keys_set_absent by exact Hk. intros x Hx. apply in_app_or in Hx.
    destruct Hx as [Hx|[<-|[]]]; [right; exact Hx | left; reflexivity].
Qed.

(** In a map with distinct keys, every entry is the one a lookup finds. *)
Lemma In_get k v m : NoDup (keys m) -> In (k, v) m -> get k m = Some v.
Proof.
  induction m as [|[k' v'] m IH]; simpl; [tauto|]. intros Hnd Hin.
  inversion Hnd as [|? ? Hk' Hnd']; subst.
  destruct (Nat.eq_dec k k') as [->|Hne].
  - destruct Hin as [E|Hin]; [injection E as ->; reflexivity|].
    exfalso. apply Hk'. apply (in_map fst) in Hin. exact Hin.
  - destruct Hin as [E|Hin]; [injection E as -> ->; contradiction | apply IH; assumption].
Qed.

Lemma set_id k v m : get k m = Some v -> set k v m = m.
Proof.
  induction m as [|[k' v'] m IH]; simpl; [discriminate|].
  destruct (Nat.eq_dec k k') as [->|Hne]; [injection 1 as ->; reflexivity|].
  intros H. rewrite IH by exact H. reflexivity.
Qed.

End AMap.
End AMap.

(** ** Sequences of steps *)

Section Star.
Context {A : Type} (Rs : A -> A -> Prop).

Inductive star : A -> A -> Prop :=
  | star_refl a : star a a
  | star_step a b c : Rs a b -> star b c -> star a c.

Lemma star_one a b : Rs a b -> star a b.
Proof. intros H. eapply star_step; [exact H | apply star_refl]. Qed.

Lemma star_trans a b c : star a b -> star b c -> star a c.
Proof. induction 1; intros; [assumption | eapply star_step; eauto]. Qed.

(** An invariant of the steps is an invariant of their sequences. *)
Lemma star_preserve (P : A -> Prop) a b :
  (forall x y, Rs x y -> P x -> P y) -> star a b -> P a -> P b.
Proof. intros HP. induction 1; eauto. Qed.
End Star.

(** ** Generic lemmas on lists *)

Lemma StronglySorted_app_inv {A} (R : A -> A -> Prop) l1 l2 a b :
  StronglySorted R (l1 ++ l2) -> In a l1 -> In b l2 -> R a b.
Proof.
  induction l1 as [|x l1 IH]; simpl; [tauto|]. intros Hs Ha Hb.
  inversion Hs as [|? ? Hs' Hf]; subst. destruct Ha as [<-|Ha].
  - rewrite Forall_forall in Hf. apply Hf, in_or_app. auto.
  - apply IH; assumption.
Qed.

Lemma NoDup_app_disjoint {A} (l1 l2 : list A) a : NoDup (l1 ++ l2) -> In a l1 -> ~ In a l2.
Proof.
  induction l1 as [|x l1 IH]; simpl; [tauto|]. intros Hnd Ha Hb.
  inversion Hnd as [|? ? Hx Hnd']; subst. destruct Ha as [<-|Ha].
  - apply Hx, in_or_app. auto.
  - exact (IH Hnd' Ha Hb).
Qed.

(** Replacing the middle of a list without duplicates by a duplicate-free
    part of it keeps the list free of duplicates. *)
Lemma NoDup_mid_sub {A} (a b b' c : list A) :
  NoDup (a ++ b ++ c) -> NoDup b' -> incl b' b -> NoDup (a ++ b' ++ c).
Proof.
  intros H Hb' Hi. apply (Permutation_NoDup (Permutation_app_swap_app b' a c)).
  apply (Permutation_NoDup (Permutation_app_swap_app a b c)) in H.
  apply NoDup_app; [exact Hb' | exact (NoDup_app_remove_l _ _ H)|].
  intros x Hx. apply (NoDup_app_disjoint b), Hi, Hx. exact H.
Qed.

(** Adding a fresh element to the middle keeps it too. *)
Lemma NoDup_mid_snoc {A} (a b c : list A) e :
  NoDup (a ++ b ++ c) -> ~ In e (a ++ b ++ c) -> NoDup (a ++ (b ++ [e]) ++ c).
Proof.
  intros H He. replace (a ++ (b ++ [e]) ++ c) with ((a ++ b) ++ e :: c) by (rewrite <- !app_assoc; reflexivity).
  apply (Permutation_NoDup (Permutation_middle (a ++ b) c e)).
  rewrite <- app_assoc. constructor; assumption.
Qed.

Lemma filter_id_in {A} (f : A -> bool) l : (forall x, In x l -> f x = true) -> filter f l = l.
Proof.
  induction l as [|x l IH]; simpl; intros Hf; [reflexivity|].
  rewrite (Hf x (or_introl eq_refl)), IH by (intros; apply Hf; auto). reflexivity.
Qed.

Lemma StronglySorted_app {A} (R : A -> A -> Prop) l1 l2 :
  StronglySorted R l1 -> StronglySorted R l2 -> (forall a b, In a l1 -> In b l2 -> R a b) ->
  StronglySorted R (l1 ++ l2).
Proof.
  induction l1 as [|x l1 IH]; simpl; intros H1 H2 H12; [exact H2|].
  inversion H1 as [|? ? H1' Hx]; subst. constructor; [apply IH; auto|].
  apply Forall_app. split; [exact Hx|]. apply Forall_forall. intros b Hb. apply H12; auto.
Qed.

(** A list of equal values is sorted by any reflexive relation. *)
Lemma StronglySorted_const {A} (R : A -> A -> Prop) (c : A) l :
  (forall x, R x x) -> Forall (fun x => x = c) l -> StronglySorted R l.
Proof.
  intros Hr. induction 1 as [|x l Hx Hl IH]; constructor; [exact IH|].
  eapply Forall_impl; [|exact Hl]. intros y Hy. simpl in Hy. rewrite Hx, Hy. apply Hr.
Qed.

Lemma In_firstn_In {A} (n : nat) (l : list A) x : In x (firstn n l) -> In x l.
Proof. intros H. rewrite <- (firstn_skipn n l). apply in_or_app. auto. Qed.

Lemma StronglySorted_firstn {A} (R : A -> A -> Prop) n l :
  StronglySorted R l -> StronglySorted R (firstn n l).
Proof.
  revert l. induction n as [|n IH]; intros [|x l] Hs; simpl; try constructor.
  - inversion Hs; subst. apply IH. assumption.
  - inversion Hs as [|? ? _ Hf]; subst. rewrite Forall_forall in *.
    intros y Hy. apply Hf, (In_firstn_In n), Hy.
Qed.

Lemma Forall2_refl_on {A} (R : A -> A -> Prop) (l : list A) :
  (forall x, R x x) -> Forall2 R l l.
Proof. intros Hr. induction l; constructor; auto. Qed.

Lemma Forall2_Forall {A} (R : A -> A -> Prop) (P : A -> Prop) l l' :
  (forall x y, R x y -> P x -> P y) -> Forall2 R l l' -> Forall P l -> Forall P l'.
Proof. intros HR H2. induction H2; intros Hl; inversion Hl; subst; constructor; eauto. Qed.

Lemma Forall2_in_r {A B} (R : A -> B -> Prop) l l' y :
  Forall2 R l l' -> In y l' -> exists x, In x l /\ R x y.
Proof.
  induction 1 as [|a b l l' Hab _ IH]; simpl; [intros []|].
  intros [<-|Hy]; [eauto|]. destruct (IH Hy) as [x [Hx Hr]]. eauto.
Qed.

Lemma Forall_filter_sub {A} (P : A -> Prop) f l : Forall P l -> Forall P (filter f l).
Proof.
  rewrite !Forall_forall. intros H x Hx. apply filter_In in Hx. apply H, Hx.
Qed.


(** A property kept by every step of a [fold_left] holds at its end. *)
Lemma fold_left_preserve {A B} (f : A -> B -> A) (P : A -> Prop) (l : list B) (a : A) :
  (forall a b, In b l -> P a -> P (f a b)) -> P a -> P (fold_left f l a).
Proof.
  revert a. induction l as [|b l IH]; simpl; intros a Hf Ha; [exact Ha|].
  apply IH; [intros; apply Hf; auto | apply Hf; auto].
Qed.

(** A [fold_left] whose every step is the identity is the identity. *)
Lemma fold_left_id {A B} (f : A -> B -> A) (l : list B) (a : A) :
  (forall b, In b l -> f a b = a) -> fold_left f l a = a.
Proof.
  revert a. induction l as [|b l IH]; simpl; intros a Hf; [reflexivity|].
  rewrite Hf by auto. apply IH. auto.
Qed.

(** ** Generic lemmas on [R] *)

Lemma hypot_nonneg x y : 0 <= hypot x y.
Proof. apply sqrt_pos. Qed.

Lemma hypot_sq x y : hypot x y * hypot x y = x * x + y * y.
Proof. apply sqrt_sqrt. nra. Qed.

Lemma hypot_pos x y : (x, y) <> (0, 0) -> 0 < hypot x y.
Proof.
  intros Hxy. apply sqrt_lt_R0.
  destruct (Req_dec_T x 0) as [->|Hx].
  - destruct (Req_dec_T y 0) as [->|Hy]; [congruence | nra].
  - nra.
Qed.

Lemma hypot_zero_iff x y : hypot x y = 0 <-> x = 0 /\ y = 0.
Proof.
  split.
  - intros H. pose proof (hypot_sq x y) as Hs. rewrite H in Hs. nra.
  - intros [-> ->]. unfold hypot. rewrite Rmult_0_l, Rplus_0_l. apply sqrt_0.
Qed.

(** Scaling a vector scales its length. *)
Lemma hypot_scale k x y : 0 <= k -> hypot (x * k) (y * k) = k * hypot x y.
Proof.
  intros Hk. unfold hypot.
  replace (x * k * (x * k) + y * k * (y * k)) with ((k * k) * (x * x + y * y)) by ring.
  rewrite sqrt_mult by nra. rewrite sqrt_square by exact Hk. reflexivity.
Qed.

(** [sqrt (1 + (y/x)^2)] is the length of [(x, y)] over [|x|]. *)
Lemma sqrt_one_plus_ratio x y :
  x <> 0 -> sqrt (1 + (y / x)²) = hypot x y / Rabs x.
Proof.
  intros Hx. unfold hypot, Rsqr.
  assert (Hax : 0 < Rabs x) by (apply Rabs_pos_lt; exact Hx).
  replace (x * x + y * y) with ((Rabs x * Rabs x) * (1 + y / x * (y / x))).
  - rewrite sqrt_mult by (try apply Rmult_le_pos; try nra; lra).
    rewrite sqrt_square by lra. field. lra.
  - rewrite <- Rabs_mult, Rabs_right by nra. field. exact Hx.
Qed.

Lemma div_lt_1 a b : 0 < b -> a < b -> a / b < 1.
Proof.
  intros Hb Hab. apply (Rmult_lt_reg_r b); [exact Hb|].
  unfold Rdiv. rewrite Rmult_assoc, Rinv_l by lra. lra.
Qed.

Lemma sumsq_nonneg x y : 0 <= x * x + y * y.
Proof. nra. Qed.

Lemma hypot_x0 x : 0 <= x -> hypot x 0 = x.
Proof. intros Hx. unfold hypot. rewrite Rmult_0_l, Rplus_0_r. apply sqrt_square, Hx. Qed.

(** Minkowski's inequality in the plane. *)
Lemma hypot_triangle a b c d : hypot (a + c) (b + d) <= hypot a b + hypot c d.
Proof.
  pose proof (hypot_nonneg a b) as H1. pose proof (hypot_nonneg c d) as H2.
  pose proof (hypot_sq a b) as S1. pose proof (hypot_sq c d) as S2.
  assert (Hcs : a * c + b * d <= hypot a b * hypot c d).
  { destruct (Rle_dec (a * c + b * d) 0) as [Hn|Hp]; [nra|].
    apply Rsqr_incr_0_var; [|nra]. unfold Rsqr.
    replace (hypot a b * hypot c d * (hypot a b * hypot c d))
      with ((hypot a b * hypot a b) * (hypot c d * hypot c d)) by ring.
    rewrite S1, S2. pose proof (Rle_0_sqr (a * d - b * c)) as Hsq.
    unfold Rsqr in Hsq. nra. }
  unfold hypot at 1. apply Rsqr_incr_0_var; [|nra].
  rewrite Rsqr_sqrt by apply sumsq_nonneg. unfold Rsqr. nra.
Qed.

(** The length of a difference is at least the difference of the lengths. *)
Lemma hypot_reverse_triangle a b c d : hypot a b - hypot c d <= hypot (a + c) (b + d).
Proof.
  pose proof (hypot_triangle (a + c) (b + d) (- c) (- d)) as H.
  replace (a + c + - c) with a in H by ring. replace (b + d + - d) with b in H by ring.
  unfold hypot at 3 in H. replace (- c * - c + - d * - d) with (c * c + d * d) in H by ring.
  fold (hypot c d) in H. lra.
Qed.

(** [Math.floor r] is [Int_part r]; it is [k] exactly on [[k, k+1)]. *)
Lemma Int_part_unique (r : R) (k : Z) :
  IZR k <= r < IZR k + 1 -> Int_part r = k.
Proof.
  intros [H1 H2]. destruct (base_Int_part r) as [B1 B2].
  assert (Hlt : (Int_part r < k + 1)%Z) by (apply lt_IZR; rewrite plus_IZR; simpl; lra).
  assert (Hgt : (k - 1 < Int_part r)%Z) by (apply lt_IZR; rewrite minus_IZR; simpl; lra).
  lia.
Qed.

#[export] Hint Resolve hypot_nonneg : wl.

(** Case on every decision of the model that is left in the goal. *)
Ltac case_ifs :=
  repeat match goal with
  | |- context [Rlt_dec ?a ?b] => destruct (Rlt_dec a b)
  | |- context [Rle_dec ?a ?b] => destruct (Rle_dec a b)
  | |- context [Req_dec_T ?a ?b] => destruct (Req_dec_T a b)
  | |- context [Z.eq_dec ?a ?b] => destruct (Z.eq_dec a b)
  end.

(** Unfold a run of the [Rnd] monad down to the draws of the source. *)
Ltac run_rnd := unfold rval, rcur, rbind, rret, random in *; cbn beta iota zeta in *.

Ltac pi_facts := pose proof PI_RGT_0.

(** [cos (atan2 y x)] and [sin (atan2 y x)] are the components of the unit
    vector along [(x, y)]: this is how the code turns an angle back into a
    direction. *)
Lemma cos_sin_atan2 x y :
  (x, y) <> (0, 0) ->
  cos (atan2 y x) = x / hypot x y /\ sin (atan2 y x) = y / hypot x y.
Proof.
  intros Hxy. pose proof (hypot_pos x y Hxy) as Hh.
  unfold atan2.
  destruct (Rlt_dec 0 x) as [Hx|Hx].
  - rewrite cos_atan, sin_atan, sqrt_one_plus_ratio by lra.
    rewrite Rabs_right by lra. split; field; lra.
  - destruct (Rlt_dec x 0) as [Hx'|Hx'].
    + destruct (Rle_dec 0 y);
        [rewrite neg_cos, neg_sin | rewrite cos_minus, sin_minus, cos_PI, sin_PI];
        rewrite cos_atan, sin_atan, sqrt_one_plus_ratio, Rabs_left by lra;
        split; field; lra.
    + assert (x = 0) as -> by lra.
      assert (Hy : y <> 0) by (intros ->; congruence).
      unfold hypot. rewrite Rmult_0_l, Rplus_0_l. fold (Rsqr y). rewrite sqrt_Rsqr_abs.
      destruct (Rlt_dec 0 y).
      * rewrite cos_PI2, sin_PI2, Rabs_right by lra. split; field; lra.
      * destruct (Rlt_dec y 0); [|lra].
        rewrite cos_neg, sin_neg, cos_PI2, sin_PI2, Rabs_left by lra.
        split; field; lra.
Qed.
