(* ===== verification/Config.v ===== *)
(** * Configuration and numeric helpers of woodlouse.js

    The [CFG] object (woodlouse.js lines 5-29) as the module [CFG], and the
    three helpers every component calls: [rnd] (line 37, a draw from the
    random source), [clamp] (line 38) and [limit] (lines 201-205, the
    magnitude limiter used by steering and by the combined acceleration).
    The lemmas give [clamp] and [limit] their exact behaviour: [clamp]
    lands in its interval and is the identity inside it; [limit] returns a
    vector of length [min(|v|, max)] pointing the same way. *)

From Stdlib Require Import Reals Lra Lia List String.
From S2P Require Import Prelude.
Import ListNotations.
Local Open Scope R_scope.
Local Open Scope wl_scope.

Module CFG.
Definition burstEveryMs : R := 15000.
Definition burstSize : nat := 2.
Definition activeMaxPerSurface : nat := 2.
Definition size : R := 46.
Definition imgs : list string := ["craw-2.png"%string; "craw-3.png"%string].
Definition frameMs : R := 90.
Definition speedMin : R := 300.
Definition speedMax : R := 420.
Definition baseSpeed : R * R := (300, 420).
Definition accelMax : R := 800.
Definition inertia : R := 0.88.
Definition wanderStrength : R := 120.
Definition wanderTurnRate : R := 2.0.
Definition wanderJitter : R := 0.7.
Definition pathBias : R := 1.8.
Definition edgePad : R := 6.
Definition scatterBoost : R := 1.6.
End CFG.

(** Unfold every numeric constant of [CFG], for [lra]. *)
Ltac cfg := unfold CFG.size, CFG.speedMin, CFG.speedMax, CFG.baseSpeed,
  CFG.accelMax, CFG.inertia, CFG.wanderStrength, CFG.wanderTurnRate,
  CFG.wanderJitter, CFG.pathBias, CFG.edgePad, CFG.frameMs,
  CFG.burstEveryMs in *.

(** [rnd=(a,b)=>a+Math.random()*(b-a)] *)
Definition rnd (a b : R) : Rnd R :=
  u <- random ;; rret (a + u * (b - a)).

(** [clamp=(v,a,b)=>Math.max(a,Math.min(b,v))] *)
Definition clamp (v a b : R) : R := Rmax a (Rmin b v).

(** [limit(x, y, max)]: rescale [(x, y)] to length [max] when it is longer. *)
Definition limit (x y max : R) : R * R :=
  let m := hypot x y in
  if Rlt_dec max m then
    if Rlt_dec 0 m then let k := max / m in (x * k, y * k) else (x, y)
  else (x, y).

(** ** [rnd] *)

Lemma rnd_draws a b : draws 1 (rnd a b).
Proof. intros src n. unfold rcur, rnd, rbind, random, rret. simpl. lia. Qed.

Lemma rnd_value a b src n : rval (rnd a b) src n = a + src n * (b - a).
Proof. reflexivity. Qed.

Lemma rnd_range a b src n :
  valid_source src -> a <= b -> a <= rval (rnd a b) src n <= b.
Proof.
  intros Hs Hab. rewrite rnd_value. pose proof (Hs n). nra.
Qed.

(** ** [clamp] *)

Lemma clamp_range v a b : a <= b -> a <= clamp v a b <= b.
Proof.
  intros Hab. unfold clamp. split; [apply Rmax_l|].
  apply Rmax_lub; [exact Hab | apply Rmin_l].
Qed.

Lemma clamp_id v a b : a <= v <= b -> clamp v a b = v.
Proof.
  intros [Ha Hb]. unfold clamp. rewrite Rmin_right by exact Hb.
  apply Rmax_right, Ha.
Qed.

Lemma clamp_below v a b : v <= a <= b -> clamp v a b = a.
Proof.
  intros [Ha Hb]. unfold clamp. rewrite Rmin_right by lra. apply Rmax_left, Ha.
Qed.

Lemma clamp_above v a b : a <= b <= v -> clamp v a b = b.
Proof.
  intros [Ha Hb]. unfold clamp. rewrite Rmin_left by exact Hb. apply Rmax_right, Ha.
Qed.

#[export] Hint Resolve clamp_range : wl.

(** ** [limit] *)

(** With a positive budget, [limit] only ever shrinks its argument along its
    own direction. *)
Lemma limit_scales x y max :
  0 < max -> exists k, 0 < k <= 1 /\ limit x y max = (x * k, y * k).
Proof.
  intros Hmax. unfold limit.
  destruct (Rlt_dec max (hypot x y)) as [Hm|Hm];
    [destruct (Rlt_dec 0 (hypot x y)) as [Hp|Hp]|].
  - exists (max / hypot x y). split; [|reflexivity].
    split; [apply Rdiv_lt_0_compat; lra | left; apply div_lt_1; lra].
  - exists 1. split; [lra | f_equal; ring].
  - exists 1. split; [lra | f_equal; ring].
Qed.

(** With a non-negative budget, the limited vector has length
    [min(|v|, max)]. *)
Lemma hypot_limit x y max :
  0 <= max -> hypot (fst (limit x y max)) (snd (limit x y max)) = Rmin (hypot x y) max.
Proof.
  intros Hmax. pose proof (hypot_nonneg x y). unfold limit.
  destruct (Rlt_dec max (hypot x y)) as [Hm|Hm].
  - destruct (Rlt_dec 0 (hypot x y)) as [Hp|Hp]; [|lra]. simpl.
    rewrite hypot_scale by (apply Rmult_le_pos; [lra | left; apply Rinv_0_lt_compat; lra]).
    rewrite Rmin_right by lra. field. lra.
  - rewrite Rmin_left by lra. reflexivity.
Qed.

Lemma hypot_limit_le x y max :
  0 <= max -> hypot (fst (limit x y max)) (snd (limit x y max)) <= max.
Proof. intros Hmax. rewrite hypot_limit by exact Hmax. apply Rmin_r. Qed.

#[export] Hint Resolve hypot_limit_le : wl.
