(* ===== verification/Host.v ===== *)
(** * The host environment seen by woodlouse.js

    The program reads the page through a few host APIs: the page elements
    Turn.js renders ([document.querySelectorAll(".flipbook .page")], in
    document order), each node's bounding box ([getBoundingClientRect]) and
    offset size ([offsetWidth], [offsetHeight]), the viewport height
    ([innerHeight]), the reduced-motion media query, and whether jQuery
    with Turn.js's event API is loaded.  The record [host]
    is one snapshot of these; the code never writes them.  [measure]
    (lines 113-119) is the program's own reading of a node's size, with its
    fallback to the offset size when the box is momentarily zero. *)

From Stdlib Require Import Reals Lra List.
From S2P Require Import Prelude.
Import ListNotations.
Local Open Scope R_scope.

(** The fields of a [DOMRect] the code reads. *)
Record rect := mkRect {
  r_width : R;
  r_height : R;
  r_top : R;
  r_bottom : R
}.

Record host := mkHost {
  h_pages : list nat;          (** [qa(".flipbook .page")] in document order *)
  h_rect : nat -> rect;        (** [el.getBoundingClientRect()] *)
  h_offset : nat -> R * R;     (** [(el.offsetWidth, el.offsetHeight)] *)
  h_innerHeight : R;           (** [innerHeight] *)
  h_reduced_motion : bool;     (** [matchMedia("(prefers-reduced-motion: reduce)").matches] *)
  h_flip_on : bool             (** [$flip && $flip.on]: jQuery and Turn.js's events are there *)
}.

(** [measure(el)]: [W = r.width || el.offsetWidth || 0], and so for [H]. *)
Definition measure (h : host) (el : nat) : R * R :=
  let r := h_rect h el in
  (or_else (or_else (r_width r) (fst (h_offset h el))) 0,
   or_else (or_else (r_height r) (snd (h_offset h el))) 0).

(** [measure] never reports a zero width when either the box or the offset
    width is non-zero: it falls back to the offset size only for a zero box. *)
Lemma measure_width h el :
  fst (measure h el) =
  if Req_dec_T (r_width (h_rect h el)) 0 then fst (h_offset h el) else r_width (h_rect h el).
Proof.
  unfold measure, or_else; simpl.
  destruct (Req_dec_T (r_width (h_rect h el)) 0);
    [destruct (Req_dec_T (fst (h_offset h el)) 0) as [E|E]; [rewrite E|]|];
    repeat match goal with |- context [Req_dec_T ?a 0] => destruct (Req_dec_T a 0) end;
    congruence.
Qed.

(** A book open on pages 1 and 3, both 400 x 300 on an 800 px viewport. *)
Definition host0 : host :=
  {| h_pages := [1%nat; 3%nat];
     h_rect := fun _ => mkRect 400 300 0 300;
     h_offset := fun _ => (400, 300);
     h_innerHeight := 800;
     h_reduced_motion := false;
     h_flip_on := true |}.

Lemma measure_host0 el : measure host0 el = (400, 300).
Proof.
  unfold measure, or_else. simpl.
  destruct (Req_dec_T 400 0); [lra|]. destruct (Req_dec_T 300 0); [lra|].
  destruct (Req_dec_T 400 0); [lra|]. destruct (Req_dec_T 300 0); [lra | reflexivity].
Qed.
