(* ===== verification/Visibility.v ===== *)
(** * Visibility Tracker: [getVisiblePages]

    [getVisiblePages] (woodlouse.js lines 50-64) keeps the [.flipbook .page]
    elements whose box is more than 20 px in both directions
    ([rectHasSize], line 48) and meets the viewport vertically, sorts them by
    decreasing area, and returns the first two (a Turn.js spread).

    [Array.prototype.sort] is stable since ECMAScript 2019 and the
    comparator [(a,b) => area(b) - area(a)] is consistent (the boxes do not
    change during the sort), so its result is determined: the stable sort by
    decreasing area.  The model computes it by insertion, each element going
    after those of equal or larger area already placed.

    The theorem: the result has at most two pages, all of them on screen and
    sized, in decreasing area, and no qualifying page left out is larger
    than one kept. *)

From Stdlib Require Import Reals Lra Lia List Sorted Permutation.
From S2P Require Import Prelude Host.
Import ListNotations.
Local Open Scope R_scope.

Section Visibility.
Variable h : host.

(** [rectHasSize(r)]: [r && r.width > 20 && r.height > 20]. *)
Definition rectHasSize (r : rect) : bool :=
  if Rlt_dec 20 (r_width r) then (if Rlt_dec 20 (r_height r) then true else false)
  else false.

(** The filter of lines 52-55. *)
Definition on_screen (el : nat) : bool :=
  let r := h_rect h el in
  rectHasSize r &&
  (if Rlt_dec 0 (r_bottom r) then true else false) &&
  (if Rlt_dec (r_top r) (h_innerHeight h) then true else false).

Definition area (el : nat) : R := r_width (h_rect h el) * r_height (h_rect h el).

(** Insert [x] after every element whose area is at least its own. *)
Fixpoint insert_by_area (x : nat) (l : list nat) : list nat :=
  match l with
  | [] => [x]
  | y :: l' => if Rlt_dec (area y) (area x) then x :: y :: l' else y :: insert_by_area x l'
  end.

(** [pages.sort((a,b) => area(b) - area(a))], the stable sort. *)
Definition sort_by_area (l : list nat) : list nat :=
  fold_left (fun acc x => insert_by_area x acc) l [].

(** [getVisiblePages()] *)
Definition getVisiblePages : list nat :=
  firstn 2 (sort_by_area (filter on_screen (h_pages h))).

(** ** Lemmas *)

(** [a] comes no later than [b] in decreasing-area order. *)
Definition area_ge (a b : nat) : Prop := area b <= area a.

(** The pages of area [v]: one class of the comparator's equivalence. *)
Definition area_is (v : R) (el : nat) : bool := if Req_dec_T (area el) v then true else false.

Lemma insert_by_area_perm x l : Permutation (insert_by_area x l) (x :: l).
Proof.
  induction l as [|y l IH]; simpl; [auto|].
  destruct (Rlt_dec (area y) (area x)); [auto|].
  rewrite IH. apply perm_swap.
Qed.

Lemma insert_by_area_sorted x l :
  StronglySorted area_ge l -> StronglySorted area_ge (insert_by_area x l).
Proof.
  induction l as [|y l IH]; simpl; intros Hs.
  - repeat constructor.
  - inversion Hs as [|? ? Hs' Hy]; subst.
    destruct (Rlt_dec (area y) (area x)) as [Hlt|Hge].
    + constructor; [exact Hs|]. constructor; [unfold area_ge; lra|].
      eapply Forall_impl; [|exact Hy]. unfold area_ge. intros a Ha. lra.
    + constructor; [apply IH, Hs'|].
      apply (Permutation_Forall (Permutation_sym (insert_by_area_perm x l))).
      constructor; [unfold area_ge; lra | exact Hy].
Qed.

Lemma sort_by_area_acc l acc :
  StronglySorted area_ge acc ->
  StronglySorted area_ge (fold_left (fun a x => insert_by_area x a) l acc) /\
  Permutation (fold_left (fun a x => insert_by_area x a) l acc) (rev l ++ acc).
Proof.
  revert acc. induction l as [|x l IH]; intros acc Hs; simpl; [auto|].
  destruct (IH (insert_by_area x acc) (insert_by_area_sorted x acc Hs)) as [H1 H2].
  split; [exact H1|]. rewrite H2, <- app_assoc. simpl.
  apply Permutation_app_head, insert_by_area_perm.
Qed.

Lemma sort_by_area_spec l :
  StronglySorted area_ge (sort_by_area l) /\ Permutation (sort_by_area l) l.
Proof.
  destruct (sort_by_area_acc l [] (SSorted_nil _)) as [H1 H2].
  split; [exact H1|]. rewrite app_nil_r in H2. rewrite H2. apply Permutation_sym, Permutation_rev.
Qed.

(** ** Stability *)

Lemma sorted_head_ge y l : StronglySorted area_ge (y :: l) -> Forall (fun z => area z <= area y) l.
Proof. inversion 1; subst. eapply Forall_impl; [|eassumption]. unfold area_ge. auto. Qed.

Lemma area_is_true v z : area_is v z = true <-> area z = v.
Proof. unfold area_is. destruct (Req_dec_T (area z) v); split; congruence. Qed.

Lemma area_is_false v z : area_is v z = false <-> area z <> v.
Proof. unfold area_is. destruct (Req_dec_T (area z) v); split; congruence. Qed.

Lemma filter_area_none v l : Forall (fun z => area z < v) l -> filter (area_is v) l = [].
Proof.
  induction 1 as [|z l Hz _ IH]; [reflexivity|]. simpl. rewrite IH. unfold area_is.
  destruct (Req_dec_T (area z) v); [lra | reflexivity].
Qed.

(** The element inserted goes after every element of its own area. *)
Lemma insert_by_area_filter v x l :
  StronglySorted area_ge l ->
  filter (area_is v) (insert_by_area x l) = filter (area_is v) l ++ filter (area_is v) [x].
Proof.
  induction l as [|y l IH]; intros Hs; [reflexivity|]. simpl insert_by_area.
  pose proof (sorted_head_ge y l Hs) as Hy. inversion Hs as [|? ? Hs' _]; subst.
  destruct (Rlt_dec (area y) (area x)) as [Hlt|Hge].
  - assert (Hc : forall z l0, filter (area_is v) (z :: l0) =
      if area_is v z then z :: filter (area_is v) l0 else filter (area_is v) l0) by reflexivity.
    rewrite !Hc. destruct (area_is v x) eqn:Ex; [|rewrite app_nil_r; reflexivity].
    apply area_is_true in Ex.
    assert (Ey : area_is v y = false) by (apply area_is_false; lra).
    rewrite Ey, filter_area_none; [reflexivity|].
    eapply Forall_impl; [|exact Hy]. simpl. intros; lra.
  - simpl. rewrite IH by exact Hs'. destruct (area_is v y); reflexivity.
Qed.

Lemma sort_by_area_filter_acc v l acc :
  StronglySorted area_ge acc ->
  filter (area_is v) (fold_left (fun a x => insert_by_area x a) l acc) =
  filter (area_is v) acc ++ filter (area_is v) l.
Proof.
  revert acc. induction l as [|x l IH]; intros acc Hs; simpl; [rewrite app_nil_r; reflexivity|].
  rewrite IH by (apply insert_by_area_sorted, Hs).
  rewrite insert_by_area_filter by exact Hs. rewrite <- app_assoc. simpl.
  destruct (area_is v x); reflexivity.
Qed.

Lemma sort_by_area_filter v l : filter (area_is v) (sort_by_area l) = filter (area_is v) l.
Proof. apply (sort_by_area_filter_acc v l []). constructor. Qed.

Lemma In_filter_area l1 l2 y :
  (forall v, filter (area_is v) l1 = filter (area_is v) l2) -> In y l2 -> In y l1.
Proof.
  intros Hf Hy. assert (Hin : In y (filter (area_is (area y)) l2)).
  { apply filter_In. split; [exact Hy | apply area_is_true; reflexivity]. }
  rewrite <- Hf in Hin. apply filter_In in Hin. apply Hin.
Qed.

Lemma sorted_In_ge x l y : StronglySorted area_ge (x :: l) -> In y (x :: l) -> area y <= area x.
Proof.
  intros Hs [<-|Hy]; [lra|]. apply (proj1 (Forall_forall _ _) (sorted_head_ge x l Hs) y Hy).
Qed.

(** Two lists in decreasing-area order that agree on every class of equal
    area are equal: the stable sort is unique. *)
Lemma sorted_classes_unique l1 l2 :
  StronglySorted area_ge l1 -> StronglySorted area_ge l2 ->
  (forall v, filter (area_is v) l1 = filter (area_is v) l2) -> l1 = l2.
Proof.
  revert l2. induction l1 as [|x r1 IH]; intros [|y r2] H1 H2 Hf; [reflexivity| | |].
  - exfalso. apply (In_filter_area [] (y :: r2) y Hf); left; reflexivity.
  - exfalso. apply (In_filter_area [] (x :: r1) x (fun v => eq_sym (Hf v))); left; reflexivity.
  - pose proof (sorted_In_ge _ _ _ H1 (In_filter_area _ _ y Hf (or_introl eq_refl))) as Hyx.
    pose proof (sorted_In_ge _ _ _ H2 (In_filter_area _ _ x (fun v => eq_sym (Hf v)) (or_introl eq_refl))) as Hxy.
    assert (Hv : forall v, filter (area_is v) r1 = filter (area_is v) r2 /\ (area x = v -> x = y)).
    { intros v. specialize (Hf v). simpl in Hf.
      destruct (area_is v x) eqn:Ex, (area_is v y) eqn:Ey.
      - injection Hf as -> E. auto.
      - apply area_is_true in Ex. apply area_is_false in Ey. lra.
      - apply area_is_false in Ex. apply area_is_true in Ey. lra.
      - apply area_is_false in Ex. split; [exact Hf | intros; contradiction]. }
    destruct (Hv (area x)) as [_ Exy]. rewrite <- (Exy eq_refl). f_equal.
    inversion H1; inversion H2; subst. apply IH; auto. intros v. apply Hv.
Qed.

(** ** Theorem *)

(** C28: [getVisiblePages] returns at most two pages, each of them a page of
    the book that is on screen and larger than 20 px both ways, in order of
    decreasing area; and every qualifying page it leaves out has an area no
    larger than each page it returns. *)
Theorem getVisiblePages_spec :
  let vis := getVisiblePages in
  (length vis <= 2)%nat /\
  (forall el, In el vis -> In el (h_pages h) /\ on_screen el = true) /\
  StronglySorted area_ge vis /\
  (forall el el', In el (h_pages h) -> on_screen el = true -> ~ In el vis ->
     In el' vis -> area el <= area el').
Proof.
  unfold getVisiblePages.
  set (s := sort_by_area (filter on_screen (h_pages h))).
  destruct (sort_by_area_spec (filter on_screen (h_pages h))) as [Hsort Hperm]. fold s in Hsort, Hperm.
  split; [apply firstn_le_length|]. split; [|split].
  - intros el Hin. apply In_firstn_In, (Permutation_in _ Hperm), filter_In in Hin.
    exact Hin.
  - apply StronglySorted_firstn, Hsort.
  - intros el el' Hp Ho Hn Hin'.
    assert (Hs : In el s) by (apply (Permutation_in _ (Permutation_sym Hperm)), filter_In; auto).
    rewrite <- (firstn_skipn 2 s) in Hs, Hsort. apply in_app_or in Hs.
    destruct Hs as [Hs|Hs]; [contradiction|].
    exact (StronglySorted_app_inv _ _ _ el' el Hsort Hin' Hs).
Qed.

(** Why insertion models [pages.sort]: the insertion of [sort_by_area]
    computes the one list that is in decreasing area and keeps, within each
    class of equal area, the order the pages have in [l], which is what
    ECMAScript requires of a stable sort with the comparator
    [area(b) - area(a)]. *)
Lemma sort_by_area_stable_sort l s :
  s = sort_by_area l <->
  StronglySorted area_ge s /\ (forall v, filter (area_is v) s = filter (area_is v) l).
Proof.
  split.
  - intros ->. split; [apply (proj1 (sort_by_area_spec l)) | intros v; apply sort_by_area_filter].
  - intros [Hs Hf]. apply sorted_classes_unique; [exact Hs | apply (proj1 (sort_by_area_spec l)) |].
    intros v. rewrite Hf. symmetry. apply sort_by_area_filter.
Qed.

Lemma getVisiblePages_incl : incl getVisiblePages (h_pages h).
Proof.
  intros el Hin. unfold getVisiblePages in Hin. apply In_firstn_In in Hin.
  apply (Permutation_in _ (proj2 (sort_by_area_spec _))), filter_In in Hin. apply Hin.
Qed.

Lemma getVisiblePages_NoDup : NoDup (h_pages h) -> NoDup getVisiblePages.
Proof.
  intros Hnd. unfold getVisiblePages.
  pose proof (Permutation_NoDup (Permutation_sym (proj2 (sort_by_area_spec (filter on_screen (h_pages h)))))
                (NoDup_filter on_screen Hnd)) as H.
  rewrite <- (firstn_skipn 2 (sort_by_area _)) in H. exact (NoDup_app_remove_r _ _ H).
Qed.

End Visibility.
