(* ===== verification/Route.v ===== *)
(** * Route Configurator: [makeLouse] and [configureRoute]

    A sprite ("louse") is the object built by [makeLouse] (woodlouse.js lines
    97-110) together with the state of its [div] element.  Its route is set
    once by [configureRoute] (lines 122-163): on a surface of size [W x H]
    large enough for a sprite plus padding, one of the four edges is drawn
    with [Math.floor(Math.random()*4)], the sprite is placed on that edge and
    its exit target beyond the opposite edge; on a smaller surface a fixed
    diagonal fallback is used.  The initial velocity points from the entry to
    the exit with a speed drawn from [CFG.baseSpeed], and the wander heading
    starts within 0.4 rad of that direction.

    The theorems show, for every branch, where the sprite starts and where
    it is sent, that the velocity is the drawn speed along the unit vector
    toward the exit, and how many random numbers each branch draws. *)

From Stdlib Require Import Reals Lra Lia List String ZArith.
From S2P Require Import Prelude Config.
Import ListNotations.
Local Open Scope R_scope.
Local Open Scope wl_scope.

(** ** The sprite *)

(** [L = { el, surfaceInfo, x, y, vx, vy, frame, alive, wanderAngle, exit }]
    and the state of [L.el].  The object [L] and its element are created
    together, so the element's node id [l_el] is also the identity [L] has in
    its surface's [Set]; [l_surf] is the key of the surface whose
    [surfaceInfo] it points to. *)
Record louse := mkLouse {
  l_el : nat;
  l_surf : nat;
  l_x : R; l_y : R;
  l_vx : R; l_vy : R;
  l_frame : nat;
  l_alive : bool;
  l_wander : R;
  l_exitx : R; l_exity : R;
  l_attached : bool;            (** [L.el] is a child of the surface layer *)
  l_classes : list string;      (** [L.el.classList] *)
  l_bg : nat;                   (** index in [CFG.imgs] of [backgroundImage] *)
  l_transform : R * R * R       (** [translate3d(x,y,0) rotate(angle)] *)
}.

(** [makeLouse(surfaceInfo)]: a new [div.woodlouse] (the node [el], fresh)
    appended to the surface layer, showing the first image, at the origin,
    with a wander heading drawn uniformly in [[0, 2 PI)]. *)
Definition makeLouse (surf el : nat) : Rnd louse :=
  wa <- rnd 0 (PI * 2) ;;
  rret {| l_el := el; l_surf := surf;
          l_x := 0; l_y := 0; l_vx := 0; l_vy := 0;
          l_frame := 0; l_alive := true;
          l_wander := wa;
          l_exitx := 0; l_exity := 0;
          l_attached := true;
          l_classes := ["woodlouse"%string];
          l_bg := 0;
          l_transform := (0, 0, 0) |}.

(** ** [configureRoute] *)

(** [Math.floor(Math.random()*4)]: 0 = bottom, 1 = top, 2 = left, 3 = right. *)
Definition side_of (u : R) : Z := Int_part (u * 4).

(** Lines 123-152: the entry point [(L.x, L.y)] and the exit target
    [(L.exit.x, L.exit.y)]. *)
Definition route_endpoints (W H : R) : Rnd (R * R * R * R) :=
  let S := CFG.size in
  let pad := CFG.edgePad in
  if Rlt_dec W (S + pad * 2) then rret (pad, pad, W - S - pad, H - S - pad)
  else if Rlt_dec H (S + pad * 2) then rret (pad, pad, W - S - pad, H - S - pad)
  else
    u <- random ;;
    let side := side_of u in
    if Z.eq_dec side 0 then
      a <- rnd pad (W - S - pad) ;; b <- rnd pad (W - S - pad) ;;
      rret (clamp a pad (W - S - pad), H - S, clamp b pad (W - S - pad), - S - 6)
    else if Z.eq_dec side 1 then
      a <- rnd pad (W - S - pad) ;; b <- rnd pad (W - S - pad) ;;
      rret (clamp a pad (W - S - pad), 0, clamp b pad (W - S - pad), H + 6)
    else if Z.eq_dec side 2 then
      a <- rnd pad (H - S - pad) ;; b <- rnd pad (H - S - pad) ;;
      rret (0, clamp a pad (H - S - pad), W + 6, clamp b pad (H - S - pad))
    else
      a <- rnd pad (H - S - pad) ;; b <- rnd pad (H - S - pad) ;;
      rret (W - S, clamp a pad (H - S - pad), - S - 6, clamp b pad (H - S - pad)).

(** The sprite with its route, velocity, wander heading and transform set. *)
Definition with_route (L : louse) (x y ex ey vx vy wa ang : R) : louse :=
  {| l_el := l_el L; l_surf := l_surf L;
     l_x := x; l_y := y; l_vx := vx; l_vy := vy;
     l_frame := l_frame L; l_alive := l_alive L;
     l_wander := wa;
     l_exitx := ex; l_exity := ey;
     l_attached := l_attached L;
     l_classes := l_classes L;
     l_bg := l_bg L;
     l_transform := (x, y, ang + PI / 2) |}.

(** [configureRoute(L, W, H)]. *)
Definition configureRoute (L : louse) (W H : R) : Rnd louse :=
  p <- route_endpoints W H ;;
  let '(x, y, ex, ey) := p in
  let dx := ex - x in
  let dy := ey - y in
  let ang := atan2 dy dx in
  spd <- rnd (fst CFG.baseSpeed) (snd CFG.baseSpeed) ;;
  off <- rnd (-0.4) 0.4 ;;
  rret (with_route L x y ex ey (cos ang * spd) (sin ang * spd) (ang + off) ang).

(** ** The route contract *)

Inductive Side := Bottom | Top | LeftEdge | RightEdge.

Definition opposite (s : Side) : Side :=
  match s with
  | Bottom => Top | Top => Bottom | LeftEdge => RightEdge | RightEdge => LeftEdge
  end.

(** The edge a side index stands for, as the [if] chain of lines 131-146
    reads it (anything that is not 0, 1 or 2 goes right). *)
Definition side_code (z : Z) : Side :=
  if Z.eq_dec z 0 then Bottom
  else if Z.eq_dec z 1 then Top
  else if Z.eq_dec z 2 then LeftEdge
  else RightEdge.

(** The surface has room for a sprite plus padding on both axes. *)
Definition fits (W H : R) : Prop :=
  CFG.size + CFG.edgePad * 2 <= W /\ CFG.size + CFG.edgePad * 2 <= H.

(** A sprite of size [S] at [(x, y)] touches side [s] of a [W x H] surface,
    at a position along that side that keeps the padding. *)
Definition entry_on (s : Side) (W H x y : R) : Prop :=
  let S := CFG.size in let pad := CFG.edgePad in
  match s with
  | Bottom => y = H - S /\ pad <= x <= W - S - pad
  | Top => y = 0 /\ pad <= x <= W - S - pad
  | LeftEdge => x = 0 /\ pad <= y <= H - S - pad
  | RightEdge => x = W - S /\ pad <= y <= H - S - pad
  end.

(** A target at [(ex, ey)] puts the whole sprite beyond side [s]. *)
Definition exit_beyond (s : Side) (W H ex ey : R) : Prop :=
  let S := CFG.size in let pad := CFG.edgePad in
  match s with
  | Bottom => H < ey /\ pad <= ex <= W - S - pad
  | Top => ey + S < 0 /\ pad <= ex <= W - S - pad
  | LeftEdge => ex + S < 0 /\ pad <= ey <= H - S - pad
  | RightEdge => W < ex /\ pad <= ey <= H - S - pad
  end.

(** ** Lemmas *)

Lemma side_of_spec (u : R) (k : Z) :
  IZR k <= u * 4 < IZR k + 1 -> side_of u = k.
Proof. intros H. apply Int_part_unique, H. Qed.

Lemma configureRoute_eq L W H src n x y ex ey c :
  route_endpoints W H src n = ((x, y, ex, ey), c) ->
  configureRoute L W H src n =
  (let ang := atan2 (ey - y) (ex - x) in
   let spd := 300 + src c * (420 - 300) in
   (with_route L x y ex ey (cos ang * spd) (sin ang * spd)
      (ang + (-0.4 + src (S c) * (0.4 - -0.4))) ang, S (S c))).
Proof. intros E. unfold configureRoute, rbind. rewrite E. reflexivity. Qed.

(** Entry and exit never coincide, so the heading toward the exit is
    defined on every branch. *)
Lemma route_dir_nonzero W H src n x y ex ey c :
  route_endpoints W H src n = ((x, y, ex, ey), c) -> (ex - x, ey - y) <> (0, 0).
Proof.
  unfold route_endpoints, rnd. run_rnd. cfg. case_ifs;
    intros E; injection E as <- <- <- <- <-; intros Hz; injection Hz as Hx Hy; lra.
Qed.

Lemma route_endpoints_fallback W H src n :
  ~ fits W H ->
  route_endpoints W H src n =
  ((CFG.edgePad, CFG.edgePad, W - CFG.size - CFG.edgePad, H - CFG.size - CFG.edgePad), n).
Proof.
  unfold fits, route_endpoints. intros Hf. run_rnd.
  destruct (Rlt_dec W _); [reflexivity|]. destruct (Rlt_dec H _); [reflexivity|]. lra.
Qed.

(** Every coordinate the code clamps lies in the padded range. *)
Ltac route_bounds :=
  repeat split; try (apply clamp_range); cfg; lra.

(** ** Theorems *)

(** On a surface with room for a sprite, the entry point lies on the edge
    selected by the first draw, inside the padded range along that edge, and
    the exit target lies beyond the opposite edge; three numbers are drawn
    (side, entry position, exit position). *)
Lemma route_endpoints_sides W H src n x y ex ey c :
  fits W H ->
  route_endpoints W H src n = ((x, y, ex, ey), c) ->
  let s := side_code (side_of (src n)) in
  entry_on s W H x y /\ exit_beyond (opposite s) W H ex ey /\ c = (n + 3)%nat.
Proof.
  unfold fits, route_endpoints, side_code, rnd. intros Hf. run_rnd.
  destruct (Rlt_dec W _); [lra|]. destruct (Rlt_dec H _); [lra|].
  case_ifs; intros E; injection E as <- <- <- <- <-; simpl;
    (split; [|split; [|lia]]); route_bounds.
Qed.

(** C19: On a surface with room for a sprite, the entry point lies on the edge
    selected by the first draw, inside the padded range along that edge, and
    the exit target lies beyond the opposite edge; three numbers are drawn
    (side, entry position, exit position). *)
Theorem route_endpoints_contract W H src n x y ex ey c :
  fits W H ->
  route_endpoints W H src n = ((x, y, ex, ey), c) ->
  let s := side_code (side_of (src n)) in
  entry_on s W H x y /\ exit_beyond (opposite s) W H ex ey /\ c = (n + 3)%nat.
Proof. exact (route_endpoints_sides W H src n x y ex ey c). Qed.

(** [Math.floor(Math.random()*4)] picks each side on a quarter of [[0,1)]:
    side [k] exactly when the draw lies in [[k/4, (k+1)/4)]. *)
Lemma side_of_quarter (u : R) (k : Z) :
  0 <= u < 1 -> (0 <= k <= 3)%Z ->
  side_of u = k <-> IZR k / 4 <= u < (IZR k + 1) / 4.
Proof.
  intros Hu Hk. split.
  - intros <-. unfold side_of. destruct (base_Int_part (u * 4)). lra.
  - intros Hq. apply side_of_spec. lra.
Qed.

(** The initial velocity is the speed drawn from [CFG.baseSpeed] along the
    unit vector from the entry point to the exit target. *)
Lemma configureRoute_velocity_spec L W H src n :
  valid_source src ->
  let L' := rval (configureRoute L W H) src n in
  let dx := l_exitx L' - l_x L' in
  let dy := l_exity L' - l_y L' in
  exists spd, 300 <= spd <= 420 /\
    l_vx L' = spd * dx / hypot dx dy /\
    l_vy L' = spd * dy / hypot dx dy /\
    hypot (l_vx L') (l_vy L') = spd.
Proof.
  intros Hs. unfold rval.
  destruct (route_endpoints W H src n) as [[[[x y] ex] ey] c] eqn:E.
  rewrite (configureRoute_eq L W H src n x y ex ey c E). simpl.
  pose proof (route_dir_nonzero W H src n x y ex ey c E) as Hnz.
  pose proof (hypot_pos _ _ Hnz) as Hd.
  destruct (cos_sin_atan2 _ _ Hnz) as [Hc Hsn]. rewrite Hc, Hsn.
  pose proof (Hs c) as Hc0.
  exists (300 + src c * (420 - 300)). split; [lra|]. split; [field; lra|].
  split; [field; lra|].
  replace ((ex - x) / hypot (ex - x) (ey - y) * (300 + src c * (420 - 300)))
    with ((ex - x) * / hypot (ex - x) (ey - y) * (300 + src c * (420 - 300))) by reflexivity.
  replace ((ey - y) / hypot (ex - x) (ey - y) * (300 + src c * (420 - 300)))
    with ((ey - y) * / hypot (ex - x) (ey - y) * (300 + src c * (420 - 300))) by reflexivity.
  rewrite hypot_scale by lra. rewrite hypot_scale by (left; apply Rinv_0_lt_compat; lra).
  field. lra.
Qed.

(** C20: The initial velocity is the speed drawn from [CFG.baseSpeed] along the
    unit vector from the entry point to the exit target. *)
Theorem configureRoute_velocity L W H src n :
  valid_source src ->
  let L' := rval (configureRoute L W H) src n in
  let dx := l_exitx L' - l_x L' in
  let dy := l_exity L' - l_y L' in
  exists spd, 300 <= spd <= 420 /\
    l_vx L' = spd * dx / hypot dx dy /\
    l_vy L' = spd * dy / hypot dx dy /\
    hypot (l_vx L') (l_vy L') = spd.
Proof. exact (configureRoute_velocity_spec L W H src n). Qed.

(** The wander heading starts within 0.4 rad of the direction of travel. *)
Lemma configureRoute_wander L W H src n :
  valid_source src ->
  let L' := rval (configureRoute L W H) src n in
  Rabs (l_wander L' - atan2 (l_exity L' - l_y L') (l_exitx L' - l_x L')) <= 0.4.
Proof.
  intros Hs. unfold rval.
  destruct (route_endpoints W H src n) as [[[[x y] ex] ey] c] eqn:E.
  rewrite (configureRoute_eq L W H src n x y ex ey c E). simpl.
  pose proof (Hs (S c)). apply Rabs_le. lra.
Qed.

(** C18: The spec's bottom-entry case: on a surface with room for a sprite, a
    first draw that selects side 0 puts the sprite on the bottom edge
    ([y = H - S]), sends it to an exit above the top edge ([exit.y < 0]), and
    starts it moving upward. *)
Theorem configureRoute_bottom L W H src n :
  valid_source src -> fits W H -> side_of (src n) = 0%Z ->
  let L' := rval (configureRoute L W H) src n in
  l_y L' = H - CFG.size /\ l_exity L' < 0 /\ l_vy L' < 0.
Proof.
  intros Hs Hf H0. pose proof (configureRoute_velocity_spec L W H src n Hs) as Hv.
  unfold rval in *.
  destruct (route_endpoints W H src n) as [[[[x y] ex] ey] c] eqn:E.
  destruct (route_endpoints_sides W H src n x y ex ey c Hf E) as [Hen [Hex _]].
  rewrite H0 in Hen, Hex. unfold side_code in Hen, Hex; simpl in Hen, Hex.
  rewrite (configureRoute_eq L W H src n x y ex ey c E) in Hv |- *. simpl in Hv |- *.
  destruct Hv as [spd [Hspd [_ [Hvy _]]]]. rewrite Hvy.
  pose proof (route_dir_nonzero W H src n x y ex ey c E) as Hnz.
  pose proof (hypot_pos _ _ Hnz) as Hd. unfold fits in Hf. cfg.
  split; [lra|]. split; [lra|].
  unfold Rdiv. apply Rmult_neg_pos; [nra | apply Rinv_0_lt_compat; lra].
Qed.

(** C35: On a surface too small for a sprite plus padding, the route is the
    fixed diagonal from [(pad, pad)] toward [(W - S - pad, H - S - pad)]; no
    side is drawn, only the speed and the wander offset. *)
Theorem configureRoute_fallback L W H src n :
  ~ fits W H ->
  let L' := rval (configureRoute L W H) src n in
  l_x L' = CFG.edgePad /\ l_y L' = CFG.edgePad /\
  l_exitx L' = W - CFG.size - CFG.edgePad /\ l_exity L' = H - CFG.size - CFG.edgePad /\
  rcur (configureRoute L W H) src n = (n + 2)%nat.
Proof.
  intros Hf. unfold rval, rcur.
  rewrite (configureRoute_eq L W H src n _ _ _ _ n (route_endpoints_fallback W H src n Hf)).
  simpl. repeat split; lia.
Qed.

(** ** Witnesses *)

(** A sprite fresh from [makeLouse] on surface 1 with element 2. *)
Definition louse0 : louse := rval (makeLouse 1 2) src_zero 0.

Lemma fits_400_300 : fits 400 300.
Proof. unfold fits. cfg. lra. Qed.

Lemma route_endpoints_contract_witness :
  let '(x, y, ex, ey, c) := route_endpoints 400 300 src_zero 0%nat in
  let s := side_code (side_of (src_zero 0%nat)) in
  entry_on s 400 300 x y /\ exit_beyond (opposite s) 400 300 ex ey /\ c = 3%nat.
Proof.
  destruct (route_endpoints 400 300 src_zero 0%nat) as [[[[x y] ex] ey] c] eqn:E.
  exact (route_endpoints_contract 400 300 src_zero 0%nat x y ex ey c fits_400_300 E).
Defined.

Lemma configureRoute_velocity_witness :
  let L' := rval (configureRoute louse0 400 300) src_half 0 in
  let dx := l_exitx L' - l_x L' in
  let dy := l_exity L' - l_y L' in
  exists spd, 300 <= spd <= 420 /\
    l_vx L' = spd * dx / hypot dx dy /\ l_vy L' = spd * dy / hypot dx dy /\
    hypot (l_vx L') (l_vy L') = spd.
Proof. exact (configureRoute_velocity louse0 400 300 src_half 0%nat src_half_valid). Defined.

Lemma side_of_zero : side_of 0 = 0%Z.
Proof. apply side_of_spec. simpl. lra. Qed.

Lemma configureRoute_bottom_witness :
  let L' := rval (configureRoute louse0 400 300) src_zero 0 in
  l_y L' = 300 - CFG.size /\ l_exity L' < 0 /\ l_vy L' < 0.
Proof.
  exact (configureRoute_bottom louse0 400 300 src_zero 0%nat src_zero_valid fits_400_300 side_of_zero).
Defined.

Lemma configureRoute_fallback_witness :
  let L' := rval (configureRoute louse0 40 300) src_zero 0 in
  l_x L' = CFG.edgePad /\ l_y L' = CFG.edgePad /\
  l_exitx L' = 40 - CFG.size - CFG.edgePad /\ l_exity L' = 300 - CFG.size - CFG.edgePad /\
  rcur (configureRoute louse0 40 300) src_zero 0 = 2%nat.
Proof.
  apply (configureRoute_fallback louse0 40 300 src_zero 0%nat).
  unfold fits. cfg. lra.
Defined.
