(* ===== verification/Locomotion.v ===== *)
(** * Locomotion Engine: steering, integration and the despawn test

    One physics step of one sprite is the body of [set.forEach] in [tick]
    (woodlouse.js lines 255-283): a wander force from [wanderForce]
    (lines 221-229), a seek force toward the exit from [steerToward]
    (lines 207-219), their sum with the seek force weighted by
    [CFG.pathBias] limited to [CFG.accelMax], velocity integration with
    [CFG.inertia], the speed clamp (lines 270-272), position integration,
    the sprite's transform, and [maybeDespawn] (lines 231-242).  A surface
    whose layer measures under 30 px is skipped whole (lines 252-253).

    The theorems: each force is bounded; the speed clamp puts any non-zero
    velocity in the band [[speedMin, speedMax]] along its own direction,
    while the zero velocity stays zero; from a velocity in the band and a
    frame time of at most 50 ms (the cap of [loop]), the velocity after the
    step is again in the band, so the band is an invariant of motion; a
    sprite moves at most [speedMax * dt] per step; a sprite still alive after
    its step lies inside the despawn box; a dead sprite is frozen. *)

From Stdlib Require Import Reals Lra Lia List String ZArith.
From S2P Require Import Prelude Config Host Route.
Import ListNotations.
Local Open Scope R_scope.
Local Open Scope wl_scope.

(** ** Sprite updates *)

Definition set_wander (L : louse) (wa : R) : louse :=
  {| l_el := l_el L; l_surf := l_surf L; l_x := l_x L; l_y := l_y L;
     l_vx := l_vx L; l_vy := l_vy L; l_frame := l_frame L; l_alive := l_alive L;
     l_wander := wa; l_exitx := l_exitx L; l_exity := l_exity L;
     l_attached := l_attached L; l_classes := l_classes L; l_bg := l_bg L;
     l_transform := l_transform L |}.

Definition set_motion (L : louse) (x y vx vy ang : R) : louse :=
  {| l_el := l_el L; l_surf := l_surf L; l_x := x; l_y := y;
     l_vx := vx; l_vy := vy; l_frame := l_frame L; l_alive := l_alive L;
     l_wander := l_wander L; l_exitx := l_exitx L; l_exity := l_exity L;
     l_attached := l_attached L; l_classes := l_classes L; l_bg := l_bg L;
     l_transform := (x, y, ang) |}.

(** [classList.add(c)]: no duplicate class. *)
Definition class_add (c : string) (cs : list string) : list string :=
  if in_dec string_dec c cs then cs else cs ++ [c].

(** [L.alive = false; L.el.classList.add("woodlouse--despawn")] *)
Definition mark_despawn (L : louse) : louse :=
  {| l_el := l_el L; l_surf := l_surf L; l_x := l_x L; l_y := l_y L;
     l_vx := l_vx L; l_vy := l_vy L; l_frame := l_frame L; l_alive := false;
     l_wander := l_wander L; l_exitx := l_exitx L; l_exity := l_exity L;
     l_attached := l_attached L;
     l_classes := class_add "woodlouse--despawn" (l_classes L);
     l_bg := l_bg L; l_transform := l_transform L |}.

(** ** Forces *)

(** [steerToward(L, tx, ty, accelBudget)] *)
Definition steerToward (L : louse) (tx ty accelBudget : R) : R * R :=
  let dx := tx - l_x L in
  let dy := ty - l_y L in
  let len := or_else (hypot dx dy) 1 in
  let desiredSpeed := clamp (hypot (l_vx L) (l_vy L)) CFG.speedMin CFG.speedMax in
  let desiredX := dx / len * desiredSpeed in
  let desiredY := dy / len * desiredSpeed in
  limit (desiredX - l_vx L) (desiredY - l_vy L) accelBudget.

(** [wanderForce(L, dt)]: turns the wander heading by a random amount and
    returns the force along the new heading, with the updated sprite. *)
Definition wanderForce (L : louse) (dt : R) : Rnd (louse * (R * R)) :=
  let maxDelta := CFG.wanderTurnRate * dt in
  r <- rnd (- maxDelta) maxDelta ;;
  let delta := r * (0.5 + 0.5 * CFG.wanderJitter) in
  let wa := l_wander L + delta in
  rret (set_wander L wa, (cos wa * CFG.wanderStrength, sin wa * CFG.wanderStrength)).

(** Lines 270-272: [sp = Math.hypot(vx, vy) || 1], clamped into the speed
    band, and the velocity rescaled when the clamp moved it. *)
Definition clampSpeed (vx vy : R) : R * R :=
  let sp := or_else (hypot vx vy) 1 in
  let spClamped := clamp sp CFG.speedMin CFG.speedMax in
  if Req_dec_T sp spClamped then (vx, vy)
  else (vx * (spClamped / sp), vy * (spClamped / sp)).

(** ** The despawn test *)

(** The condition of line 237, with [threshold = 64]. *)
Definition outside (W H x y : R) : bool :=
  let S := CFG.size in
  let threshold := 64 in
  if Rlt_dec x (- S - threshold) then true
  else if Rlt_dec (W + threshold) x then true
  else if Rlt_dec y (- S - threshold) then true
  else if Rlt_dec (H + threshold) y then true
  else false.

(** [maybeDespawn(L)] on the sprite's layer: the sprite marked dead, and
    [true] when the removal timer of line 240 is scheduled. *)
Definition maybeDespawn (h : host) (layer : nat) (L : louse) : louse * bool :=
  let '(W, H) := measure h layer in
  if outside W H (l_x L) (l_y L) then (mark_despawn L, true) else (L, false).

(** ** One physics step *)

(** Lines 259-263: the wander force plus the seek force weighted by
    [CFG.pathBias], limited to [CFG.accelMax]. *)
Definition accel (L : louse) (w : R * R) : R * R :=
  let '(sx, sy) := steerToward L (l_exitx L) (l_exity L) CFG.accelMax in
  limit (fst w + sx * CFG.pathBias) (snd w + sy * CFG.pathBias) CFG.accelMax.

(** Lines 265-280: velocity with inertia, the speed clamp, position, and
    the sprite's transform. *)
Definition integrate (L : louse) (a : R * R) (dt : R) : louse :=
  let vx := l_vx L * CFG.inertia + fst a * dt in
  let vy := l_vy L * CFG.inertia + snd a * dt in
  let '(vx', vy') := clampSpeed vx vy in
  let x := l_x L + vx' * dt in
  let y := l_y L + vy' * dt in
  set_motion L x y vx' vy' (atan2 vy' vx' + PI / 2).

(** The body of [set.forEach] in [tick] (lines 256-282), for one sprite on
    the layer [layer]. *)
Definition tick_louse (h : host) (layer : nat) (dt : R) (L : louse) : Rnd (louse * bool) :=
  if negb (l_alive L) then rret (L, false) else
  p <- wanderForce L dt ;;
  let '(L1, w) := p in
  rret (maybeDespawn h layer (integrate L1 (accel L1 w) dt)).

(** [set.forEach(...)] over a surface's sprites in insertion order; the
    second component lists the sprites whose removal was scheduled. *)
Fixpoint tick_lice (h : host) (layer : nat) (dt : R) (lice : list louse)
  : Rnd (list louse * list nat) :=
  match lice with
  | [] => rret ([], [])
  | L :: rest =>
      p <- tick_louse h layer dt L ;;
      let '(L', sched) := p in
      q <- tick_lice h layer dt rest ;;
      let '(rest', ds) := q in
      rret (L' :: rest', if sched then l_el L' :: ds else ds)
  end.

(** The callback of [surfaces.forEach] in [tick] (lines 251-284) for one
    surface: skipped whole while its layer measures under 30 px. *)
Definition tick_surface (h : host) (layer : nat) (dt : R) (lice : list louse)
  : Rnd (list louse * list nat) :=
  let '(W, H) := measure h layer in
  if Rlt_dec W 30 then rret (lice, [])
  else if Rlt_dec H 30 then rret (lice, [])
  else tick_lice h layer dt lice.

(** ** Lemmas on the stages *)

Lemma hypot_unit_circle a s : 0 <= s -> hypot (cos a * s) (sin a * s) = s.
Proof.
  intros Hs. rewrite hypot_scale by exact Hs. unfold hypot.
  rewrite (Rplus_comm (cos a * cos a)). fold (Rsqr (sin a)) (Rsqr (cos a)).
  rewrite sin2_cos2, sqrt_1. ring.
Qed.

(** The wander force always has length [CFG.wanderStrength], and the
    heading turns by at most [wanderTurnRate * dt * (0.5 + 0.5 * jitter)]. *)
Lemma wanderForce_spec L dt src n :
  valid_source src -> 0 <= dt ->
  let '(L1, (wx, wy)) := rval (wanderForce L dt) src n in
  hypot wx wy = CFG.wanderStrength /\
  Rabs (l_wander L1 - l_wander L) <= CFG.wanderTurnRate * dt * (0.5 + 0.5 * CFG.wanderJitter) /\
  L1 = set_wander L (l_wander L1).
Proof.
  intros Hs Hdt. unfold wanderForce, rnd. run_rnd. simpl.
  pose proof (Hs n). split; [apply hypot_unit_circle; cfg; lra|].
  split; [|reflexivity]. cfg. apply Rabs_le. nra.
Qed.

Lemma steerToward_bound L tx ty b :
  0 <= b -> hypot (fst (steerToward L tx ty b)) (snd (steerToward L tx ty b)) <= b.
Proof. intros Hb. unfold steerToward. auto with wl. Qed.

(** The combined acceleration never exceeds [CFG.accelMax]. *)
Lemma accel_bound L w : hypot (fst (accel L w)) (snd (accel L w)) <= CFG.accelMax.
Proof.
  assert (0 <= CFG.accelMax) by (cfg; lra).
  unfold accel. destruct (steerToward _ _ _ _). auto with wl.
Qed.

(** The speed clamp on a non-zero velocity: the result lies in the speed
    band and points the same way. *)
Lemma clampSpeed_band vx vy :
  (vx, vy) <> (0, 0) ->
  CFG.speedMin <= hypot (fst (clampSpeed vx vy)) (snd (clampSpeed vx vy)) <= CFG.speedMax /\
  exists k, 0 < k /\ clampSpeed vx vy = (vx * k, vy * k).
Proof.
  intros Hnz. pose proof (hypot_pos vx vy Hnz) as Hp.
  assert (Hb : CFG.speedMin <= CFG.speedMax) by (cfg; lra).
  pose proof (clamp_range (hypot vx vy) _ _ Hb) as Hc.
  unfold clampSpeed, or_else. destruct (Req_dec_T (hypot vx vy) 0) as [E|_]; [lra|].
  destruct (Req_dec_T (hypot vx vy) (clamp (hypot vx vy) CFG.speedMin CFG.speedMax)) as [E|E].
  - simpl. split; [rewrite E; exact Hc|]. exists 1. split; [lra | f_equal; ring].
  - simpl. assert (Hk : 0 < clamp (hypot vx vy) CFG.speedMin CFG.speedMax / hypot vx vy)
      by (apply Rdiv_lt_0_compat; cfg; lra).
    rewrite hypot_scale by lra. split; [|exists (clamp (hypot vx vy) CFG.speedMin CFG.speedMax / hypot vx vy); split; [exact Hk | reflexivity]].
    replace (_ / hypot vx vy * hypot vx vy) with (clamp (hypot vx vy) CFG.speedMin CFG.speedMax)
      by (field; lra). exact Hc.
Qed.

(** The speed clamp leaves the zero velocity at zero: [Math.hypot(0, 0) || 1] is [1], the
    clamp raises it to [speedMin], and the rescale multiplies zero; so the
    clamp alone does not put every velocity in the speed band. *)
Lemma clampSpeed_origin : clampSpeed 0 0 = (0, 0).
Proof.
  unfold clampSpeed, or_else, hypot. rewrite Rmult_0_l, Rplus_0_l, sqrt_0.
  case_ifs; f_equal; ring.
Qed.

(** The speed clamp leaves the zero velocity at zero: [Math.hypot(0, 0) || 1] is [1], the
    clamp raises it to [speedMin], and the rescale multiplies zero; so the
    clamp alone does not put every velocity in the speed band. *)
Theorem clampSpeed_zero : clampSpeed 0 0 = (0, 0).
Proof. exact clampSpeed_origin. Qed.

(** Whatever the input, the clamped speed never exceeds [speedMax]. *)
Lemma clampSpeed_le vx vy :
  hypot (fst (clampSpeed vx vy)) (snd (clampSpeed vx vy)) <= CFG.speedMax.
Proof.
  destruct (Req_dec_T vx 0) as [->|Hx]; [destruct (Req_dec_T vy 0) as [->|Hy]|].
  - rewrite clampSpeed_origin. simpl. unfold hypot.
    rewrite Rmult_0_l, Rplus_0_l, sqrt_0. cfg. lra.
  - apply clampSpeed_band. congruence.
  - apply clampSpeed_band. congruence.
Qed.

Lemma outside_false_iff W H x y :
  outside W H x y = false <->
  - CFG.size - 64 <= x <= W + 64 /\ - CFG.size - 64 <= y <= H + 64.
Proof. unfold outside. case_ifs; split; intros; try discriminate; try lra; reflexivity. Qed.

(** What [maybeDespawn] does: a sprite outside the box is marked dead and
    its removal scheduled; a sprite inside is left as it is. *)
Lemma maybeDespawn_cases h layer L :
  let '(W, H) := measure h layer in
  (outside W H (l_x L) (l_y L) = true /\ maybeDespawn h layer L = (mark_despawn L, true)) \/
  (outside W H (l_x L) (l_y L) = false /\ maybeDespawn h layer L = (L, false)).
Proof.
  unfold maybeDespawn. destruct (measure h layer) as [W H].
  destruct (outside W H (l_x L) (l_y L)); auto.
Qed.

Lemma tick_louse_alive_eq h layer dt L src n :
  l_alive L = true ->
  tick_louse h layer dt L src n =
  (let '(L1, w) := rval (wanderForce L dt) src n in
   maybeDespawn h layer (integrate L1 (accel L1 w) dt), S n).
Proof. intros Ha. unfold tick_louse. rewrite Ha. reflexivity. Qed.

(** The speed band [[speedMin, speedMax]]. *)
Definition in_band (L : louse) : Prop :=
  CFG.speedMin <= hypot (l_vx L) (l_vy L) <= CFG.speedMax.

Lemma maybeDespawn_motion h layer L :
  let L' := fst (maybeDespawn h layer L) in
  l_x L' = l_x L /\ l_y L' = l_y L /\ l_vx L' = l_vx L /\ l_vy L' = l_vy L /\
  l_el L' = l_el L /\ l_surf L' = l_surf L.
Proof.
  pose proof (maybeDespawn_cases h layer L) as Hc.
  destruct (measure h layer) as [W H].
  destruct Hc as [[_ ->]|[_ ->]]; repeat split.
Qed.

(** ** Theorems *)

(** From a velocity in the band, an acceleration within [CFG.accelMax] and a
    frame time of at most 50 ms, the integrated velocity is never zero and
    the speed clamp brings it back into the band. *)
Lemma integrate_band L a dt :
  in_band L -> hypot (fst a) (snd a) <= CFG.accelMax -> 0 <= dt <= 0.05 ->
  in_band (integrate L a dt).
Proof.
  unfold in_band, integrate. intros Hv Ha Hdt.
  set (vx := l_vx L * CFG.inertia + fst a * dt).
  set (vy := l_vy L * CFG.inertia + snd a * dt).
  assert (Hnz : (vx, vy) <> (0, 0)).
  { intros E. injection E as Ex Ey.
    pose proof (hypot_reverse_triangle (l_vx L * CFG.inertia) (l_vy L * CFG.inertia)
                  (fst a * dt) (snd a * dt)) as Ht.
    fold vx vy in Ht. rewrite Ex, Ey in Ht.
    rewrite !hypot_scale in Ht by (cfg; lra).
    unfold hypot at 3 in Ht. rewrite Rmult_0_l, Rplus_0_l, sqrt_0 in Ht.
    cfg. nra. }
  destruct (clampSpeed_band vx vy Hnz) as [Hb _].
  destruct (clampSpeed vx vy) as [vx' vy']. exact Hb.
Qed.

(** A step moves a sprite by at most [speedMax * dt]. *)
Lemma integrate_displacement L a dt :
  0 <= dt ->
  let L' := integrate L a dt in
  hypot (l_x L' - l_x L) (l_y L' - l_y L) <= CFG.speedMax * dt.
Proof.
  intros Hdt. unfold integrate.
  pose proof (clampSpeed_le (l_vx L * CFG.inertia + fst a * dt)
                            (l_vy L * CFG.inertia + snd a * dt)) as Hle.
  destruct (clampSpeed _ _) as [vx' vy']. simpl in *.
  replace (l_x L + vx' * dt - l_x L) with (vx' * dt) by ring.
  replace (l_y L + vy' * dt - l_y L) with (vy' * dt) by ring.
  rewrite hypot_scale by exact Hdt. nra.
Qed.

(** The speed band is an invariant of motion: a live sprite whose speed is
    in [[speedMin, speedMax]] is still in the band after a physics step with
    [0 <= dt <= 0.05], whatever the random draws. *)
Lemma tick_louse_band_step h layer dt L src n :
  l_alive L = true -> in_band L -> 0 <= dt <= 0.05 ->
  in_band (fst (rval (tick_louse h layer dt L) src n)).
Proof.
  intros Ha Hb Hdt. unfold rval. rewrite tick_louse_alive_eq by exact Ha. simpl.
  unfold wanderForce, rnd. run_rnd.
  set (L1 := set_wander L _). set (w := (_, _)).
  destruct (maybeDespawn_motion h layer (integrate L1 (accel L1 w) dt)) as (_ & _ & Ex & Ey & _).
  unfold in_band. rewrite Ex, Ey. apply integrate_band; [exact Hb | apply accel_bound | exact Hdt].
Qed.

(** C3: The speed band is an invariant of motion: a live sprite whose speed is
    in [[speedMin, speedMax]] is still in the band after a physics step with
    [0 <= dt <= 0.05], whatever the random draws. *)
Theorem tick_louse_band h layer dt L src n :
  l_alive L = true -> in_band L -> 0 <= dt <= 0.05 ->
  in_band (fst (rval (tick_louse h layer dt L) src n)).
Proof. exact (tick_louse_band_step h layer dt L src n). Qed.

(** C2: A sprite that is still alive after its physics step lies inside the
    despawn box [[-S-64, W+64] x [-S-64, H+64]] of its layer; and the step
    schedules the removal timer exactly when it turns a live sprite dead. *)
Theorem tick_louse_despawn h layer dt L src n :
  let '(W, H) := measure h layer in
  let '(L', sched) := rval (tick_louse h layer dt L) src n in
  (l_alive L' = true ->
     - CFG.size - 64 <= l_x L' <= W + 64 /\ - CFG.size - 64 <= l_y L' <= H + 64) /\
  (sched = true <-> l_alive L = true /\ l_alive L' = false).
Proof.
  destruct (l_alive L) eqn:Ha.
  - unfold rval at 1. rewrite tick_louse_alive_eq by exact Ha.
    destruct (rval (wanderForce L dt) src n) as [L1 w] eqn:Ew. cbn [fst].
    assert (Ha1 : l_alive L1 = true).
    { unfold rval, wanderForce, rnd in Ew. run_rnd. injection Ew as <- _. exact Ha. }
    pose proof (maybeDespawn_cases h layer (integrate L1 (accel L1 w) dt)) as Hc.
    destruct (measure h layer) as [W H].
    destruct Hc as [[_ ->]|[Ho ->]].
    + simpl. split; [discriminate | tauto].
    + apply outside_false_iff in Ho. split; [intros _; exact Ho|].
      split; [discriminate | intros [_ Hd]].
      unfold integrate in Hd. destruct (clampSpeed _ _). simpl in Hd. congruence.
  - unfold tick_louse, rval. rewrite Ha. simpl.
    destruct (measure h layer) as [W H]. split; [congruence|].
    split; [discriminate | intros [E _]; discriminate].
Qed.

(** A dead sprite is frozen: the step leaves it unchanged, schedules
    nothing and draws no random number. *)
Lemma tick_louse_frozen h layer dt L src n :
  l_alive L = false -> tick_louse h layer dt L src n = ((L, false), n).
Proof. intros Ha. unfold tick_louse. rewrite Ha. reflexivity. Qed.

(** A physics step never changes a sprite's image, element or surface. *)
Lemma tick_louse_keeps h layer dt L src n :
  let L' := fst (rval (tick_louse h layer dt L) src n) in
  l_frame L' = l_frame L /\ l_bg L' = l_bg L /\ l_el L' = l_el L /\ l_surf L' = l_surf L.
Proof.
  destruct (l_alive L) eqn:Ha.
  - unfold rval at 1. rewrite tick_louse_alive_eq by exact Ha.
    unfold wanderForce, rnd. run_rnd. cbn [fst].
    set (L2 := integrate _ _ _).
    pose proof (maybeDespawn_cases h layer L2) as Hc. destruct (measure h layer).
    destruct Hc as [[_ ->]|[_ ->]]; unfold L2, integrate; destruct (clampSpeed _ _); simpl; auto.
  - unfold rval. rewrite tick_louse_frozen by exact Ha. simpl. auto.
Qed.

(** A dead sprite is frozen: the step leaves it unchanged, schedules
    nothing and draws no random number. *)
Theorem tick_louse_dead h layer dt L src n :
  l_alive L = false -> tick_louse h layer dt L src n = ((L, false), n).
Proof. exact (tick_louse_frozen h layer dt L src n). Qed.

(** ** Witnesses *)

(** A live sprite at [(100, 100)] running right at 300 px/s. *)
Definition louse_run : louse := with_route louse0 100 100 454 100 300 0 0 0.

Lemma louse_run_band : in_band louse_run.
Proof. unfold in_band. simpl. rewrite hypot_x0 by lra. cfg. lra. Qed.

Lemma tick_louse_band_witness :
  in_band (fst (rval (tick_louse host0 4 0.02 louse_run) src_half 0%nat)).
Proof.
  apply (tick_louse_band host0 4 0.02 louse_run src_half 0%nat);
    [reflexivity | exact louse_run_band | lra].
Defined.

Lemma tick_louse_dead_witness :
  tick_louse host0 4 0.02 (mark_despawn louse_run) src_half 0%nat =
  ((mark_despawn louse_run, false), 0%nat).
Proof. apply tick_louse_dead. reflexivity. Defined.
