(* ===== verification/Cruise.v ===== *)
(** * Cruising speed: the drawn speed fades within a few frames

    [configureRoute] draws each sprite's initial speed from [CFG.baseSpeed]
    = [[300, 420]] (woodlouse.js line 157).  Each physics step (lines
    266-272) then computes [v * CFG.inertia + a * dt] and clamps its length
    into [[speedMin, speedMax]].  The inertia factor 0.88 is applied once per
    frame, not scaled by [dt], while the acceleration term is at most
    [CFG.accelMax * dt]; so a step takes a speed [s] to at most
    [max(speedMin, 0.88 s + 800 dt)].

    At 60 frames per second or faster ([dt <= 1/60]) the bound drops from
    420 below [speedMin] in four steps, so after four steps every live
    sprite moves at exactly [speedMin], whatever speed it drew: the draw
    only shapes the first 70 ms of a route.  The steps are those of
    [Locomotion.tick_louse], each with its own random draws, so the result
    holds however the draws of the other sprites interleave. *)

From Stdlib Require Import Reals Lra Lia List.
From S2P Require Import Prelude Config Host Route Locomotion.
Import ListNotations.
Local Open Scope R_scope.

(** ** Definitions *)

Definition speed (L : louse) : R := hypot (l_vx L) (l_vy L).

(** Consecutive physics steps of one sprite on layer [layer], each with the
    random source and cursor it finds. *)
Definition ticks (h : host) (layer : nat) (dt : R) (ss : list (Source * nat)) (L : louse) : louse :=
  fold_left (fun L0 '(src, n) => fst (rval (tick_louse h layer dt L0) src n)) ss L.

(** The bound one step puts on the speed. *)
Definition speed_after (dt s : R) : R := Rmax CFG.speedMin (CFG.inertia * s + CFG.accelMax * dt).

(** ** One step *)

Lemma clampSpeed_speed vx vy :
  (vx, vy) <> (0, 0) ->
  hypot (fst (clampSpeed vx vy)) (snd (clampSpeed vx vy)) = clamp (hypot vx vy) CFG.speedMin CFG.speedMax.
Proof.
  intros Hnz. pose proof (hypot_pos vx vy Hnz) as Hp.
  unfold clampSpeed, or_else. destruct (Req_dec_T (hypot vx vy) 0) as [E|_]; [lra|].
  destruct (Req_dec_T (hypot vx vy) (clamp (hypot vx vy) CFG.speedMin CFG.speedMax)) as [E|E];
    simpl; [exact E|].
  assert (Hc : 0 < clamp (hypot vx vy) CFG.speedMin CFG.speedMax).
  { pose proof (clamp_range (hypot vx vy) CFG.speedMin CFG.speedMax) as Hr. cfg. lra. }
  rewrite hypot_scale by (left; apply Rdiv_lt_0_compat; lra). field. lra.
Qed.

Lemma Rmax_mono a x y : x <= y -> Rmax a x <= Rmax a y.
Proof. intros. unfold Rmax. repeat destruct (Rle_dec _ _); lra. Qed.

Lemma clamp_le_max v : clamp v CFG.speedMin CFG.speedMax <= Rmax CFG.speedMin v.
Proof. unfold clamp, Rmax, Rmin. cfg. repeat destruct (Rle_dec _ _); lra. Qed.

Lemma integrate_speed L a dt :
  in_band L -> hypot (fst a) (snd a) <= CFG.accelMax -> 0 <= dt <= 0.05 ->
  speed (integrate L a dt) <= speed_after dt (speed L).
Proof.
  intros Hv Ha Hdt. unfold speed, integrate, speed_after.
  set (vx := l_vx L * CFG.inertia + fst a * dt).
  set (vy := l_vy L * CFG.inertia + snd a * dt).
  assert (Hle : hypot vx vy <= CFG.inertia * hypot (l_vx L) (l_vy L) + CFG.accelMax * dt).
  { unfold vx, vy. eapply Rle_trans; [apply hypot_triangle|].
    rewrite !hypot_scale by (cfg; lra). cfg. nra. }
  pose proof (integrate_band L a dt Hv Ha Hdt) as Hb. unfold in_band, integrate in Hb. fold vx vy in Hb.
  assert (Hnz : (vx, vy) <> (0, 0)).
  { intros E. injection E as Ex Ey. rewrite Ex, Ey, clampSpeed_origin in Hb. simpl in Hb.
    unfold hypot in Hb. rewrite Rmult_0_l, Rplus_0_l, sqrt_0 in Hb. cfg. lra. }
  pose proof (clampSpeed_speed vx vy Hnz) as Hc. destruct (clampSpeed vx vy) as [vx' vy'].
  simpl in Hc |- *. rewrite Hc.
  eapply Rle_trans; [apply clamp_le_max | apply Rmax_mono; lra].
Qed.

Lemma tick_louse_speed h layer dt L src n :
  l_alive L = true -> in_band L -> 0 <= dt <= 0.05 ->
  speed (fst (rval (tick_louse h layer dt L) src n)) <= speed_after dt (speed L).
Proof.
  intros Ha Hb Hdt. unfold rval. rewrite tick_louse_alive_eq by exact Ha. simpl.
  unfold wanderForce, rnd. run_rnd.
  set (L1 := set_wander L _). set (w := (_, _)).
  destruct (maybeDespawn_motion h layer (integrate L1 (accel L1 w) dt)) as (_ & _ & Ex & Ey & _).
  unfold speed at 1. rewrite Ex, Ey. apply (integrate_speed L1); [exact Hb | apply accel_bound | exact Hdt].
Qed.

Lemma speed_after_mono dt s s' : s <= s' -> speed_after dt s <= speed_after dt s'.
Proof. intros H. unfold speed_after. apply Rmax_mono. cfg. nra. Qed.

(** ** Several steps *)

Lemma ticks_speed h layer dt ss L bound :
  0 <= dt <= 0.05 -> (l_alive L = true -> in_band L /\ speed L <= bound) ->
  let L' := ticks h layer dt ss L in
  l_alive L' = true -> in_band L' /\ speed L' <= Nat.iter (List.length ss) (speed_after dt) bound.
Proof.
  intros Hdt. revert L bound. induction ss as [|[src n] ss IH]; intros L bound HL; [exact HL|].
  change (ticks h layer dt ((src, n) :: ss) L) with (ticks h layer dt ss (fst (rval (tick_louse h layer dt L) src n))).
  change (List.length ((src, n) :: ss)) with (S (List.length ss)).
  rewrite Nat.iter_succ_r. apply IH. intros Ha'.
  destruct (l_alive L) eqn:Ha.
  - destruct (HL eq_refl) as [Hb Hs]. split; [apply tick_louse_band_step; assumption|].
    eapply Rle_trans; [apply tick_louse_speed; assumption | apply speed_after_mono, Hs].
  - unfold rval in Ha'. rewrite tick_louse_frozen in Ha' by exact Ha. simpl in Ha'. congruence.
Qed.

(** At 60 frames per second a step bounds a speed of at most [b] by [c]
    when [0.88 b + 800/60 <= c]. *)
Lemma speed_after_le dt s b c :
  0 <= dt <= 1 / 60 -> s <= b -> 0.88 * b + 800 / 60 <= c -> 300 <= c -> speed_after dt s <= c.
Proof.
  intros Hdt Hs Hb Hc. unfold speed_after, Rmax. cfg. destruct (Rle_dec _ _); nra.
Qed.

Lemma iter_speed_after dt k :
  0 <= dt <= 1 / 60 -> (4 <= k)%nat -> Nat.iter k (speed_after dt) 420 <= 300.
Proof.
  intros Hdt Hk. replace k with ((k - 4) + 4)%nat by lia. rewrite Nat.iter_add.
  assert (H4 : Nat.iter 4 (speed_after dt) 420 <= 300).
  { simpl. apply (speed_after_le dt _ 323 300 Hdt); [|lra|lra].
    apply (speed_after_le dt _ 351 323 Hdt); [|lra|lra].
    apply (speed_after_le dt _ 383 351 Hdt); [|lra|lra].
    apply (speed_after_le dt _ 420 383 Hdt); lra. }
  induction (k - 4)%nat as [|j IH]; [exact H4|].
  simpl. apply (speed_after_le dt _ 300 300 Hdt); [exact IH | lra | lra].
Qed.

(** ** Theorem *)

(** C17: At 60 frames per second or faster, four physics steps bring every
    live sprite to exactly [CFG.speedMin], whatever speed it drew from
    [CFG.baseSpeed] and whatever the random draws: the inertia factor is
    applied per frame, so the drawn speed only matters for the first
    frames of a route. *)
Theorem cruise_speed h layer dt ss L :
  l_alive L = true -> in_band L -> 0 <= dt <= 1 / 60 -> (4 <= List.length ss)%nat ->
  l_alive (ticks h layer dt ss L) = false \/ speed (ticks h layer dt ss L) = CFG.speedMin.
Proof.
  intros Ha Hb Hdt Hk.
  destruct (l_alive (ticks h layer dt ss L)) eqn:Ha'; [right|left; reflexivity].
  assert (Hs : l_alive L = true -> in_band L /\ speed L <= 420) by (intros _; split; [exact Hb | apply Hb]).
  destruct (ticks_speed h layer dt ss L 420 ltac:(lra) Hs Ha') as [Hb' Hs'].
  pose proof (iter_speed_after dt _ Hdt Hk). unfold in_band, speed in *. cfg. lra.
Qed.

(** ** Witness *)

Lemma cruise_speed_witness :
  let ss := [(src_half, 0%nat); (src_half, 1%nat); (src_half, 2%nat); (src_half, 3%nat)] in
  l_alive (ticks host0 4 (1 / 60) ss louse_run) = false \/
  speed (ticks host0 4 (1 / 60) ss louse_run) = CFG.speedMin.
Proof.
  apply (cruise_speed host0 4 (1 / 60) _ louse_run); [reflexivity | | lra | simpl; lia].
  exact louse_run_band.
Defined.
