(* ===== verification/Registry.v ===== *)
(** * Surface Registry: [surfaces] and [ensureLayersOnVisiblePages]

    The module-level [Map] [surfaces] (woodlouse.js line 34) sends each page
    element that has ever been visible to [{ layer, lice }]: the overlay
    [div.woodlouse-layer] created for it and the [Set] of its sprites.  It is
    modelled as an ordered association list ([AMap], insertion order, as a
    [Map] iterates), the layer as a record of its DOM state, and the [Set] as
    a list in insertion order.

    The world [world] is all of the program's mutable state that the
    spawning and physics code touch: the map, the counter that hands out
    fresh nodes for [document.createElement], the cursor of [Math.random],
    and the removal timers scheduled by [maybeDespawn] (pending
    [setTimeout] callbacks, with their due time).

    [ensureLayersOnVisiblePages] (lines 66-94) gives each visible page a
    layer (created on first sight, re-appended if Turn.js moved it, its
    [inset] re-asserted) and never removes anything.  The theorems: after it,
    every visible page has a layer attached to it with [inset = "0"]; it
    keeps every surface and every sprite; and calling it twice is the same as
    calling it once. *)

From Stdlib Require Import Reals Lra Lia List String.
From S2P Require Import Prelude Config Host Visibility Route.
Import ListNotations.
Local Open Scope R_scope.

(** ** State *)

(** The overlay [div] and the styles the code writes on it. *)
Record layer := mkLayer {
  ly_node : nat;              (** the element *)
  ly_parent : option nat;     (** [layer.parentElement] *)
  ly_className : string;
  ly_position : string;
  ly_inset : string;
  ly_pointerEvents : string;
  ly_overflow : string;
  ly_zIndex : string
}.

(** [{ layer, lice: new Set() }] *)
Record surface_info := mkInfo {
  si_layer : layer;
  si_lice : list louse
}.

(** A pending [setTimeout(() => { L.el.remove(); L.surfaceInfo.lice.delete(L); }, 160)]:
    due time, surface key, sprite. *)
Record removal := mkRemoval {
  rm_due : R;
  rm_surf : nat;
  rm_el : nat
}.

Record world := mkWorld {
  w_surfaces : list (nat * surface_info);
  w_next : nat;            (** next node id [document.createElement] returns *)
  w_rng : nat;             (** calls of [Math.random] made so far *)
  w_removals : list removal
}.

Definition set_surfaces (w : world) (m : list (nat * surface_info)) : world :=
  {| w_surfaces := m; w_next := w_next w; w_rng := w_rng w; w_removals := w_removals w |}.

(** ** [ensureLayersOnVisiblePages] *)

(** Lines 73-81: the new layer, appended to the page [el]. *)
Definition new_layer (node el : nat) : layer :=
  {| ly_node := node; ly_parent := Some el;
     ly_className := "woodlouse-layer"; ly_position := "absolute"; ly_inset := "0";
     ly_pointerEvents := "none"; ly_overflow := "hidden"; ly_zIndex := "9" |}.

(** [info.layer.parentElement !== el] *)
Definition detached_from (ly : layer) (el : nat) : bool :=
  match ly_parent ly with Some p => negb (Nat.eqb p el) | None => true end.

(** Lines 85-87: re-append the layer to its page when it has moved, and
    set [inset] to ["0"]. *)
Definition reattach (el : nat) (ly : layer) : layer :=
  {| ly_node := ly_node ly;
     ly_parent := if detached_from ly el then Some el else ly_parent ly;
     ly_className := ly_className ly; ly_position := ly_position ly; ly_inset := "0";
     ly_pointerEvents := ly_pointerEvents ly; ly_overflow := ly_overflow ly;
     ly_zIndex := ly_zIndex ly |}.

(** The callback of [vis.forEach] (lines 70-89) for one page. *)
Definition ensure_one (w : world) (el : nat) : world :=
  match AMap.get el (w_surfaces w) with
  | None =>
      {| w_surfaces := AMap.set el {| si_layer := new_layer (w_next w) el; si_lice := [] |}
                                (w_surfaces w);
         w_next := S (w_next w); w_rng := w_rng w; w_removals := w_removals w |}
  | Some info =>
      set_surfaces w (AMap.set el {| si_layer := reattach el (si_layer info);
                                     si_lice := si_lice info |} (w_surfaces w))
  end.

(** [ensureLayersOnVisiblePages()]: the new world and the visible pages. *)
Definition ensureLayersOnVisiblePages (h : host) (w : world) : world * list nat :=
  let vis := getVisiblePages h in
  (fold_left ensure_one vis w, vis).

(** ** Lemmas *)

(** The page [el] has a surface whose layer is its child with [inset = "0"]. *)
Definition settled (w : world) (el : nat) : Prop :=
  exists info, AMap.get el (w_surfaces w) = Some info /\
    ly_parent (si_layer info) = Some el /\ ly_inset (si_layer info) = "0"%string.

(** Every surface of [w] is still there in [w'] with the same sprites. *)
Definition keeps (w w' : world) : Prop :=
  forall el info, AMap.get el (w_surfaces w) = Some info ->
  exists info', AMap.get el (w_surfaces w') = Some info' /\ si_lice info' = si_lice info.

Lemma keeps_refl w : keeps w w.
Proof. intros el info H. exists info. auto. Qed.

Lemma keeps_trans w1 w2 w3 : keeps w1 w2 -> keeps w2 w3 -> keeps w1 w3.
Proof.
  intros H12 H23 el info H. destruct (H12 el info H) as [i2 [H2 E2]].
  destruct (H23 el i2 H2) as [i3 [H3 E3]]. exists i3. split; congruence.
Qed.

Lemma reattach_parent el ly : ly_parent (reattach el ly) = Some el.
Proof.
  unfold reattach, detached_from; simpl. destruct (ly_parent ly) as [p|]; [|reflexivity].
  destruct (Nat.eqb_spec p el); simpl; congruence.
Qed.

Lemma reattach_settled el ly :
  ly_parent ly = Some el -> ly_inset ly = "0"%string -> reattach el ly = ly.
Proof.
  destruct ly; simpl. intros -> ->. unfold reattach, detached_from; simpl.
  rewrite Nat.eqb_refl. reflexivity.
Qed.

Lemma ensure_one_settles w el : settled (ensure_one w el) el.
Proof.
  unfold ensure_one, settled. destruct (AMap.get el (w_surfaces w)) as [info|];
    simpl; rewrite AMap.get_set_eq; eexists; (split; [reflexivity|]); simpl; auto.
  split; [apply reattach_parent | reflexivity].
Qed.

Lemma ensure_one_other w el k : k <> el ->
  AMap.get k (w_surfaces (ensure_one w el)) = AMap.get k (w_surfaces w).
Proof.
  intros Hne. unfold ensure_one. destruct (AMap.get el _); simpl; apply AMap.get_set_ne, Hne.
Qed.

Lemma ensure_one_keeps w el : keeps w (ensure_one w el).
Proof.
  intros k info Hk. destruct (Nat.eq_dec k el) as [->|Hne].
  - unfold ensure_one. rewrite Hk. simpl. rewrite AMap.get_set_eq. eauto.
  - rewrite ensure_one_other by exact Hne. eauto.
Qed.

Lemma ensure_one_settled_other w el k : settled w k -> settled (ensure_one w el) k.
Proof.
  destruct (Nat.eq_dec k el) as [->|Hne]; [intros; apply ensure_one_settles|].
  unfold settled. rewrite ensure_one_other by exact Hne. auto.
Qed.

Lemma ensure_one_id w el : settled w el -> ensure_one w el = w.
Proof.
  intros [info [Hg [Hp Hi]]]. unfold ensure_one. rewrite Hg.
  rewrite reattach_settled by assumption. destruct info as [ly lice]. simpl.
  rewrite AMap.set_id by exact Hg. destruct w. reflexivity.
Qed.

Lemma ensure_one_NoDup w el :
  NoDup (AMap.keys (w_surfaces w)) -> NoDup (AMap.keys (w_surfaces (ensure_one w el))).
Proof. unfold ensure_one. destruct (AMap.get el _); apply AMap.set_NoDup. Qed.

Lemma fold_ensure_settles l w el :
  In el l \/ settled w el -> settled (fold_left ensure_one l w) el.
Proof.
  revert w. induction l as [|b l IH]; simpl; intros w H.
  - destruct H as [[]|H]; exact H.
  - apply IH. destruct (Nat.eq_dec b el) as [->|Hne].
    + right. apply ensure_one_settles.
    + destruct H as [[->|H]|H]; [congruence | left; exact H | right].
      apply ensure_one_settled_other, H.
Qed.

(** ** Theorems *)

(** C27: After [ensureLayersOnVisiblePages], every visible page has a
    surface whose layer is attached to that page with [inset = "0"], every
    surface registered before is still registered with the same sprites, and
    the map keys stay distinct. *)
Theorem ensure_spec h w :
  NoDup (AMap.keys (w_surfaces w)) ->
  let '(w', vis) := ensureLayersOnVisiblePages h w in
  (forall el, In el vis -> settled w' el) /\ keeps w w' /\ NoDup (AMap.keys (w_surfaces w')).
Proof.
  intros Hnd. unfold ensureLayersOnVisiblePages. split; [|split].
  - intros el Hin. apply fold_ensure_settles. left. exact Hin.
  - apply fold_left_preserve; [|apply keeps_refl].
    intros a b _ Ha. eapply keeps_trans; [exact Ha | apply ensure_one_keeps].
  - apply fold_left_preserve; [intros a b _; apply ensure_one_NoDup | exact Hnd].
Qed.

(** C26: [ensureLayersOnVisiblePages] is idempotent: called again with the
    page unchanged, it creates no layer and changes nothing. *)
Theorem ensure_idempotent h w :
  fst (ensureLayersOnVisiblePages h (fst (ensureLayersOnVisiblePages h w))) =
  fst (ensureLayersOnVisiblePages h w).
Proof.
  unfold ensureLayersOnVisiblePages. simpl. apply fold_left_id.
  intros b Hb. apply ensure_one_id, fold_ensure_settles. left. exact Hb.
Qed.

(** ** Witnesses *)

(** The registry before anything was seen; created nodes are numbered from 10. *)
Definition world0 : world :=
  {| w_surfaces := []; w_next := 10; w_rng := 0; w_removals := [] |}.

Lemma ensure_spec_witness :
  let '(w', vis) := ensureLayersOnVisiblePages host0 world0 in
  (forall el, In el vis -> settled w' el) /\ keeps world0 w' /\ NoDup (AMap.keys (w_surfaces w')).
Proof. apply (ensure_spec host0 world0). constructor. Defined.
