(* ===== verification/Lifecycle.v ===== *)
(** * Lifecycle Manager: spawning, the whole physics tick, and removal

    [spawnOneOn] (woodlouse.js lines 165-177) adds one sprite to a surface
    unless the surface is full ([lice.size >= CFG.activeMaxPerSurface]) or
    its layer measures under 30 px; [spawnBurst] (lines 179-198) refreshes
    the surfaces, shuffles the visible pages and makes up to two passes over
    them to place [CFG.burstSize] sprites.  [tick] (lines 250-285) runs the
    physics step of [Locomotion] on every surface in map order, and each
    sprite [maybeDespawn] kills gets a removal timer that later deletes it
    from its surface's [Set] (line 240).

    All of these are functions of the world of [Registry] and of the random
    source [src].  The step relation [lstep] lets them happen in any order,
    together with the host's own changes to the page (Turn.js re-parenting a
    layer or resetting its style), and the theorems hold of every world
    reachable from the empty one: no surface ever holds more than
    [CFG.activeMaxPerSurface] sprites, and every live sprite moves at a speed
    in [[speedMin, speedMax]]. *)

From Stdlib Require Import Reals Lra Lia List String.
From S2P Require Import Prelude Config Host Visibility Route Locomotion Registry.
Import ListNotations.
Local Open Scope R_scope.

Section Lifecycle.

(** The results of [Math.random()]. *)
Variable src : Source.

(** ** Spawning *)

(** [spawnOneOn(surfaceEl)]: the new world and the sprite, if one was made. *)
Definition spawnOneOn (h : host) (w : world) (el : nat) : world * option louse :=
  match AMap.get el (w_surfaces w) with
  | None => (w, None)
  | Some info =>
      if Nat.leb CFG.activeMaxPerSurface (List.length (si_lice info)) then (w, None) else
      let '(W, H) := measure h (ly_node (si_layer info)) in
      if Rlt_dec W 30 then (w, None) else
      if Rlt_dec H 30 then (w, None) else
      let '(L, n1) := makeLouse el (w_next w) src (w_rng w) in
      let '(L', n2) := configureRoute L W H src n1 in
      ({| w_surfaces := AMap.set el {| si_layer := si_layer info;
                                       si_lice := si_lice info ++ [L'] |} (w_surfaces w);
          w_next := S (w_next w); w_rng := n2; w_removals := w_removals w |},
       Some L')
  end.

(** One [for (const el of shuffled)] loop of [spawnBurst]: the world and
    the number of sprites still to place. *)
Fixpoint spawn_pass (h : host) (l : list nat) (remaining : nat) (w : world) : world * nat :=
  match l with
  | [] => (w, remaining)
  | el :: l' =>
      if Nat.leb remaining 0 then (w, remaining) else
      let '(w1, r) := spawnOneOn h w el in
      spawn_pass h l' (match r with Some _ => remaining - 1 | None => remaining end)%nat w1
  end.

(** [vis.slice().sort(() => Math.random() - 0.5)] on the at most two visible
    pages.  With two elements the engine calls the comparator once, as
    [cmp(second, first)] (V8's binary insertion sort), and puts the second
    first when the result is negative; with fewer there is no call.  Longer
    lists never occur ([getVisiblePages_spec]) and are left unchanged. *)
Definition shuffle (vis : list nat) : Rnd (list nat) :=
  match vis with
  | [a; b] => fun s n => (if Rlt_dec (s n - 0.5) 0 then [b; a] else [a; b], S n)
  | _ => rret vis
  end.

Definition set_rng (w : world) (n : nat) : world :=
  {| w_surfaces := w_surfaces w; w_next := w_next w; w_rng := n; w_removals := w_removals w |}.

(** [spawnBurst()] *)
Definition spawnBurst (h : host) (w : world) : world :=
  let '(w1, vis) := ensureLayersOnVisiblePages h w in
  match vis with
  | [] => w1
  | _ =>
      let '(shuffled, n) := shuffle vis src (w_rng w1) in
      let '(w2, remaining) := spawn_pass h shuffled CFG.burstSize (set_rng w1 n) in
      if Nat.ltb 0 remaining then fst (spawn_pass h shuffled remaining w2) else w2
  end.

(** ** The physics tick *)

(** [surfaces.forEach(...)] in [tick(dt)]: every surface in map order, the
    removal timers set at time [now] with their 160 ms delay. *)
Fixpoint tick_surfaces (h : host) (dt now : R) (m : list (nat * surface_info)) (n : nat)
  : list (nat * surface_info) * list removal * nat :=
  match m with
  | [] => ([], [], n)
  | (k, info) :: m' =>
      let '((lice', ds), n1) := tick_surface h (ly_node (si_layer info)) dt (si_lice info) src n in
      let '(m'', rs, n2) := tick_surfaces h dt now m' n1 in
      ((k, {| si_layer := si_layer info; si_lice := lice' |}) :: m'',
       map (fun e => {| rm_due := now + 160; rm_surf := k; rm_el := e |}) ds ++ rs, n2)
  end.

(** [tick(dt)] at time [now]. *)
Definition tick (h : host) (dt now : R) (w : world) : world :=
  let '(m, rs, n) := tick_surfaces h dt now (w_surfaces w) (w_rng w) in
  {| w_surfaces := m; w_next := w_next w; w_rng := n; w_removals := w_removals w ++ rs |}.

(** ** Removal *)

(** The timer callback of line 240: [L.el.remove(); L.surfaceInfo.lice.delete(L)]. *)
Definition remove_louse (r : removal) (w : world) : world :=
  match AMap.get (rm_surf r) (w_surfaces w) with
  | None => w
  | Some info =>
      set_surfaces w (AMap.set (rm_surf r)
        {| si_layer := si_layer info;
           si_lice := filter (fun L => negb (Nat.eqb (l_el L) (rm_el r))) (si_lice info) |}
        (w_surfaces w))
  end.

(** The first pending timer fires. *)
Definition fire (w : world) : world :=
  match w_removals w with
  | [] => w
  | r :: rs => remove_louse r {| w_surfaces := w_surfaces w; w_next := w_next w;
                                 w_rng := w_rng w; w_removals := rs |}
  end.

(** The host replaces the layer of surface [el] (Turn.js re-parenting the
    page's children, or a style reset); the sprites are untouched. *)
Definition host_reset (el : nat) (ly : layer) (w : world) : world :=
  match AMap.get el (w_surfaces w) with
  | None => w
  | Some info => set_surfaces w (AMap.set el {| si_layer := ly; si_lice := si_lice info |}
                                            (w_surfaces w))
  end.

(** ** The step relation *)

(** Everything that can happen to the world, in any order and under any
    host snapshot: a refresh (resize, [turned], the polling fallback), a
    burst (the first one after 600 ms, then every [CFG.burstEveryMs]), a
    physics tick with the [dt] that [loop] computes (at most 0.05 s), a
    removal timer, or a change the host makes to a layer. *)
Inductive lstep : world -> world -> Prop :=
  | ls_ensure h w : lstep w (fst (ensureLayersOnVisiblePages h w))
  | ls_burst h w : lstep w (spawnBurst h w)
  | ls_tick h dt now w : 0 <= dt <= 0.05 -> lstep w (tick h dt now w)
  | ls_fire w : lstep w (fire w)
  | ls_host el ly w : lstep w (host_reset el ly w).

Inductive reachable : world -> Prop :=
  | reach_init n : reachable {| w_surfaces := []; w_next := n; w_rng := 0; w_removals := [] |}
  | reach_step w w' : reachable w -> lstep w w' -> reachable w'.

(** ** Invariants *)

(** Every surface holds at most [CFG.activeMaxPerSurface] sprites. *)
Definition cap_ok (w : world) : Prop :=
  forall k info, AMap.get k (w_surfaces w) = Some info ->
  (List.length (si_lice info) <= CFG.activeMaxPerSurface)%nat.

(** Every sprite of every surface satisfies [P]. *)
Definition all_lice (P : louse -> Prop) (w : world) : Prop :=
  forall k info, AMap.get k (w_surfaces w) = Some info -> Forall P (si_lice info).

(** Each surface of [w'] is new and empty, or was in [w] with its sprites
    related by [Rl]. *)
Definition lice_from (Rl : list louse -> list louse -> Prop) (w w' : world) : Prop :=
  forall k info', AMap.get k (w_surfaces w') = Some info' ->
  si_lice info' = [] \/
  exists info, AMap.get k (w_surfaces w) = Some info /\ Rl (si_lice info) (si_lice info').

Lemma lice_from_cap Rl w w' :
  (forall l l', Rl l l' -> (List.length l <= CFG.activeMaxPerSurface)%nat ->
     (List.length l' <= CFG.activeMaxPerSurface)%nat) ->
  lice_from Rl w w' -> cap_ok w -> cap_ok w'.
Proof.
  intros HR Hf Hc k info' Hk. destruct (Hf k info' Hk) as [->|[info [Hi HRl]]].
  - simpl. unfold CFG.activeMaxPerSurface. lia.
  - exact (HR _ _ HRl (Hc k info Hi)).
Qed.

Lemma lice_from_all P Rl w w' :
  (forall l l', Rl l l' -> Forall P l -> Forall P l') ->
  lice_from Rl w w' -> all_lice P w -> all_lice P w'.
Proof.
  intros HR Hf Ha k info' Hk. destruct (Hf k info' Hk) as [->|[info [Hi HRl]]].
  - constructor.
  - exact (HR _ _ HRl (Ha k info Hi)).
Qed.

(** Replacing the entry of a present key by one whose sprites are related. *)
Lemma lice_from_set (Rl : list louse -> list louse -> Prop) w el info info' :
  (forall l, Rl l l) ->
  AMap.get el (w_surfaces w) = Some info -> Rl (si_lice info) (si_lice info') ->
  lice_from Rl w (set_surfaces w (AMap.set el info' (w_surfaces w))).
Proof.
  intros Hrefl Hg HR k i Hk. simpl in Hk. right.
  destruct (Nat.eq_dec k el) as [->|Hne].
  - rewrite AMap.get_set_eq in Hk. injection Hk as <-. eauto.
  - rewrite AMap.get_set_ne in Hk by exact Hne. eauto.
Qed.

Lemma lice_from_refl Rl w : (forall l, Rl l l) -> lice_from Rl w w.
Proof. intros Hr k i Hk. right. eauto. Qed.

Lemma ensure_one_lice_from w el : lice_from eq w (ensure_one w el).
Proof.
  unfold ensure_one. destruct (AMap.get el (w_surfaces w)) as [info|] eqn:Hg.
  - eapply lice_from_set; [auto | exact Hg | simpl; auto].
  - intros k i Hk. simpl in Hk. destruct (Nat.eq_dec k el) as [->|Hne].
    + rewrite AMap.get_set_eq in Hk. injection Hk as <-. left. reflexivity.
    + rewrite AMap.get_set_ne in Hk by exact Hne. right. eauto.
Qed.

(** A removal deletes the sprites of one element from one list. *)
Definition rm_rel (l l' : list louse) : Prop :=
  l' = l \/ exists e, l' = filter (fun L => negb (Nat.eqb (l_el L) e)) l.

Lemma fire_lice_from w : lice_from rm_rel w (fire w).
Proof.
  assert (Hrefl : forall l, rm_rel l l) by (left; reflexivity).
  unfold fire. destruct (w_removals w) as [|r rs]; [apply lice_from_refl, Hrefl|].
  unfold remove_louse. simpl. destruct (AMap.get (rm_surf r) (w_surfaces w)) eqn:Hg.
  - intros k i Hk. simpl in Hk. right. destruct (Nat.eq_dec k (rm_surf r)) as [->|Hne].
    + rewrite AMap.get_set_eq in Hk. injection Hk as <-. exists s. split; [exact Hg|].
      right. eexists. reflexivity.
    + rewrite AMap.get_set_ne in Hk by exact Hne. eauto.
  - intros k i Hk. right. eauto.
Qed.

Lemma host_reset_lice_from el ly w : lice_from eq w (host_reset el ly w).
Proof.
  unfold host_reset. destruct (AMap.get el (w_surfaces w)) eqn:Hg.
  - eapply lice_from_set; [auto | exact Hg | simpl; auto].
  - apply lice_from_refl. auto.
Qed.

(** ** The tick, sprite by sprite *)

(** [L'] is [L] after one physics step on some layer and cursor, or [L]
    itself (its surface was skipped). *)
Definition tick_rel (h : host) (dt : R) (L L' : louse) : Prop :=
  L' = L \/ exists layer m, L' = fst (rval (tick_louse h layer dt L) src m).

Lemma tick_lice_rel h layer dt lice n :
  Forall2 (tick_rel h dt) lice (fst (rval (tick_lice h layer dt lice) src n)).
Proof.
  revert n. induction lice as [|L lice IH]; intros n; [constructor|].
  unfold rval. simpl tick_lice. unfold rbind.
  destruct (tick_louse h layer dt L src n) as [[L' b] n1] eqn:E.
  specialize (IH n1). unfold rval in IH.
  destruct (tick_lice h layer dt lice src n1) as [[rest ds] n2]. simpl in *.
  constructor; [|exact IH]. right. exists layer, n. unfold rval. rewrite E. reflexivity.
Qed.

Lemma tick_surface_rel h layer dt lice n :
  Forall2 (tick_rel h dt) lice (fst (rval (tick_surface h layer dt lice) src n)).
Proof.
  unfold tick_surface. destruct (measure h layer) as [W H].
  case_ifs; try apply tick_lice_rel; apply Forall2_refl_on; left; reflexivity.
Qed.

Lemma tick_surfaces_get h dt now m n k info' :
  AMap.get k (fst (fst (tick_surfaces h dt now m n))) = Some info' ->
  exists info, AMap.get k m = Some info /\
    Forall2 (tick_rel h dt) (si_lice info) (si_lice info').
Proof.
  revert n. induction m as [|[k0 info0] m IH]; intros n; simpl; [discriminate|].
  pose proof (tick_surface_rel h (ly_node (si_layer info0)) dt (si_lice info0) n) as Hr.
  unfold rval in Hr.
  destruct (tick_surface h (ly_node (si_layer info0)) dt (si_lice info0) src n)
    as [[lice' ds] n1].
  specialize (IH n1).
  destruct (tick_surfaces h dt now m n1) as [[m'' rs] n2]. simpl in *.
  destruct (Nat.eq_dec k k0) as [->|Hne]; [|exact IH].
  injection 1 as <-. exists info0. split; [reflexivity | exact Hr].
Qed.

Lemma tick_lice_from h dt now w : lice_from (Forall2 (tick_rel h dt)) w (tick h dt now w).
Proof.
  intros k info' Hk. right. unfold tick in Hk.
  pose proof (tick_surfaces_get h dt now (w_surfaces w) (w_rng w) k info') as Hg.
  destruct (tick_surfaces h dt now (w_surfaces w) (w_rng w)) as [[m rs] n].
  exact (Hg Hk).
Qed.

(** ** Spawning, surface by surface *)

(** The sprite lists [spawnOneOn] can leave behind: the old one, or the old
    one with a freshly routed sprite appended to a surface that had room. *)
Definition spawn_rel (l l' : list louse) : Prop :=
  l' = l \/
  ((List.length l < CFG.activeMaxPerSurface)%nat /\
   exists surf el n0 W H,
     l' = l ++ [rval (configureRoute (rval (makeLouse surf el) src n0) W H) src
                     (rcur (makeLouse surf el) src n0)]).

Lemma spawnOneOn_lice_from h w el : lice_from spawn_rel w (fst (spawnOneOn h w el)).
Proof.
  assert (Hrefl : forall l, spawn_rel l l) by (left; reflexivity).
  unfold spawnOneOn. destruct (AMap.get el (w_surfaces w)) as [info|] eqn:Hg;
    [|apply lice_from_refl, Hrefl].
  destruct (Nat.leb_spec CFG.activeMaxPerSurface (List.length (si_lice info))) as [Hf|Hf];
    [apply lice_from_refl, Hrefl|].
  destruct (measure h (ly_node (si_layer info))) as [W H].
  destruct (Rlt_dec W 30); [apply lice_from_refl, Hrefl|].
  destruct (Rlt_dec H 30); [apply lice_from_refl, Hrefl|].
  destruct (makeLouse el (w_next w) src (w_rng w)) as [L n1] eqn:Em.
  destruct (configureRoute L W H src n1) as [L' n2] eqn:Ec.
  intros k i Hk. simpl in Hk. right. destruct (Nat.eq_dec k el) as [->|Hne].
  - rewrite AMap.get_set_eq in Hk. injection Hk as <-. exists info. split; [exact Hg|].
    right. split; [exact Hf|]. exists el, (w_next w), (w_rng w), W, H. simpl.
    unfold rval, rcur. rewrite Em. simpl. rewrite Ec. reflexivity.
  - rewrite AMap.get_set_ne in Hk by exact Hne. exists i. split; [exact Hk | apply Hrefl].
Qed.

(** ** The guards of [spawnOneOn] *)

(** C29: [spawnOneOn] on a surface that already holds
    [CFG.activeMaxPerSurface] sprites makes no sprite, draws no random number
    and changes nothing.  The count is [lice.size], so sprites already dead
    and only waiting for their removal timer still fill the surface. *)
Theorem spawnOneOn_full h w el info :
  AMap.get el (w_surfaces w) = Some info ->
  (CFG.activeMaxPerSurface <= List.length (si_lice info))%nat ->
  spawnOneOn h w el = (w, None).
Proof.
  intros Hg Hf. unfold spawnOneOn. rewrite Hg.
  destruct (Nat.leb_spec CFG.activeMaxPerSurface (List.length (si_lice info))); [reflexivity | lia].
Qed.

(** An unregistered page, or a layer under 30 px either way, gets no sprite. *)
Lemma spawnOneOn_skips h w el :
  (AMap.get el (w_surfaces w) = None \/
   exists info, AMap.get el (w_surfaces w) = Some info /\
     (fst (measure h (ly_node (si_layer info))) < 30 \/ snd (measure h (ly_node (si_layer info))) < 30)) ->
  spawnOneOn h w el = (w, None).
Proof.
  unfold spawnOneOn. intros [->|[info [Hg Hs]]]; [reflexivity|]. rewrite Hg.
  destruct (Nat.leb _ _); [reflexivity|].
  destruct (measure h (ly_node (si_layer info))) as [W H]. simpl in Hs.
  destruct (Rlt_dec W 30); [reflexivity|]. destruct (Rlt_dec H 30); [reflexivity | lra].
Qed.

(** ** Preservation over whole operations *)

Section Preserve.
Variable I : world -> Prop.
Hypothesis I_ensure : forall w el, I w -> I (ensure_one w el).
Hypothesis I_rng : forall w n, I w -> I (set_rng w n).
Hypothesis I_spawn : forall h w el, I w -> I (fst (spawnOneOn h w el)).

Lemma spawn_pass_preserve h l r w : I w -> I (fst (spawn_pass h l r w)).
Proof.
  revert r w. induction l as [|el l IH]; intros r w Hw; simpl; [exact Hw|].
  destruct (Nat.leb r 0); [exact Hw|].
  pose proof (I_spawn h w el Hw) as H1.
  destruct (spawnOneOn h w el) as [w1 o]. apply IH, H1.
Qed.

Lemma ensure_preserve h w : I w -> I (fst (ensureLayersOnVisiblePages h w)).
Proof.
  intros Hw. unfold ensureLayersOnVisiblePages. simpl.
  apply fold_left_preserve; [intros; apply I_ensure; assumption | exact Hw].
Qed.

Lemma spawnBurst_preserve h w : I w -> I (spawnBurst h w).
Proof.
  intros Hw. pose proof (ensure_preserve h w Hw) as H1. unfold spawnBurst.
  destruct (ensureLayersOnVisiblePages h w) as [w1 vis]. simpl in H1.
  destruct vis as [|a vis]; [exact H1|].
  destruct (shuffle (a :: vis) src (w_rng w1)) as [sh n].
  pose proof (spawn_pass_preserve h sh CFG.burstSize _ (I_rng w1 n H1)) as H2.
  destruct (spawn_pass h sh CFG.burstSize (set_rng w1 n)) as [w2 r].
  destruct (Nat.ltb 0 r); [apply spawn_pass_preserve|]; exact H2.
Qed.

Hypothesis I_tick : forall h dt now w, 0 <= dt <= 0.05 -> I w -> I (tick h dt now w).
Hypothesis I_fire : forall w, I w -> I (fire w).
Hypothesis I_host : forall el ly w, I w -> I (host_reset el ly w).

Lemma lstep_preserve w w' : lstep w w' -> I w -> I w'.
Proof.
  destruct 1; intros Hw.
  - apply ensure_preserve, Hw.
  - apply spawnBurst_preserve, Hw.
  - apply I_tick; assumption.
  - apply I_fire, Hw.
  - apply I_host, Hw.
Qed.

End Preserve.

Lemma set_rng_lice_from w n : lice_from eq w (set_rng w n).
Proof. intros k i Hk. right. exists i. auto. Qed.

(** The invariants hold of the empty registry. *)
Lemma cap_ok_init n : cap_ok {| w_surfaces := []; w_next := n; w_rng := 0; w_removals := [] |}.
Proof. intros k i H. discriminate. Qed.

Lemma all_lice_init P n :
  all_lice P {| w_surfaces := []; w_next := n; w_rng := 0; w_removals := [] |}.
Proof. intros k i H. discriminate. Qed.

(** ** Theorems *)

(** Every step of the world keeps the capacity invariant. *)
Lemma lstep_cap_ok w w' : lstep w w' -> cap_ok w -> cap_ok w'.
Proof.
  apply lstep_preserve.
  - intros w0 el. apply (lice_from_cap eq w0); [intros ? ? ->; auto | apply ensure_one_lice_from].
  - intros w0 n. apply (lice_from_cap eq w0); [intros ? ? ->; auto | apply set_rng_lice_from].
  - intros h w0 el. apply (lice_from_cap spawn_rel w0); [|apply spawnOneOn_lice_from].
    intros l l' [->|[Hlt [surf [e [n0 [W [H ->]]]]]]] Hl; [exact Hl|].
    rewrite length_app. simpl. lia.
  - intros h dt now w0 _. apply (lice_from_cap (Forall2 (tick_rel h dt)) w0); [|apply tick_lice_from].
    intros l l' H2. rewrite <- (Forall2_length H2). auto.
  - intros w0. apply (lice_from_cap rm_rel w0); [|apply fire_lice_from].
    intros l l' [->|[e ->]] Hl; [exact Hl|]. pose proof (filter_length_le (fun L => negb (Nat.eqb (l_el L) e)) l). lia.
  - intros el ly w0. apply (lice_from_cap eq w0); [intros ? ? ->; auto | apply host_reset_lice_from].
Qed.

(** C1: In every reachable world, whatever the order of refreshes, bursts,
    ticks, removal timers and host changes, no surface holds more than
    [CFG.activeMaxPerSurface] sprites. *)
Theorem reachable_cap_ok w : reachable w -> cap_ok w.
Proof.
  induction 1 as [n|w w' _ IH Hs]; [apply cap_ok_init | exact (lstep_cap_ok w w' Hs IH)].
Qed.

(** A live sprite moves at a speed in the band. *)
Definition live_in_band (L : louse) : Prop := l_alive L = true -> in_band L.

Lemma tick_rel_band h dt L L' :
  0 <= dt <= 0.05 -> tick_rel h dt L L' -> live_in_band L -> live_in_band L'.
Proof.
  intros Hdt [->|[layer [m ->]]] HL; [exact HL|].
  destruct (l_alive L) eqn:Ha.
  - intros _. apply tick_louse_band_step; [exact Ha | apply HL, Ha | exact Hdt].
  - unfold rval. rewrite tick_louse_frozen by exact Ha. exact HL.
Qed.

Lemma configureRoute_band L W H n :
  valid_source src -> in_band (rval (configureRoute L W H) src n).
Proof.
  intros Hs. destruct (configureRoute_velocity_spec L W H src n Hs) as [spd [Hb [_ [_ E]]]].
  unfold in_band. rewrite E. cfg. exact Hb.
Qed.

(** A property of single sprites that every freshly routed sprite has and
    that a physics step keeps holds of every sprite after any step. *)
Lemma lstep_all_lice (P : louse -> Prop) w w' :
  (forall surf el n0 W H,
     P (rval (configureRoute (rval (makeLouse surf el) src n0) W H) src
             (rcur (makeLouse surf el) src n0))) ->
  (forall h dt L L', 0 <= dt <= 0.05 -> tick_rel h dt L L' -> P L -> P L') ->
  lstep w w' -> all_lice P w -> all_lice P w'.
Proof.
  intros Hnew Htick. apply lstep_preserve.
  - intros w0 el. apply (lice_from_all _ eq w0); [intros ? ? -> ?; auto | apply ensure_one_lice_from].
  - intros w0 n. apply (lice_from_all _ eq w0); [intros ? ? -> ?; auto | apply set_rng_lice_from].
  - intros h w0 el. apply (lice_from_all _ spawn_rel w0); [|apply spawnOneOn_lice_from].
    intros l l' [->|[_ [surf [e [n0 [W [H ->]]]]]]] Hl; [exact Hl|].
    apply Forall_app. split; [exact Hl|]. constructor; [apply Hnew | constructor].
  - intros h dt now w0 Hdt. apply (lice_from_all _ (Forall2 (tick_rel h dt)) w0); [|apply tick_lice_from].
    intros l l' H2. apply (Forall2_Forall _ _ _ _ (fun x y Hxy => Htick h dt x y Hdt Hxy)), H2.
  - intros w0. apply (lice_from_all _ rm_rel w0); [|apply fire_lice_from].
    intros l l' [->|[e ->]] Hl; [exact Hl | apply Forall_filter_sub, Hl].
  - intros el ly w0. apply (lice_from_all _ eq w0); [intros ? ? -> ?; auto | apply host_reset_lice_from].
Qed.

(** Every step of the world keeps live sprites in the speed band. *)
Lemma lstep_band w w' :
  valid_source src -> lstep w w' -> all_lice live_in_band w -> all_lice live_in_band w'.
Proof.
  intros Hs. apply lstep_all_lice; [intros; intros _; apply configureRoute_band, Hs | apply tick_rel_band].
Qed.

(** C4: In every reachable world, with a valid random source, every live
    sprite of every surface moves at a speed in [[speedMin, speedMax]]: the
    spec's speed-band property holds of every state the program reaches. *)
Theorem reachable_band w :
  valid_source src -> reachable w -> all_lice live_in_band w.
Proof.
  intros Hs. induction 1 as [n|w w' _ IH Hst];
    [apply all_lice_init | exact (lstep_band w w' Hs Hst IH)].
Qed.

End Lifecycle.

(** ** Witnesses *)

(** The world after one burst on the book of [host0]. *)
Definition world1 : world := spawnBurst src_zero host0 world0.

Lemma world1_reachable : reachable src_zero world1.
Proof. apply (reach_step src_zero world0 world1 (reach_init src_zero 10) (ls_burst src_zero host0 world0)). Qed.

Lemma reachable_cap_ok_witness : cap_ok world1.
Proof. exact (reachable_cap_ok src_zero world1 world1_reachable). Defined.

Lemma reachable_band_witness : all_lice live_in_band world1.
Proof. exact (reachable_band src_zero world1 src_zero_valid world1_reachable). Defined.

(** Surface 1 holds a running sprite and a dead one waiting for removal. *)
Definition world_full : world :=
  {| w_surfaces := [(1%nat, {| si_layer := new_layer 10 1; si_lice := [louse_run; mark_despawn louse_run] |})];
     w_next := 11; w_rng := 0; w_removals := [] |}.

Lemma spawnOneOn_full_witness : spawnOneOn src_zero host0 world_full 1 = (world_full, None).
Proof.
  apply (spawnOneOn_full src_zero host0 world_full 1 _ eq_refl).
  unfold CFG.activeMaxPerSurface. simpl. lia.
Defined.
