(* ===== verification/Burst.v ===== *)
(** * How many sprites a burst places

    [spawnBurst] (woodlouse.js lines 179-198) walks the shuffled visible
    pages once, calling [spawnOneOn] on each until [remaining] reaches 0,
    and walks them a second time if sprites are still owed.  This file
    counts what the two passes do.  The room of a page is the number of
    sprites [spawnOneOn] could still add to it: 0 if it has no surface or
    its layer measures under 30 px, [CFG.activeMaxPerSurface] minus its
    sprite count otherwise.

    The theorem: a burst adds exactly [min(CFG.burstSize, total room)]
    sprites to the visible pages and leaves every other surface as it was.
    The spec's "exactly one additional pass" is enough because a page never
    has more room than [CFG.activeMaxPerSurface = 2], and each pass gives
    every page that still has room one sprite. *)

From Stdlib Require Import Reals Lra Lia List String Permutation.
From S2P Require Import Prelude Config Host Visibility Route Registry Lifecycle.
Import ListNotations.
Local Open Scope R_scope.

Section Burst.
Variable src : Source.
Variable h : host.

(** ** Measures of a world *)

(** The sprites [spawnOneOn] could still add to page [el] (lines 166-171). *)
Definition room (w : world) (el : nat) : nat :=
  match AMap.get el (w_surfaces w) with
  | None => 0
  | Some info =>
      let '(W, H) := measure h (ly_node (si_layer info)) in
      if Rlt_dec W 30 then 0 else if Rlt_dec H 30 then 0
      else CFG.activeMaxPerSurface - List.length (si_lice info)
  end.

(** [info.lice.size] of page [el], 0 if it has no surface. *)
Definition count (w : world) (el : nat) : nat :=
  match AMap.get el (w_surfaces w) with
  | None => 0
  | Some info => List.length (si_lice info)
  end.

Definition sum_over (f : nat -> nat) (l : list nat) : nat := list_sum (map f l).

(** [w'] is [w] with one more sprite on page [el] and nothing else changed. *)
Definition placed (w w' : world) (el : nat) : Prop :=
  (forall k, k <> el -> AMap.get k (w_surfaces w') = AMap.get k (w_surfaces w)) /\
  room w' el = pred (room w el) /\ count w' el = S (count w el).

(** ** Sums *)

Lemma sum_over_perm f l l' : Permutation l l' -> sum_over f l = sum_over f l'.
Proof. unfold sum_over. induction 1; simpl; lia. Qed.

Lemma sum_over_ext f g l : (forall k, In k l -> f k = g k) -> sum_over f l = sum_over g l.
Proof.
  unfold sum_over. induction l as [|a l IH]; intros Hfg; simpl; [reflexivity|].
  rewrite (Hfg a (or_introl eq_refl)), IH by (intros; apply Hfg; right; assumption). reflexivity.
Qed.

Lemma sum_over_zero f l : (forall k, In k l -> f k = 0%nat) -> sum_over f l = 0%nat.
Proof.
  intros H0. rewrite (sum_over_ext f (fun _ => 0%nat)) by exact H0.
  clear H0. unfold sum_over. induction l; simpl; lia.
Qed.

Lemma get_same_room w w' k :
  AMap.get k (w_surfaces w') = AMap.get k (w_surfaces w) -> room w' k = room w k /\ count w' k = count w k.
Proof. unfold room, count. intros ->. auto. Qed.

Lemma room_le w el : (room w el <= CFG.activeMaxPerSurface)%nat.
Proof.
  unfold room. destruct (AMap.get el _) as [info|]; cfg; [|lia].
  destruct (measure h _) as [W H]. case_ifs; lia.
Qed.

(** ** One [spawnOneOn] *)

Lemma spawnOneOn_room w el :
  (room w el = 0%nat /\ spawnOneOn src h w el = (w, None)) \/
  ((0 < room w el)%nat /\ exists w' L, spawnOneOn src h w el = (w', Some L) /\ placed w w' el).
Proof.
  unfold spawnOneOn, room. destruct (AMap.get el (w_surfaces w)) as [info|] eqn:Hg; [|left; auto].
  destruct (measure h (ly_node (si_layer info))) as [W H] eqn:Em.
  destruct (Nat.leb_spec CFG.activeMaxPerSurface (List.length (si_lice info))) as [Hf|Hf].
  { left. split; [|reflexivity]. cfg. case_ifs; lia. }
  destruct (Rlt_dec W 30); [left; auto|]. destruct (Rlt_dec H 30); [left; auto|].
  right. split; [cfg; lia|].
  destruct (makeLouse el (w_next w) src (w_rng w)) as [L n1].
  destruct (configureRoute L W H src n1) as [L' n2]. do 2 eexists. split; [reflexivity|].
  split; [intros k Hk; simpl; apply AMap.get_set_ne, Hk|].
  unfold room, count. cbn -[measure]. rewrite AMap.get_set_eq, Hg. cbn -[measure]. rewrite Em, length_app. simpl.
  split; [|lia]. destruct (Rlt_dec W 30); [contradiction|]. destruct (Rlt_dec H 30); [contradiction|].
  unfold CFG.activeMaxPerSurface in Hf. destruct (List.length (si_lice info)) as [|[|k]]; simpl; lia.
Qed.

(** ** One pass *)

(** What a pass over [l] with [r] sprites owed does: it places [r - r']
    sprites, each taking one unit of room, and either places all it owes
    or gives one sprite to every page of [l] (whose room drops by one). *)
Definition pass_spec (l : list nat) (r : nat) (w w' : world) (r' : nat) : Prop :=
  (r' <= r)%nat /\
  sum_over (count w') l = (sum_over (count w) l + (r - r'))%nat /\
  (sum_over (room w') l + (r - r'))%nat = sum_over (room w) l /\
  (r' = 0%nat \/ forall el, In el l -> room w' el = pred (room w el)) /\
  (forall k, ~ In k l -> AMap.get k (w_surfaces w') = AMap.get k (w_surfaces w)).

(** Consing a page that [spawnOneOn] left at [w1] onto a pass over the rest. *)
Lemma pass_spec_cons el l (r r1 : nat) w w1 w' (r' : nat) :
  ~ In el l -> (forall k, k <> el -> AMap.get k (w_surfaces w1) = AMap.get k (w_surfaces w)) ->
  (r1 <= r)%nat -> (r - r1 <= 1)%nat ->
  room w1 el = (room w el - (r - r1))%nat -> count w1 el = (count w el + (r - r1))%nat ->
  (r1 = r -> room w el = 0%nat) -> (r - r1 <= room w el)%nat ->
  pass_spec l r1 w1 w' r' -> pass_spec (el :: l) r w w' r'.
Proof.
  intros Hel Hk Hr Hr1 Hroom Hcount Hz Hrm (Hle & Hc & Hs & Hd & Ho).
  assert (Hl : forall k, In k l -> room w1 k = room w k /\ count w1 k = count w k)
    by (intros k Hin; apply get_same_room, Hk; intros ->; contradiction).
  assert (Hel' : AMap.get el (w_surfaces w') = AMap.get el (w_surfaces w1)) by (apply Ho, Hel).
  destruct (get_same_room _ _ _ Hel') as [Er Ec].
  rewrite (sum_over_ext (count w1) (count w) l) in Hc by (intros; apply Hl; assumption).
  rewrite (sum_over_ext (room w1) (room w) l) in Hs by (intros; apply Hl; assumption).
  unfold pass_spec, sum_over in *. simpl. rewrite Er, Ec.
  pose proof (room_le w el). unfold CFG.activeMaxPerSurface in *.
  split; [lia|]. split; [lia|]. split; [lia|]. split.
  - destruct Hd as [->|Hd]; [left; reflexivity|]. right. intros k [<-|Hin].
    + rewrite Er, Hroom. destruct (Nat.eq_dec r1 r) as [E|E]; [rewrite (Hz E)|]; lia.
    + rewrite Hd by exact Hin. f_equal. apply Hl, Hin.
  - intros k Hn. rewrite Ho by tauto. apply Hk. intros ->. apply Hn. left. reflexivity.
Qed.

Lemma spawn_pass_spec l r w :
  NoDup l -> let '(w', r') := spawn_pass src h l r w in pass_spec l r w w' r'.
Proof.
  revert r w. induction l as [|el l IH]; intros r w Hnd; simpl.
  - unfold pass_spec, sum_over. simpl. split; [lia|]. split; [lia|]. split; [lia|].
    split; [right; intros _ []|auto].
  - inversion Hnd as [|? ? Hel Hnd']; subst.
    destruct (Nat.leb_spec r 0) as [Hr0|Hr0].
    + assert (r = 0%nat) as -> by lia. unfold pass_spec. split; [lia|]. split; [lia|].
      split; [lia|]. split; [left|]; auto.
    + destruct (spawnOneOn_room w el) as [[Hz ->]|[Hp [w1 [L [-> [Hk [Hroom Hcount]]]]]]].
      * specialize (IH r w Hnd'). destruct (spawn_pass src h l r w) as [w' r'].
        apply (pass_spec_cons el l r r w w); auto; lia.
      * specialize (IH (r - 1)%nat w1 Hnd'). destruct (spawn_pass src h l (r - 1) w1) as [w' r'].
        apply (pass_spec_cons el l r (r - 1) w w1); auto; lia.
Qed.

(** ** The shuffle *)

Lemma shuffle_perm vis n : Permutation (fst (shuffle vis src n)) vis.
Proof.
  unfold shuffle. destruct vis as [|a [|b [|c l]]]; simpl; auto.
  destruct (Rlt_dec _ 0); simpl; auto. apply perm_swap.
Qed.

(** ** Two passes *)

(** The passes of lines 183-197 over the shuffled pages [sh], from the
    world [w1]: the sprites they add and the surfaces they leave alone. *)
Lemma two_passes sh w1 :
  NoDup sh ->
  let '(w2, r1) := spawn_pass src h sh CFG.burstSize w1 in
  let w3 := if Nat.ltb 0 r1 then fst (spawn_pass src h sh r1 w2) else w2 in
  sum_over (count w3) sh = (sum_over (count w1) sh + Nat.min CFG.burstSize (sum_over (room w1) sh))%nat /\
  (forall k, ~ In k sh -> AMap.get k (w_surfaces w3) = AMap.get k (w_surfaces w1)).
Proof.
  intros Hnd. pose proof (spawn_pass_spec sh CFG.burstSize w1 Hnd) as P1.
  destruct (spawn_pass src h sh CFG.burstSize w1) as [w2 r1].
  destruct P1 as (Hle1 & Hc1 & Hs1 & Hd1 & Ho1). unfold CFG.burstSize in *.
  destruct (Nat.ltb_spec 0 r1) as [Hr1|Hr1]; cbv zeta; [|split; [rewrite Nat.min_l by lia; lia | exact Ho1]].
  pose proof (spawn_pass_spec sh r1 w2 Hnd) as P2. destruct (spawn_pass src h sh r1 w2) as [w3 r2].
  destruct P2 as (Hle2 & Hc2 & Hs2 & Hd2 & Ho2). cbn [fst].
  split; [|intros k Hk; rewrite Ho2, Ho1 by exact Hk; reflexivity].
  destruct Hd1 as [->|Hd1]; [lia|]. destruct Hd2 as [->|Hd2]; [rewrite Nat.min_l by lia; lia|].
  assert (Hz : sum_over (room w3) sh = 0%nat).
  { apply sum_over_zero. intros k Hk. rewrite Hd2, Hd1 by exact Hk.
    pose proof (room_le w1 k) as Hk'. unfold CFG.activeMaxPerSurface in Hk'.
    destruct (room w1 k) as [|[|[|]]]; simpl; lia. }
  rewrite Nat.min_r by lia. lia.
Qed.

End Burst.

Lemma spawnBurst_count_sum src h w :
  NoDup (h_pages h) ->
  let '(w1, vis) := ensureLayersOnVisiblePages h w in
  sum_over (count (spawnBurst src h w)) vis =
    (sum_over (count w1) vis + Nat.min CFG.burstSize (sum_over (room h w1) vis))%nat /\
  (forall k, ~ In k vis -> AMap.get k (w_surfaces (spawnBurst src h w)) = AMap.get k (w_surfaces w1)).
Proof.
  intros Hnd. pose proof (getVisiblePages_NoDup h Hnd) as Hv. unfold spawnBurst.
  change (getVisiblePages h) with (snd (ensureLayersOnVisiblePages h w)) in Hv.
  destruct (ensureLayersOnVisiblePages h w) as [w1 vis]. simpl in Hv.
  destruct vis as [|a vis']; [split; [reflexivity | auto]|].
  pose proof (shuffle_perm src (a :: vis') (w_rng w1)) as Hp.
  destruct (shuffle (a :: vis') src (w_rng w1)) as [sh n]. simpl in Hp.
  pose proof (two_passes src h sh (set_rng w1 n) (Permutation_NoDup (Permutation_sym Hp) Hv)) as H2.
  destruct (spawn_pass src h sh CFG.burstSize (set_rng w1 n)) as [w2 r1].
  destruct H2 as [Hc Ho]. rewrite <- !(sum_over_perm _ _ _ Hp). split; [exact Hc|].
  intros k Hk. apply Ho. intros Hin. apply Hk, (Permutation_in _ Hp), Hin.
Qed.

(** C5: A burst places exactly [min(CFG.burstSize, room)] sprites, where
    [room] is what the visible pages can still take after the refresh
    (pages without a surface or under 30 px take none), and changes no
    surface that is not visible: one extra pass is always enough. *)
Theorem spawnBurst_count src h w :
  NoDup (h_pages h) ->
  let '(w1, vis) := ensureLayersOnVisiblePages h w in
  sum_over (count (spawnBurst src h w)) vis =
    (sum_over (count w1) vis + Nat.min CFG.burstSize (sum_over (room h w1) vis))%nat /\
  (forall k, ~ In k vis -> AMap.get k (w_surfaces (spawnBurst src h w)) = AMap.get k (w_surfaces w1)).
Proof.
  exact (spawnBurst_count_sum src h w).
Qed.

(** ** Witnesses *)

Lemma spawnBurst_count_witness :
  let '(w1, vis) := ensureLayersOnVisiblePages host0 world0 in
  sum_over (count (spawnBurst src_zero host0 world0)) vis =
    (sum_over (count w1) vis + Nat.min CFG.burstSize (sum_over (room host0 w1) vis))%nat /\
  (forall k, ~ In k vis -> AMap.get k (w_surfaces (spawnBurst src_zero host0 world0)) = AMap.get k (w_surfaces w1)).
Proof.
  apply (spawnBurst_count src_zero host0 world0). repeat constructor; simpl; intuition discriminate.
Defined.
