(* ===== verification/Wf.v ===== *)
(** * Well-formedness of the registry: distinct surfaces, distinct and fresh sprites

    Every sprite element and every layer comes from
    [document.createElement], so no two sprites share an element and every
    element the program holds was created before the next one; the model
    numbers created nodes with the counter [w_next] of [Registry].  The
    invariant [wf]: the keys of [surfaces] are distinct (a [Map] has one
    entry per key), the elements of all sprites of all surfaces are
    distinct, and each is below [w_next].

    Every step of [Lifecycle.lstep] keeps [wf], so every reachable world
    is well formed.  The invariant holds by construction of the model (a
    [Map] has one entry per key, a created node is fresh); it is the ground
    on which [Removal] proves that the removal timers name only dead
    sprites. *)

From Stdlib Require Import Reals Lra Lia List String Permutation.
From S2P Require Import Prelude Config Host Visibility Route Locomotion Registry Lifecycle.
Import ListNotations.
Local Open Scope R_scope.

(** ** The invariant *)

Definition entry_ids (e : nat * surface_info) : list nat := map l_el (si_lice (snd e)).

(** The elements of all sprites, surface by surface in map order. *)
Definition sprite_ids (w : world) : list nat := flat_map entry_ids (w_surfaces w).

Definition wf (w : world) : Prop :=
  NoDup (AMap.keys (w_surfaces w)) /\ NoDup (sprite_ids w) /\
  (forall e, In e (sprite_ids w) -> (e < w_next w)%nat).

(** ** Lemmas on sprites and surfaces *)

Lemma makeLouse_el surf el src n : l_el (rval (makeLouse surf el) src n) = el.
Proof. reflexivity. Qed.

Lemma configureRoute_el L W H src n : l_el (rval (configureRoute L W H) src n) = l_el L.
Proof.
  unfold rval. destruct (route_endpoints W H src n) as [[[[x y] ex] ey] c] eqn:E.
  rewrite (configureRoute_eq L W H src n x y ex ey c E). reflexivity.
Qed.

Lemma tick_rel_el src h dt L L' : tick_rel src h dt L L' -> l_el L' = l_el L.
Proof.
  intros [->|[layer [m ->]]]; [reflexivity|]. apply (tick_louse_keeps h layer dt L src m).
Qed.

Lemma Forall2_tick_rel_el src h dt l l' :
  Forall2 (tick_rel src h dt) l l' -> map l_el l' = map l_el l.
Proof. induction 1; simpl; [reflexivity|]. f_equal; [eapply tick_rel_el; eauto | assumption]. Qed.

Lemma NoDup_map_filter {A B} (g : A -> B) f l :
  NoDup (map g l) -> NoDup (map g (filter f l)) /\ incl (map g (filter f l)) (map g l).
Proof.
  induction l as [|x l IH]; simpl; intros Hnd; [split; [constructor | apply incl_refl]|].
  inversion Hnd as [|? ? Hx Hnd']; subst. destruct (IH Hnd') as [H1 H2].
  destruct (f x); simpl.
  - split; [constructor; [intros Hin; apply Hx, H2, Hin | exact H1]|]. apply incl_cons; [left; reflexivity|].
    intros y Hy. right. apply H2, Hy.
  - split; [exact H1|]. intros y Hy. right. apply H2, Hy.
Qed.

Lemma wf_lice_NoDup w k info :
  wf w -> AMap.get k (w_surfaces w) = Some info -> NoDup (map l_el (si_lice info)).
Proof.
  intros [_ [Hids _]] Hg. destruct (AMap.get_split _ _ _ Hg) as [m1 [m2 [E1 _]]].
  unfold sprite_ids in Hids. rewrite E1, flat_map_app in Hids. simpl in Hids.
  exact (NoDup_app_remove_r _ _ (NoDup_app_remove_l _ _ Hids)).
Qed.

(** Replacing the sprites of a registered surface by some of them. *)
Lemma wf_replace w w' k info info' :
  AMap.get k (w_surfaces w) = Some info ->
  w_surfaces w' = AMap.set k info' (w_surfaces w) -> (w_next w <= w_next w')%nat ->
  NoDup (map l_el (si_lice info')) -> incl (map l_el (si_lice info')) (map l_el (si_lice info)) ->
  wf w -> wf w'.
Proof.
  intros Hg Hs Hn Hnd Hi [Hk [Hids Hlt]].
  destruct (AMap.get_split _ _ _ Hg) as [m1 [m2 [E1 E2]]].
  unfold wf, sprite_ids in *. rewrite Hs. split; [apply AMap.set_NoDup, Hk|].
  rewrite E2. rewrite E1 in Hids, Hlt. rewrite !flat_map_app in *. simpl in *.
  split; [eapply NoDup_mid_sub; eauto|].
  intros e He. rewrite !in_app_iff in He. cut (e < w_next w)%nat; [lia|].
  apply Hlt. rewrite !in_app_iff. intuition.
Qed.

(** ** Preservation, operation by operation *)

Lemma ensure_one_wf w el : wf w -> wf (ensure_one w el).
Proof.
  unfold ensure_one. destruct (AMap.get el (w_surfaces w)) as [info|] eqn:Hg.
  - intros Hw. apply (wf_replace w _ el info {| si_layer := reattach el (si_layer info); si_lice := si_lice info |});
      simpl; auto using incl_refl. exact (wf_lice_NoDup w el info Hw Hg).
  - intros [Hk [Hids Hlt]]. unfold wf, sprite_ids in *. simpl.
    rewrite AMap.set_absent by exact Hg. rewrite flat_map_app. simpl. rewrite !app_nil_r.
    split; [rewrite <- AMap.set_absent by exact Hg; apply AMap.set_NoDup, Hk|].
    split; [exact Hids|]. intros e He. specialize (Hlt e He). lia.
Qed.

(** The sprite [spawnOneOn] makes, when it makes one: appended to the
    sprites of the registered surface [el], with the fresh element
    [w_next w]. *)
Lemma spawnOneOn_some src h w el w' L :
  spawnOneOn src h w el = (w', Some L) ->
  exists info, AMap.get el (w_surfaces w) = Some info /\ l_el L = w_next w /\
    w_next w' = S (w_next w) /\
    w_surfaces w' = AMap.set el {| si_layer := si_layer info; si_lice := si_lice info ++ [L] |}
                             (w_surfaces w).
Proof.
  unfold spawnOneOn. destruct (AMap.get el (w_surfaces w)) as [info|] eqn:Hg; [|discriminate].
  destruct (Nat.leb _ _); [discriminate|]. destruct (measure h _) as [W H].
  destruct (Rlt_dec W 30); [discriminate|]. destruct (Rlt_dec H 30); [discriminate|].
  destruct (makeLouse el (w_next w) src (w_rng w)) as [L0 n1] eqn:Em.
  destruct (configureRoute L0 W H src n1) as [L' n2] eqn:Ec. injection 1 as <- <-.
  exists info. split; [reflexivity|]. split; [|split; reflexivity].
  pose proof (configureRoute_el L0 W H src n1) as E. unfold rval in E. rewrite Ec in E. simpl in E.
  rewrite E. pose proof (makeLouse_el el (w_next w) src (w_rng w)) as E2.
  unfold rval in E2. rewrite Em in E2. exact E2.
Qed.

Lemma spawnOneOn_none src h w el w' : spawnOneOn src h w el = (w', None) -> w' = w.
Proof.
  unfold spawnOneOn. destruct (AMap.get el _); [|congruence]. destruct (Nat.leb _ _); [congruence|].
  destruct (measure h _) as [W H]. destruct (Rlt_dec W 30); [congruence|].
  destruct (Rlt_dec H 30); [congruence|].
  destruct (makeLouse _ _ _ _), (configureRoute _ _ _ _ _). discriminate.
Qed.

Lemma spawnOneOn_wf src h w el : wf w -> wf (fst (spawnOneOn src h w el)).
Proof.
  intros Hw. destruct (spawnOneOn src h w el) as [w' [L|]] eqn:E; simpl;
    [|rewrite (spawnOneOn_none _ _ _ _ _ E); exact Hw].
  destruct (spawnOneOn_some _ _ _ _ _ _ E) as [info [Hg [HL [Hn Hs]]]].
  destruct Hw as [Hk [Hids Hlt]]. destruct (AMap.get_split _ _ _ Hg) as [m1 [m2 [E1 E2]]].
  unfold wf, sprite_ids in *. rewrite Hs. split; [apply AMap.set_NoDup, Hk|].
  rewrite E2, Hn. rewrite E1 in Hids, Hlt. rewrite !flat_map_app in *. simpl in *.
  assert (Ee : entry_ids (el, {| si_layer := si_layer info; si_lice := si_lice info ++ [L] |}) =
                entry_ids (el, info) ++ [w_next w]) by (unfold entry_ids; simpl; rewrite map_app; simpl; rewrite HL; reflexivity).
  rewrite Ee.
  split; [apply NoDup_mid_snoc; [exact Hids | intros Hin; specialize (Hlt _ Hin); lia]|].
  intros e He.
  assert (Hor : In e (flat_map entry_ids m1 ++ entry_ids (el, info) ++ flat_map entry_ids m2) \/
                e = w_next w) by (rewrite !in_app_iff in *; simpl in He; intuition).
  destruct Hor as [Hor | ->]; [specialize (Hlt _ Hor)|]; lia.
Qed.

Lemma tick_surfaces_ids src h dt now m n :
  flat_map entry_ids (fst (fst (tick_surfaces src h dt now m n))) = flat_map entry_ids m /\
  AMap.keys (fst (fst (tick_surfaces src h dt now m n))) = AMap.keys m.
Proof.
  revert n. induction m as [|[k info] m IH]; intros n; simpl; [auto|].
  pose proof (tick_surface_rel src h (ly_node (si_layer info)) dt (si_lice info) n) as Hr.
  unfold rval in Hr.
  destruct (tick_surface h (ly_node (si_layer info)) dt (si_lice info) src n) as [[lice' ds] n1].
  specialize (IH n1). destruct (tick_surfaces src h dt now m n1) as [[m'' rs] n2].
  simpl in *. destruct IH as [IH1 IH2].
  unfold entry_ids at 1 3. simpl. rewrite (Forall2_tick_rel_el _ _ _ _ _ Hr), IH1.
  split; [reflexivity|]. unfold AMap.keys in *. simpl. rewrite IH2. reflexivity.
Qed.

Lemma tick_wf src h dt now w : wf w -> wf (tick src h dt now w).
Proof.
  unfold tick. pose proof (tick_surfaces_ids src h dt now (w_surfaces w) (w_rng w)) as [E1 E2].
  destruct (tick_surfaces src h dt now (w_surfaces w) (w_rng w)) as [[m rs] n].
  unfold wf, sprite_ids. simpl in *. rewrite E1, E2. auto.
Qed.

Lemma fire_wf w : wf w -> wf (fire w).
Proof.
  unfold fire. destruct (w_removals w) as [|r rs]; [auto|]. intros Hw. unfold remove_louse. simpl.
  destruct (AMap.get (rm_surf r) (w_surfaces w)) as [info|] eqn:Hg; [|exact Hw].
  destruct (NoDup_map_filter l_el (fun L => negb (Nat.eqb (l_el L) (rm_el r))) (si_lice info)
              (wf_lice_NoDup w _ info Hw Hg)) as [H1 H2].
  apply (wf_replace w _ (rm_surf r) info
    {| si_layer := si_layer info;
       si_lice := filter (fun L => negb (Nat.eqb (l_el L) (rm_el r))) (si_lice info) |} Hg);
    simpl; auto.
Qed.

Lemma host_reset_wf el ly w : wf w -> wf (host_reset el ly w).
Proof.
  unfold host_reset. destruct (AMap.get el (w_surfaces w)) as [info|] eqn:Hg; [|auto].
  intros Hw. apply (wf_replace w _ el info {| si_layer := ly; si_lice := si_lice info |});
    simpl; auto using incl_refl. exact (wf_lice_NoDup w el info Hw Hg).
Qed.

Lemma lstep_wf src w w' : lstep src w w' -> wf w -> wf w'.
Proof.
  apply lstep_preserve; auto using ensure_one_wf, spawnOneOn_wf, tick_wf, fire_wf, host_reset_wf.
Qed.

(** Every reachable world is well formed.  The invariant is what the
    other files build on: [Removal] uses the distinct elements to show that
    a removal timer names only dead sprites. *)
Lemma reachable_wf src w : reachable src w -> wf w.
Proof.
  induction 1 as [n|w w' _ IH Hs]; [|exact (lstep_wf src w w' Hs IH)].
  split; [constructor|]. split; [constructor | intros e []].
Qed.
