(* ===== verification/Removal.v ===== *)
(** * Removal: every dead sprite is eventually deleted

    [maybeDespawn] (woodlouse.js lines 231-242) marks a sprite that left its
    surface as dead and schedules
    [setTimeout(() => { L.el.remove(); L.surfaceInfo.lice.delete(L); }, 160)].
    In the model the pending callbacks are the list [w_removals] of the
    world, in the order they were scheduled, and [Lifecycle.fire] runs the
    first one.

    The invariant [pending_ok]: every dead sprite of every surface has its
    removal pending (a timer naming its surface and its element).  It holds
    of every reachable world.  The liveness theorem: from a world where it
    holds, once the pending timers have fired (one [fire] per timer) there
    are no timers left and every sprite still registered is alive, so each
    sprite that crossed its despawn threshold is gone from the DOM and from
    its surface's [Set].

    The code's callback deletes the sprite object [L] itself; the model's
    [remove_louse] deletes the sprites of the timer's surface whose element
    is the timer's.  The second invariant, [timers_target_dead], shows the
    two agree on every reachable world: each pending timer names an element
    created before [w_next], and every sprite carrying it is dead (the
    proof follows the tick, which adds a timer only for a sprite it has
    just marked dead, and uses that elements are distinct).  So a callback
    never deletes a live sprite ([fire_keeps_live]). *)

From Stdlib Require Import Reals Lra Lia List String.
From S2P Require Import Prelude Config Host Visibility Route Locomotion Registry Lifecycle Wf.
Import ListNotations.
Local Open Scope R_scope.

(** ** Definitions *)

(** Every dead sprite has its removal timer pending. *)
Definition pending_ok (w : world) : Prop :=
  forall k info L, AMap.get k (w_surfaces w) = Some info -> In L (si_lice info) ->
  l_alive L = false ->
  exists r, In r (w_removals w) /\ rm_surf r = k /\ rm_el r = l_el L.

(** [k] timer callbacks run one after the other. *)
Fixpoint drain (k : nat) (w : world) : world :=
  match k with
  | O => w
  | S k' => drain k' (fire w)
  end.

(** All the callbacks pending in [w] run. *)
Definition fire_all (w : world) : world := drain (List.length (w_removals w)) w.

(** The sprites of all surfaces, in map order. *)
Definition all_sprites (w : world) : list louse := flat_map (fun e => si_lice (snd e)) (w_surfaces w).

(** Every pending timer names an element created before [w_next] that no
    live sprite has: the callback deletes by element what the code deletes
    by identity. *)
Definition timers_target_dead (w : world) : Prop :=
  forall r, In r (w_removals w) ->
  (rm_el r < w_next w)%nat /\
  forall L, In L (all_sprites w) -> l_el L = rm_el r -> l_alive L = false.

(** ** The tick schedules a removal for each sprite it kills *)

Lemma tick_louse_sched h layer dt L src n :
  let '(L', sched) := fst (tick_louse h layer dt L src n) in
  l_alive L' = false -> sched = true \/ (l_alive L = false /\ L' = L).
Proof.
  destruct (l_alive L) eqn:Ha.
  - rewrite tick_louse_alive_eq by exact Ha.
    destruct (rval (wanderForce L dt) src n) as [L1 w] eqn:Ew. cbn [fst].
    assert (Ha1 : l_alive L1 = true).
    { unfold rval, wanderForce, rnd in Ew. run_rnd. injection Ew as <- _. exact Ha. }
    pose proof (maybeDespawn_cases h layer (integrate L1 (accel L1 w) dt)) as Hc.
    destruct (measure h layer) as [W H].
    destruct Hc as [[_ ->]|[_ ->]]; intros Hd; [left; reflexivity|].
    unfold integrate in Hd. destruct (clampSpeed _ _). simpl in Hd. congruence.
  - rewrite tick_louse_frozen by exact Ha. simpl. auto.
Qed.

(** A dead sprite after a surface's tick was dead before, or its element is
    among those scheduled for removal. *)
Definition sched_ok (lice lice' : list louse) (ds : list nat) : Prop :=
  forall L', In L' lice' -> l_alive L' = false -> In (l_el L') ds \/ In L' lice.

Lemma tick_lice_sched h layer dt lice src n :
  let '(lice', ds) := fst (tick_lice h layer dt lice src n) in sched_ok lice lice' ds.
Proof.
  revert n. induction lice as [|L lice IH]; intros n; simpl; [intros L' []|].
  unfold rbind. pose proof (tick_louse_sched h layer dt L src n) as HL.
  destruct (tick_louse h layer dt L src n) as [[L' b] n1]. specialize (IH n1).
  destruct (tick_lice h layer dt lice src n1) as [[rest ds] n2]. simpl in *.
  intros L0 [<-|Hin] Hd.
  - destruct (HL Hd) as [->|[_ ->]]; [left; left; reflexivity | right; left; reflexivity].
  - destruct (IH L0 Hin Hd) as [H|H]; [left; destruct b; [right|]; exact H | right; right; exact H].
Qed.

Lemma tick_surface_sched h layer dt lice src n :
  let '(lice', ds) := fst (tick_surface h layer dt lice src n) in sched_ok lice lice' ds.
Proof.
  unfold tick_surface. destruct (measure h layer) as [W H].
  destruct (Rlt_dec W 30); [intros L' HL _; right; exact HL|].
  destruct (Rlt_dec H 30); [intros L' HL _; right; exact HL|].
  apply tick_lice_sched.
Qed.

Lemma tick_surfaces_sched src h dt now m n k info' L' :
  AMap.get k (fst (fst (tick_surfaces src h dt now m n))) = Some info' ->
  In L' (si_lice info') -> l_alive L' = false ->
  In {| rm_due := now + 160; rm_surf := k; rm_el := l_el L' |} (snd (fst (tick_surfaces src h dt now m n))) \/
  exists info, AMap.get k m = Some info /\ In L' (si_lice info).
Proof.
  revert n. induction m as [|[k0 info0] m IH]; intros n; simpl; [discriminate|].
  pose proof (tick_surface_sched h (ly_node (si_layer info0)) dt (si_lice info0) src n) as Hs.
  destruct (tick_surface h (ly_node (si_layer info0)) dt (si_lice info0) src n) as [[lice' ds] n1].
  specialize (IH n1). destruct (tick_surfaces src h dt now m n1) as [[m'' rs] n2]. simpl in *.
  destruct (Nat.eq_dec k k0) as [->|Hne].
  - injection 1 as <-. simpl. intros Hin Hd. destruct (Hs L' Hin Hd) as [H|H]; [left | right; eauto].
    apply in_or_app. left. apply in_map_iff. eauto.
  - intros Hg Hin Hd. destruct (IH Hg Hin Hd) as [H|H]; [left; apply in_or_app; right; exact H | right; exact H].
Qed.

(** ** Preservation *)

(** Operations that keep the timers and bring no dead sprite of their own:
    each dead sprite after them has a dead counterpart with the same
    element before. *)
Definition dead_from (Rl : list louse -> list louse -> Prop) : Prop :=
  forall l l' L', Rl l l' -> In L' l' -> l_alive L' = false ->
  exists L, In L l /\ l_alive L = false /\ l_el L = l_el L'.

Lemma pending_transfer (Rl : list louse -> list louse -> Prop) w w' :
  dead_from Rl -> lice_from Rl w w' -> incl (w_removals w) (w_removals w') ->
  pending_ok w -> pending_ok w'.
Proof.
  intros HR Hf Hi Hp k info' L Hg Hin Hd. destruct (Hf k info' Hg) as [E|[info [Hg0 Hrl]]].
  - rewrite E in Hin. destruct Hin.
  - destruct (HR _ _ _ Hrl Hin Hd) as [L0 [Hin0 [Hd0 He]]].
    destruct (Hp k info L0 Hg0 Hin0 Hd0) as [r [Hr E]]. exists r. rewrite <- He. auto.
Qed.

Lemma eq_dead : dead_from eq.
Proof. intros l l' L' -> H Hd. eauto. Qed.

Lemma spawnOneOn_removals src h w el : w_removals (fst (spawnOneOn src h w el)) = w_removals w.
Proof.
  unfold spawnOneOn. destruct (AMap.get el _); [|reflexivity]. destruct (Nat.leb _ _); [reflexivity|].
  destruct (measure h _) as [W H]. destruct (Rlt_dec W 30); [reflexivity|].
  destruct (Rlt_dec H 30); [reflexivity|].
  destruct (makeLouse _ _ _ _), (configureRoute _ _ _ _ _). reflexivity.
Qed.

(** A freshly routed sprite is alive. *)
Lemma spawn_rel_dead src : dead_from (spawn_rel src).
Proof.
  intros l l' L' [->|[_ [surf [e [n0 [W [H ->]]]]]]] Hin Hd; [eauto|].
  apply in_app_or in Hin. destruct Hin as [Hin|[<-|[]]]; [eauto|].
  unfold rval, rcur in Hd. set (n1 := snd (makeLouse surf e src n0)) in Hd.
  destruct (route_endpoints W H src n1) as [[[[x y] ex] ey] c] eqn:E.
  rewrite (configureRoute_eq _ W H src n1 x y ex ey c E) in Hd. simpl in Hd. discriminate.
Qed.

Lemma tick_pending src h dt now w : pending_ok w -> pending_ok (tick src h dt now w).
Proof.
  intros Hp k info' L Hg Hin Hd. unfold tick in *.
  pose proof (tick_surfaces_sched src h dt now (w_surfaces w) (w_rng w) k info' L) as Hs.
  destruct (tick_surfaces src h dt now (w_surfaces w) (w_rng w)) as [[m rs] n]. simpl in *.
  destruct (Hs Hg Hin Hd) as [H|[info [Hg0 Hin0]]].
  - eexists. split; [apply in_or_app; right; exact H | auto].
  - destruct (Hp k info L Hg0 Hin0 Hd) as [r [Hr E]]. exists r. split; [apply in_or_app; left|]; auto.
Qed.

Lemma remove_louse_removals r w : w_removals (remove_louse r w) = w_removals w.
Proof. unfold remove_louse. destruct (AMap.get _ _); reflexivity. Qed.

(** Running the first timer keeps the others for the sprites it leaves. *)
Lemma fire_pending w : pending_ok w -> pending_ok (fire w).
Proof.
  unfold fire. destruct (w_removals w) as [|r rs] eqn:Er; [auto|]. intros Hp k info' L Hg Hin Hd.
  rewrite remove_louse_removals. simpl.
  unfold remove_louse in Hg. simpl in Hg. destruct (AMap.get (rm_surf r) (w_surfaces w)) as [info|] eqn:Hr.
  - simpl in Hg. destruct (Nat.eq_dec k (rm_surf r)) as [->|Hne].
    + rewrite AMap.get_set_eq in Hg. injection Hg as <-. simpl in Hin. apply filter_In in Hin.
      destruct Hin as [Hin Hneq]. cbn beta in Hneq. destruct (Hp _ _ _ Hr Hin Hd) as [r0 [Hr0 [Es Ee]]].
      rewrite Er in Hr0. destruct Hr0 as [<-|Hr0]; [|exists r0; auto].
      rewrite Ee, Nat.eqb_refl in Hneq. discriminate.
    + rewrite AMap.get_set_ne in Hg by exact Hne.
      destruct (Hp _ _ _ Hg Hin Hd) as [r0 [Hr0 [Es Ee]]]. rewrite Er in Hr0.
      destruct Hr0 as [<-|Hr0]; [congruence | exists r0; auto].
  - simpl in Hg. destruct (Hp _ _ _ Hg Hin Hd) as [r0 [Hr0 [Es Ee]]]. rewrite Er in Hr0.
    destruct Hr0 as [<-|Hr0]; [|exists r0; auto].
    rewrite Es in Hr. rewrite Hr in Hg. discriminate.
Qed.

Lemma ensure_removals h w : w_removals (fst (ensureLayersOnVisiblePages h w)) = w_removals w.
Proof.
  unfold ensureLayersOnVisiblePages. simpl.
  apply (fold_left_preserve _ (fun w' => w_removals w' = w_removals w)); [|reflexivity].
  intros w0 el _ H0. unfold ensure_one. destruct (AMap.get el _); exact H0.
Qed.

Lemma spawnBurst_removals src h w : w_removals (spawnBurst src h w) = w_removals w.
Proof.
  apply (spawnBurst_preserve src (fun w' => w_removals w' = w_removals w)); [| | |reflexivity].
  - intros w0 el H0. unfold ensure_one. destruct (AMap.get el _); exact H0.
  - intros w0 n H0. exact H0.
  - intros h0 w0 el H0. rewrite spawnOneOn_removals. exact H0.
Qed.

Lemma host_reset_removals el ly w : w_removals (host_reset el ly w) = w_removals w.
Proof. unfold host_reset. destruct (AMap.get el _); reflexivity. Qed.

(** The timers a tick schedules are all due 160 ms after its time [now]. *)
Lemma tick_removals src h dt now w :
  exists rs : list removal, w_removals (tick src h dt now w) = w_removals w ++ rs /\
    Forall (fun r => rm_due r = now + 160) rs.
Proof.
  unfold tick.
  assert (Hd : forall m n, Forall (fun r => rm_due r = now + 160) (snd (fst (tick_surfaces src h dt now m n)))).
  { induction m as [|[k info] m IH]; intros n; simpl; [constructor|].
    destruct (tick_surface h (ly_node (si_layer info)) dt (si_lice info) src n) as [[lice' ds] n1].
    specialize (IH n1). destruct (tick_surfaces src h dt now m n1) as [[m'' rs] n2]. simpl in *.
    apply Forall_app. split; [|exact IH]. apply Forall_map, Forall_forall. reflexivity. }
  specialize (Hd (w_surfaces w) (w_rng w)).
  destruct (tick_surfaces src h dt now (w_surfaces w) (w_rng w)) as [[m rs] n].
  exists rs. split; [reflexivity | exact Hd].
Qed.

Lemma lstep_pending src w w' : lstep src w w' -> pending_ok w -> pending_ok w'.
Proof.
  apply lstep_preserve.
  - intros w0 el. apply (pending_transfer eq w0); [apply eq_dead | apply ensure_one_lice_from |].
    unfold ensure_one. destruct (AMap.get el _); apply incl_refl.
  - intros w0 n. apply (pending_transfer eq w0); [apply eq_dead | apply set_rng_lice_from | apply incl_refl].
  - intros h w0 el. apply (pending_transfer (spawn_rel src) w0);
      [apply spawn_rel_dead | apply spawnOneOn_lice_from | rewrite spawnOneOn_removals; apply incl_refl].
  - intros h dt now w0 _. apply tick_pending.
  - apply fire_pending.
  - intros el ly w0. apply (pending_transfer eq w0); [apply eq_dead | apply host_reset_lice_from |].
    unfold host_reset. destruct (AMap.get el _); apply incl_refl.
Qed.

Lemma fire_removals w : w_removals (fire w) = tl (w_removals w).
Proof.
  unfold fire. destruct (w_removals w) as [|r rs] eqn:E; [exact E | apply remove_louse_removals].
Qed.

Lemma drain_spec k w :
  pending_ok w -> pending_ok (drain k w) /\ w_removals (drain k w) = skipn k (w_removals w).
Proof.
  revert w. induction k as [|k IH]; intros w Hp; simpl; [auto|].
  destruct (IH (fire w) (fire_pending w Hp)) as [H1 H2]. split; [exact H1|].
  rewrite H2, fire_removals. destruct (w_removals w); simpl; [destruct k|]; reflexivity.
Qed.

(** ** Timers name dead sprites *)

Lemma sprite_ids_all w : sprite_ids w = map l_el (all_sprites w).
Proof.
  unfold sprite_ids, all_sprites. induction (w_surfaces w) as [|e m IH]; [reflexivity|].
  simpl. rewrite IH, map_app. reflexivity.
Qed.

Lemma get_all_sprites w k info L :
  AMap.get k (w_surfaces w) = Some info -> In L (si_lice info) -> In L (all_sprites w).
Proof. intros Hg Hin. apply in_flat_map. exists (k, info). split; [apply AMap.get_In, Hg | exact Hin]. Qed.

Lemma NoDup_map_inj {A B} (f : A -> B) l x y :
  NoDup (map f l) -> In x l -> In y l -> f x = f y -> x = y.
Proof.
  induction l as [|a l IH]; simpl; [tauto|]. intros Hnd Hx Hy E.
  inversion Hnd as [|? ? Ha Hnd']; subst.
  destruct Hx as [<-|Hx], Hy as [<-|Hy]; auto.
  - exfalso. apply Ha. rewrite E. apply in_map, Hy.
  - exfalso. apply Ha. rewrite <- E. apply in_map, Hx.
Qed.

(** Replacing the sprites of a registered surface replaces one segment of
    [all_sprites]. *)
Lemma all_sprites_set w k info info' :
  AMap.get k (w_surfaces w) = Some info ->
  exists A B, all_sprites w = A ++ si_lice info ++ B /\
    flat_map (fun e => si_lice (snd e)) (AMap.set k info' (w_surfaces w)) = A ++ si_lice info' ++ B.
Proof.
  intros Hg. destruct (AMap.get_split _ _ _ Hg) as [m1 [m2 [E1 E2]]].
  exists (flat_map (fun e => si_lice (snd e)) m1), (flat_map (fun e => si_lice (snd e)) m2).
  unfold all_sprites. rewrite E2, E1, !flat_map_app. split; reflexivity.
Qed.

(** Operations that keep or drop timers and sprites, and bring no live
    sprite with an element created before. *)
Lemma ttd_mono w w' :
  incl (w_removals w') (w_removals w) -> (w_next w <= w_next w')%nat ->
  (forall L', In L' (all_sprites w') -> l_alive L' = true ->
     (w_next w <= l_el L')%nat \/ exists L, In L (all_sprites w) /\ l_el L = l_el L' /\ l_alive L = true) ->
  timers_target_dead w -> timers_target_dead w'.
Proof.
  intros Hr Hn Hl Ht r Hin. destruct (Ht r (Hr r Hin)) as [Hlt Hd]. split; [lia|].
  intros L' HL' He. destruct (l_alive L') eqn:Ha; [|reflexivity]. exfalso.
  destruct (Hl L' HL' Ha) as [Hge|[L [HL [Ee Ha0]]]]; [lia|].
  rewrite (Hd L HL) in Ha0 by congruence. discriminate.
Qed.

Lemma same_sprites_ttd w w' :
  w_removals w' = w_removals w -> (w_next w <= w_next w')%nat -> incl (all_sprites w') (all_sprites w) ->
  timers_target_dead w -> timers_target_dead w'.
Proof.
  intros Hr Hn Hi. apply ttd_mono; [rewrite Hr; apply incl_refl | exact Hn|].
  intros L' HL' Ha. right. exists L'. auto.
Qed.

Lemma ensure_one_ttd w el : timers_target_dead w -> timers_target_dead (ensure_one w el).
Proof.
  unfold ensure_one. destruct (AMap.get el (w_surfaces w)) as [info|] eqn:Hg.
  - apply same_sprites_ttd; [reflexivity | simpl; lia|].
    destruct (all_sprites_set w el info {| si_layer := reattach el (si_layer info); si_lice := si_lice info |} Hg)
      as [A [B [E1 E2]]].
    unfold all_sprites at 1. simpl. rewrite E2, E1. apply incl_refl.
  - apply same_sprites_ttd; [reflexivity | simpl; lia|].
    unfold all_sprites. simpl. rewrite AMap.set_absent by exact Hg. rewrite flat_map_app. simpl.
    rewrite app_nil_r. apply incl_refl.
Qed.

Lemma host_reset_ttd el ly w : timers_target_dead w -> timers_target_dead (host_reset el ly w).
Proof.
  unfold host_reset. destruct (AMap.get el (w_surfaces w)) as [info|] eqn:Hg; [|auto].
  apply same_sprites_ttd; [reflexivity | simpl; lia|].
  destruct (all_sprites_set w el info {| si_layer := ly; si_lice := si_lice info |} Hg) as [A [B [E1 E2]]].
  unfold all_sprites at 1. simpl. rewrite E2, E1. apply incl_refl.
Qed.

Lemma fire_ttd w : timers_target_dead w -> timers_target_dead (fire w).
Proof.
  unfold fire. destruct (w_removals w) as [|r rs] eqn:Er; [auto|]. intros Ht.
  assert (Ht' : timers_target_dead {| w_surfaces := w_surfaces w; w_next := w_next w;
                                      w_rng := w_rng w; w_removals := rs |}).
  { intros r0 Hr0. apply Ht. rewrite Er. right. exact Hr0. }
  revert Ht'. unfold remove_louse. simpl.
  destruct (AMap.get (rm_surf r) (w_surfaces w)) as [info|] eqn:Hg; [|auto].
  apply same_sprites_ttd; [reflexivity | simpl; lia|].
  match goal with |- context [AMap.set _ ?i _] =>
    destruct (all_sprites_set w (rm_surf r) info i Hg) as [A [B [E1 E2]]] end.
  unfold all_sprites at 1 2. simpl. rewrite E2. fold (all_sprites w). rewrite E1.
  intros L HL. rewrite !in_app_iff in *. simpl in HL.
  destruct HL as [HL|[HL|HL]]; [left | right; left; apply filter_In in HL; apply HL | right; right]; exact HL.
Qed.

Lemma spawnOneOn_ttd src h w el : wf w -> timers_target_dead w -> timers_target_dead (fst (spawnOneOn src h w el)).
Proof.
  intros Hw Ht. destruct (spawnOneOn src h w el) as [w' [L|]] eqn:E; simpl;
    [|rewrite (spawnOneOn_none _ _ _ _ _ E); exact Ht].
  destruct (spawnOneOn_some _ _ _ _ _ _ E) as [info [Hg [HL [Hn Hs]]]].
  apply (ttd_mono w); [|rewrite Hn; lia| |exact Ht].
  - pose proof (spawnOneOn_removals src h w el) as Er. rewrite E in Er. simpl in Er.
    rewrite Er. apply incl_refl.
  - destruct (all_sprites_set w el info {| si_layer := si_layer info; si_lice := si_lice info ++ [L] |} Hg)
      as [A [B [E1 E2]]].
    intros L' HL' Ha. unfold all_sprites in HL'. rewrite Hs, E2 in HL'. cbn [si_lice] in HL'.
    rewrite !in_app_iff in HL'. simpl in HL'. destruct HL' as [HL'|[[HL'|[<-|[]]]|HL']]; try (left; lia);
      right; exists L'; (split; [rewrite E1, !in_app_iff; tauto | auto]).
Qed.

(** The tick: a live sprite after it was live before with the same
    element, and every timer it adds names a sprite it has just killed. *)

Lemma maybeDespawn_sched h layer L :
  snd (maybeDespawn h layer L) = true -> l_alive (fst (maybeDespawn h layer L)) = false.
Proof. unfold maybeDespawn. destruct (measure h layer) as [W H]. destruct (outside _ _ _ _); simpl; congruence. Qed.

Lemma tick_louse_sched_dead h layer dt L src n :
  snd (fst (tick_louse h layer dt L src n)) = true -> l_alive (fst (fst (tick_louse h layer dt L src n))) = false.
Proof.
  destruct (l_alive L) eqn:Ha; [|rewrite tick_louse_frozen by exact Ha; discriminate].
  rewrite tick_louse_alive_eq by exact Ha. destruct (rval (wanderForce L dt) src n) as [L1 w].
  apply maybeDespawn_sched.
Qed.

Lemma tick_lice_ds h layer dt lice src n e :
  In e (snd (fst (tick_lice h layer dt lice src n))) ->
  exists L', In L' (fst (fst (tick_lice h layer dt lice src n))) /\ l_el L' = e /\ l_alive L' = false.
Proof.
  revert n. induction lice as [|L lice IH]; intros n; simpl; [intros []|]. unfold rbind.
  pose proof (tick_louse_sched_dead h layer dt L src n) as HL.
  destruct (tick_louse h layer dt L src n) as [[L' b] n1]. specialize (IH n1).
  destruct (tick_lice h layer dt lice src n1) as [[rest ds] n2]. simpl in *.
  intros Hin. destruct b; [destruct Hin as [<-|Hin]|];
    [exists L'; auto | |]; destruct (IH Hin) as [L0 [H0 H1]]; exists L0; auto.
Qed.

Lemma tick_surface_ds h layer dt lice src n e :
  In e (snd (fst (tick_surface h layer dt lice src n))) ->
  exists L', In L' (fst (fst (tick_surface h layer dt lice src n))) /\ l_el L' = e /\ l_alive L' = false.
Proof.
  unfold tick_surface. destruct (measure h layer) as [W H].
  destruct (Rlt_dec W 30); [intros []|]. destruct (Rlt_dec H 30); [intros []|]. apply tick_lice_ds.
Qed.

Lemma tick_surfaces_ds src h dt now m n r :
  In r (snd (fst (tick_surfaces src h dt now m n))) ->
  exists L', In L' (flat_map (fun e => si_lice (snd e)) (fst (fst (tick_surfaces src h dt now m n)))) /\
    l_el L' = rm_el r /\ l_alive L' = false.
Proof.
  revert n. induction m as [|[k info] m IH]; intros n; simpl; [intros []|].
  pose proof (tick_surface_ds h (ly_node (si_layer info)) dt (si_lice info) src n) as Hs.
  destruct (tick_surface h (ly_node (si_layer info)) dt (si_lice info) src n) as [[lice' ds] n1].
  specialize (IH n1). destruct (tick_surfaces src h dt now m n1) as [[m'' rs] n2]. simpl in *.
  intros Hin. apply in_app_or in Hin. destruct Hin as [Hin|Hin].
  - apply in_map_iff in Hin. destruct Hin as [e [<- He]]. destruct (Hs e He) as [L' [H1 H2]].
    exists L'. split; [apply in_or_app; left; exact H1 | exact H2].
  - destruct (IH Hin) as [L' [H1 H2]]. exists L'. split; [apply in_or_app; right; exact H1 | exact H2].
Qed.

Lemma tick_surfaces_rel src h dt now m n :
  Forall2 (tick_rel src h dt) (flat_map (fun e => si_lice (snd e)) m)
    (flat_map (fun e => si_lice (snd e)) (fst (fst (tick_surfaces src h dt now m n)))).
Proof.
  revert n. induction m as [|[k info] m IH]; intros n; simpl; [constructor|].
  pose proof (tick_surface_rel src h (ly_node (si_layer info)) dt (si_lice info) n) as Hr. unfold rval in Hr.
  destruct (tick_surface h (ly_node (si_layer info)) dt (si_lice info) src n) as [[lice' ds] n1].
  specialize (IH n1). destruct (tick_surfaces src h dt now m n1) as [[m'' rs] n2].
  simpl in *. apply Forall2_app; assumption.
Qed.

Lemma tick_rel_alive src h dt L L' : tick_rel src h dt L L' -> l_alive L' = true -> l_alive L = true.
Proof.
  intros [->|[layer [m ->]]]; [auto|]. destruct (l_alive L) eqn:Ha; [auto|].
  unfold rval. rewrite tick_louse_frozen by exact Ha. simpl. congruence.
Qed.

Lemma tick_ttd src h dt now w : wf w -> timers_target_dead w -> timers_target_dead (tick src h dt now w).
Proof.
  intros Hw Ht. pose proof (tick_wf src h dt now w Hw) as [_ [Hnd Hlt]].
  rewrite sprite_ids_all in Hnd, Hlt.
  pose proof (tick_surfaces_rel src h dt now (w_surfaces w) (w_rng w)) as Hr.
  pose proof (tick_surfaces_ds src h dt now (w_surfaces w) (w_rng w)) as Hd.
  unfold tick, all_sprites in *. destruct (tick_surfaces src h dt now (w_surfaces w) (w_rng w)) as [[m rs] n].
  simpl in *. intros r Hin. apply in_app_or in Hin. destruct Hin as [Hin|Hin].
  - destruct (Ht r Hin) as [Hlt0 Hdead]. split; [exact Hlt0|].
    intros L' HL' He. destruct (l_alive L') eqn:Ha; [|reflexivity].
    destruct (Forall2_in_r _ _ _ _ Hr HL') as [L [HL Hrel]].
    pose proof (tick_rel_el _ _ _ _ _ Hrel) as Ee. pose proof (tick_rel_alive _ _ _ _ _ Hrel Ha) as Ha0.
    rewrite (Hdead L HL) in Ha0 by congruence. discriminate.
  - destruct (Hd r Hin) as [L0 [H0 [E0 D0]]]. split; [rewrite <- E0; apply Hlt, in_map, H0|].
    intros L' HL' He. rewrite <- (NoDup_map_inj l_el _ L0 L' Hnd H0 HL') by congruence. exact D0.
Qed.

Lemma lstep_ttd src w w' : lstep src w w' -> wf w /\ timers_target_dead w -> wf w' /\ timers_target_dead w'.
Proof.
  apply (lstep_preserve src (fun x => wf x /\ timers_target_dead x)).
  - intros w0 el [H1 H2]. split; [apply ensure_one_wf | apply ensure_one_ttd]; assumption.
  - intros w0 n [H1 H2]. split; [exact H1 | exact H2].
  - intros h w0 el [H1 H2]. split; [apply spawnOneOn_wf | apply spawnOneOn_ttd]; assumption.
  - intros h dt now w0 _ [H1 H2]. split; [apply tick_wf | apply tick_ttd]; assumption.
  - intros w0 [H1 H2]. split; [apply fire_wf | apply fire_ttd]; assumption.
  - intros el ly w0 [H1 H2]. split; [apply host_reset_wf | apply host_reset_ttd]; assumption.
Qed.

Lemma reachable_wf_ttd src w : reachable src w -> wf w /\ timers_target_dead w.
Proof.
  induction 1 as [n|w w' _ IH Hs]; [|exact (lstep_ttd src w w' Hs IH)].
  split; [split; [constructor|]; split; [constructor | intros e []] | intros r []].
Qed.

(** With no timer pending, a world whose dead sprites all have one has none. *)
Lemma clears_of_pending w :
  pending_ok w -> w_removals w = [] -> all_lice (fun L => l_alive L = true) w.
Proof.
  intros Hp Hr k info Hg. apply Forall_forall. intros L Hin.
  destruct (l_alive L) eqn:Hd; [reflexivity|].
  destruct (Hp k info L Hg Hin Hd) as [r [Hr0 _]]. rewrite Hr in Hr0. destruct Hr0.
Qed.

Lemma fire_live w k info L :
  timers_target_dead w -> AMap.get k (w_surfaces w) = Some info -> In L (si_lice info) ->
  l_alive L = true ->
  exists info', AMap.get k (w_surfaces (fire w)) = Some info' /\ In L (si_lice info').
Proof.
  intros Ht Hg HL Ha. unfold fire. destruct (w_removals w) as [|r rs] eqn:Er; [eauto|].
  unfold remove_louse. simpl. destruct (AMap.get (rm_surf r) (w_surfaces w)) as [i0|] eqn:Hg0; [|eauto].
  simpl. destruct (Nat.eq_dec k (rm_surf r)) as [->|Hne].
  - rewrite AMap.get_set_eq. eexists. split; [reflexivity|]. simpl.
    rewrite Hg0 in Hg. injection Hg as ->. apply filter_In. split; [exact HL|].
    destruct (Nat.eqb (l_el L) (rm_el r)) eqn:E; [|reflexivity]. apply Nat.eqb_eq in E.
    assert (Hr : In r (w_removals w)) by (rewrite Er; left; reflexivity).
    rewrite (proj2 (Ht r Hr) L (get_all_sprites _ _ _ _ Hg0 HL) E) in Ha. discriminate.
  - rewrite AMap.get_set_ne by exact Hne. eauto.
Qed.

(** ** Theorems *)

(** C13: In every reachable world, every sprite marked dead has its removal
    timer pending: a timer naming its surface and its element. *)
Theorem reachable_pending src w : reachable src w -> pending_ok w.
Proof.
  induction 1 as [n|w w' _ IH Hs]; [|exact (lstep_pending src w w' Hs IH)].
  intros k info L Hg. discriminate.
Qed.

(** C6: Every sprite that despawns is eventually removed: from a world
    where every dead sprite has its timer pending, once those timers have
    fired none is left and every sprite still on a surface is alive. *)
Theorem fire_all_clears w :
  pending_ok w ->
  w_removals (fire_all w) = [] /\ all_lice (fun L => l_alive L = true) (fire_all w).
Proof.
  intros Hp. destruct (drain_spec (List.length (w_removals w)) w Hp) as [H1 H2].
  unfold fire_all. rewrite skipn_all in H2. split; [exact H2 | exact (clears_of_pending _ H1 H2)].
Qed.

(** C14: In every reachable world each pending removal timer names an
    element created before [w_next], and every sprite on the page with
    that element is dead: elements are never reused, so the callback's
    delete by element can only reach a sprite that has despawned. *)
Theorem reachable_timers_target_dead src w : reachable src w -> timers_target_dead w.
Proof. intros Hr. exact (proj2 (reachable_wf_ttd src w Hr)). Qed.

(** C15: When the timers name dead sprites, a removal callback keeps every
    live sprite where it was: [fire] deletes from the surface the timer
    names only the sprites with the timer's element, and none of them is
    alive. *)
Theorem fire_keeps_live w k info L :
  timers_target_dead w -> AMap.get k (w_surfaces w) = Some info -> In L (si_lice info) ->
  l_alive L = true ->
  exists info', AMap.get k (w_surfaces (fire w)) = Some info' /\ In L (si_lice info').
Proof. exact (fire_live w k info L). Qed.

(** ** Witnesses *)

Lemma reachable_pending_witness : pending_ok world1.
Proof. exact (reachable_pending src_zero world1 world1_reachable). Defined.

(** Surface 1 holds a sprite that has just despawned, with its timer. *)
Definition world_dead : world :=
  {| w_surfaces := [(1%nat, {| si_layer := new_layer 10 1; si_lice := [mark_despawn louse_run] |})];
     w_next := 11; w_rng := 0;
     w_removals := [{| rm_due := 160; rm_surf := 1; rm_el := l_el louse_run |}] |}.

Lemma world_dead_pending : pending_ok world_dead.
Proof.
  intros k info L Hg Hin _. simpl in Hg. destruct (Nat.eq_dec k 1) as [->|]; [|discriminate].
  injection Hg as <-. destruct Hin as [<-|[]]. eexists. split; [left; reflexivity | auto].
Qed.

Lemma fire_all_clears_witness :
  w_removals (fire_all world_dead) = [] /\ all_lice (fun L => l_alive L = true) (fire_all world_dead).
Proof. exact (fire_all_clears world_dead world_dead_pending). Defined.

(** Surface 1 holds the running sprite (element 2) and a dead one
    (element 3) whose timer is pending. *)
Definition louse_dead3 : louse := mark_despawn (rval (makeLouse 1 3) src_zero 0).

Definition world_mixed : world :=
  {| w_surfaces := [(1%nat, {| si_layer := new_layer 10 1; si_lice := [louse_run; louse_dead3] |})];
     w_next := 11; w_rng := 0;
     w_removals := [{| rm_due := 160; rm_surf := 1; rm_el := 3 |}] |}.

Lemma world_mixed_ttd : timers_target_dead world_mixed.
Proof.
  intros r [<-|[]]. split; [simpl; lia|].
  intros L [<-|[<-|[]]]; simpl; [discriminate | reflexivity].
Qed.

Lemma reachable_timers_target_dead_witness : timers_target_dead world1.
Proof. exact (reachable_timers_target_dead src_zero world1 world1_reachable). Defined.

Lemma fire_keeps_live_witness :
  exists info', AMap.get 1 (w_surfaces (fire world_mixed)) = Some info' /\ In louse_run (si_lice info').
Proof.
  apply (fire_keeps_live world_mixed 1 {| si_layer := new_layer 10 1; si_lice := [louse_run; louse_dead3] |});
    [exact world_mixed_ttd | reflexivity | left; reflexivity | reflexivity].
Defined.
