(* ===== verification/Loop.v ===== *)
(** * Animation Clock and Bootstrap: [stepFrame], [loop], [start]

    [stepFrame] (woodlouse.js lines 244-247) shows the next sprite image;
    [loop(ts)] (lines 287-300) is the [requestAnimationFrame] callback: it
    computes [dt] capped at 50 ms, advances the frame clock and, once
    [CFG.frameMs] has accumulated, steps the image of every sprite and resets
    the clock to 0, runs [tick(dt)] and asks for the next frame.  [start]
    (lines 314-328) refreshes the surfaces, binds the refresh to [resize]
    and Turn.js's [turned] event or to an 800 ms polling interval
    ([bindFlipbookEvents], lines 303-312), sets the burst timers, and starts
    the loop unless the reduced-motion preference is set.

    The state [sys] adds to the world of [Registry] the module variables
    [running], [lastT], [frameClock] and the callbacks the host holds for the
    program: pending animation frames, burst timers, and refresh listeners.
    [sstep] is the host running one of them, or calling [start] or [burst]
    (the page's [DOMContentLoaded] and the [window.woodlouse] API).

    The theorems: the frame index stays a valid image index; the loop's
    [dt] lies in [[0, 0.05]], so every system step is a sequence of
    [Lifecycle.lstep] steps and animation steps, and the capacity and speed
    invariants hold of every reachable system; with reduced motion no frame
    is ever pending and the loop never runs; [start] is not idempotent; and
    the frame clock advances the image every [ceil(90/d)] frames of [d] ms,
    not every 90 ms.  [preloadImages] (lines 41-45) and [start_async] model
    the [await] before [start]'s body: load errors never block it.  The
    removal timers of every reachable state are pending in due order, each
    due within 160 ms of the last frame, and every dead sprite has one. *)

From Stdlib Require Import Reals Lra Lia List String Sorted.
From S2P Require Import Prelude Config Host Visibility Route Locomotion Registry Lifecycle Removal.
Import ListNotations.
Local Open Scope R_scope.

(** ** Animation *)

(** [stepFrame(L)]: [L.frame = (L.frame + 1) % CFG.imgs.length] and the
    background image set to [CFG.imgs[L.frame]]. *)
Definition stepFrame (L : louse) : louse :=
  let f := ((l_frame L + 1) mod List.length CFG.imgs)%nat in
  {| l_el := l_el L; l_surf := l_surf L; l_x := l_x L; l_y := l_y L;
     l_vx := l_vx L; l_vy := l_vy L; l_frame := f; l_alive := l_alive L;
     l_wander := l_wander L; l_exitx := l_exitx L; l_exity := l_exity L;
     l_attached := l_attached L; l_classes := l_classes L; l_bg := f;
     l_transform := l_transform L |}.

(** [surfaces.forEach(({lice}) => lice.forEach(stepFrame))] *)
Definition animate (w : world) : world :=
  set_surfaces w (map (fun '(k, info) =>
    (k, {| si_layer := si_layer info; si_lice := map stepFrame (si_lice info) |}))
    (w_surfaces w)).

(** Lines 292-296 on the clock alone: the new [frameClock], and whether the
    images step. *)
Definition advance_clock (frameClock dt : R) : R * bool :=
  let fc := frameClock + dt * 1000 in
  if Rle_dec CFG.frameMs fc then (0, true) else (fc, false).

(** ** The system *)

Record sys := mkSys {
  s_world : world;
  s_running : bool;             (** [running] *)
  s_lastT : R;                  (** [lastT] *)
  s_frameClock : R;             (** [frameClock] *)
  s_raf : nat;                  (** pending [requestAnimationFrame(loop)] *)
  s_burst_timeouts : nat;       (** pending [setTimeout(spawnBurst, 600)] *)
  s_burst_intervals : nat;      (** [setInterval(spawnBurst, CFG.burstEveryMs)] *)
  s_resize : bool;              (** [ensureLayersOnVisiblePages] listens to [resize] *)
  s_turned : nat;               (** handlers bound with [$flip.on("turned", ...)] *)
  s_polls : nat                 (** [setInterval(ensureLayersOnVisiblePages, 800)] *)
}.

Definition with_world (s : sys) (w : world) : sys :=
  {| s_world := w; s_running := s_running s; s_lastT := s_lastT s;
     s_frameClock := s_frameClock s; s_raf := s_raf s;
     s_burst_timeouts := s_burst_timeouts s; s_burst_intervals := s_burst_intervals s;
     s_resize := s_resize s; s_turned := s_turned s; s_polls := s_polls s |}.

Section Loop.
Variable src : Source.

(** [loop(ts)], run as the callback of one pending animation frame. *)
Definition loop (h : host) (ts : R) (s : sys) : sys :=
  if negb (s_running s) then s else
  let lastT := if Req_dec_T (s_lastT s) 0 then ts else s_lastT s in
  let dt := Rmin 0.05 ((ts - lastT) / 1000) in
  let '(fc, step) := advance_clock (s_frameClock s) dt in
  let w1 := if step then animate (s_world s) else s_world s in
  {| s_world := tick src h dt ts w1; s_running := true; s_lastT := ts;
     s_frameClock := fc; s_raf := S (s_raf s);
     s_burst_timeouts := s_burst_timeouts s; s_burst_intervals := s_burst_intervals s;
     s_resize := s_resize s; s_turned := s_turned s; s_polls := s_polls s |}.

(** The fate of one [new Image()] of [preloadImages]: still loading, or its
    [onload] or its [onerror] has fired. *)
Inductive image_state := Loading | Loaded | Errored.

(** The state of a JavaScript promise. *)
Inductive promise := Pending | Fulfilled | Rejected.

(** [new Promise(res => { const im = new Image(); im.onload = () => res();
    im.onerror = () => res(); im.src = src; })] (lines 42-44): the promise
    of one image, settled by whichever handler fired. *)
Definition image_promise (st : image_state) : promise :=
  match st with
  | Loading => Pending
  | Loaded => Fulfilled
  | Errored => Fulfilled
  end.

(** [Promise.all(ps)]: rejected once one of the promises is, fulfilled
    once all of them are, pending otherwise. *)
Fixpoint promise_all (ps : list promise) : promise :=
  match ps with
  | [] => Fulfilled
  | p :: ps' =>
      match p, promise_all ps' with
      | Rejected, _ | _, Rejected => Rejected
      | Fulfilled, Fulfilled => Fulfilled
      | _, _ => Pending
      end
  end.

(** [preloadImages(urls)] (lines 41-45). *)
Definition preloadImages (imgs : list image_state) : promise :=
  promise_all (map image_promise imgs).

(** [start()], from the point where the images are loaded. *)
Definition start (h : host) (s : sys) : sys :=
  let w1 := fst (ensureLayersOnVisiblePages h (s_world s)) in
  let running := negb (h_reduced_motion h) in
  {| s_world := w1; s_running := running; s_lastT := s_lastT s;
     s_frameClock := s_frameClock s;
     s_raf := if running then S (s_raf s) else s_raf s;
     s_burst_timeouts := S (s_burst_timeouts s);
     s_burst_intervals := S (s_burst_intervals s);
     s_resize := true;
     s_turned := if h_flip_on h then S (s_turned s) else s_turned s;
     s_polls := if h_flip_on h then s_polls s else S (s_polls s) |}.

(** [start()] as a whole: nothing past [await preloadImages(CFG.imgs)]
    happens until the preload is fulfilled; a rejection would throw out of
    [start]. *)
Definition start_async (h : host) (imgs : list image_state) (s : sys) : option sys :=
  match preloadImages imgs with
  | Fulfilled => Some (start h s)
  | _ => None
  end.

(** Run [ensureLayersOnVisiblePages] [k] times (one per bound handler). *)
Fixpoint ensure_n (h : host) (k : nat) (w : world) : world :=
  match k with
  | O => w
  | S k' => ensure_n h k' (fst (ensureLayersOnVisiblePages h w))
  end.

Definition consume_raf (s : sys) : sys :=
  {| s_world := s_world s; s_running := s_running s; s_lastT := s_lastT s;
     s_frameClock := s_frameClock s; s_raf := pred (s_raf s);
     s_burst_timeouts := s_burst_timeouts s; s_burst_intervals := s_burst_intervals s;
     s_resize := s_resize s; s_turned := s_turned s; s_polls := s_polls s |}.

Definition consume_timeout (s : sys) : sys :=
  {| s_world := s_world s; s_running := s_running s; s_lastT := s_lastT s;
     s_frameClock := s_frameClock s; s_raf := s_raf s;
     s_burst_timeouts := pred (s_burst_timeouts s); s_burst_intervals := s_burst_intervals s;
     s_resize := s_resize s; s_turned := s_turned s; s_polls := s_polls s |}.

(** The hosts the environment can present. *)
Variable env : host -> Prop.

(** What the host can do next, under a host [h] of the environment.
    Animation-frame timestamps never go back and are not negative. *)
Inductive sstep : sys -> sys -> Prop :=
  | ss_start h s : env h -> sstep s (start h s)
  | ss_api_burst h s : env h -> sstep s (with_world s (spawnBurst src h (s_world s)))
  | ss_raf h ts s : env h -> (0 < s_raf s)%nat -> 0 <= ts -> s_lastT s <= ts ->
      sstep s (loop h ts (consume_raf s))
  | ss_burst_timeout h s : env h -> (0 < s_burst_timeouts s)%nat ->
      sstep s (with_world (consume_timeout s) (spawnBurst src h (s_world s)))
  | ss_burst_interval h s : env h -> (0 < s_burst_intervals s)%nat ->
      sstep s (with_world s (spawnBurst src h (s_world s)))
  | ss_resize h s : env h -> s_resize s = true ->
      sstep s (with_world s (fst (ensureLayersOnVisiblePages h (s_world s))))
  | ss_turned h s : env h -> sstep s (with_world s (ensure_n h (s_turned s) (s_world s)))
  | ss_poll h s : env h -> (0 < s_polls s)%nat ->
      sstep s (with_world s (fst (ensureLayersOnVisiblePages h (s_world s))))
  | ss_removal s : sstep s (with_world s (fire (s_world s)))
  | ss_host el ly s : sstep s (with_world s (host_reset el ly (s_world s))).

(** The page before [DOMContentLoaded]: nothing registered, nothing running. *)
Definition sys_init (n : nat) : sys :=
  {| s_world := {| w_surfaces := []; w_next := n; w_rng := 0; w_removals := [] |};
     s_running := false; s_lastT := 0; s_frameClock := 0; s_raf := 0;
     s_burst_timeouts := 0; s_burst_intervals := 0; s_resize := false;
     s_turned := 0; s_polls := 0 |}.

Inductive sreachable : sys -> Prop :=
  | sr_init n : sreachable (sys_init n)
  | sr_step s s' : sreachable s -> sstep s s' -> sreachable s'.

(** The pending removal timers are in the order they fall due, and each is
    due at most 160 ms after the time of the last animation frame. *)
Definition timers_ok (s : sys) : Prop :=
  StronglySorted Rle (map rm_due (w_removals (s_world s))) /\
  Forall (fun r => rm_due r <= s_lastT s + 160) (w_removals (s_world s)).

(** Each sprite marked dead has its removal timer pending, naming its
    surface and element, and due within 160 ms of the last animation frame. *)
Definition removal_due (s : sys) : Prop :=
  forall k info L, AMap.get k (w_surfaces (s_world s)) = Some info -> In L (si_lice info) ->
  l_alive L = false ->
  exists r, In r (w_removals (s_world s)) /\ rm_surf r = k /\ rm_el r = l_el L /\
    rm_due r <= s_lastT s + 160.

(** ** Lemmas *)

Lemma animate_get w k :
  AMap.get k (w_surfaces (animate w)) =
  option_map (fun info => {| si_layer := si_layer info; si_lice := map stepFrame (si_lice info) |})
             (AMap.get k (w_surfaces w)).
Proof. unfold animate. simpl. apply AMap.get_map_values. Qed.

Lemma animate_lice_from w : lice_from (fun l l' => l' = map stepFrame l) w (animate w).
Proof.
  intros k i Hk. right. rewrite animate_get in Hk.
  destruct (AMap.get k (w_surfaces w)) as [info|]; [|discriminate].
  injection Hk as <-. exists info. auto.
Qed.

(** The [dt] of [loop] lies in [[0, 0.05]] when time does not go back. *)
Lemma loop_dt lastT ts :
  0 <= ts -> lastT <= ts ->
  0 <= Rmin 0.05 ((ts - (if Req_dec_T lastT 0 then ts else lastT)) / 1000) <= 0.05.
Proof.
  intros H0 H1. split; [|apply Rmin_l].
  apply Rmin_glb; [lra|]. destruct (Req_dec_T lastT 0); unfold Rdiv; nra.
Qed.

(** A world step of the whole system: a step of [Lifecycle] or the
    animation of every sprite. *)
Definition wstep (w w' : world) : Prop := lstep src w w' \/ w' = animate w.

Lemma ensure_n_star h k w : star wstep w (ensure_n h k w).
Proof.
  revert w. induction k as [|k IH]; intros w; simpl; [apply star_refl|].
  eapply star_step; [left; apply ls_ensure | apply IH].
Qed.

(** ** Theorems *)

(** Every step of the system changes the world by a sequence of
    [Lifecycle.lstep] steps (each tick with a [dt] in [[0, 0.05]]) and
    animation steps: the whole program refines the world model the
    lifecycle invariants are proved on. *)
Lemma sstep_wstar s s' : sstep s s' -> star wstep (s_world s) (s_world s').
Proof.
  destruct 1 as [h s Hh|h s Hh|h ts s Hh Hr H0 H1|h s Hh Ht|h s Hh Hi|h s Hh Hr|h s Hh|h s Hh Hp|s|el ly s];
    simpl; try (apply star_one; left; constructor).
  - unfold loop. simpl. destruct (s_running s); simpl; [|apply star_refl].
    pose proof (loop_dt (s_lastT s) ts H0 H1) as Hdt.
    destruct (advance_clock _ _) as [fc [|]]; simpl.
    + eapply star_step; [right; reflexivity|]. apply star_one. left. constructor. exact Hdt.
    + apply star_one. left. constructor. exact Hdt.
  - apply ensure_n_star.
Qed.

(** C21: Every step of the system changes the world by a sequence of
    [Lifecycle.lstep] steps (each tick with a [dt] in [[0, 0.05]]) and
    animation steps: the whole program refines the world model the
    lifecycle invariants are proved on. *)
Theorem sstep_refines s s' : sstep s s' -> star wstep (s_world s) (s_world s').
Proof. exact (sstep_wstar s s'). Qed.

Lemma animate_cap_ok w : cap_ok w -> cap_ok (animate w).
Proof.
  apply (lice_from_cap (fun l l' => l' = map stepFrame l) w); [|apply animate_lice_from].
  intros l l' -> Hl. rewrite length_map. exact Hl.
Qed.

Lemma sreachable_preserve (I : world -> Prop) s :
  (forall w w', lstep src w w' -> I w -> I w') -> (forall w, I w -> I (animate w)) ->
  (forall n, I {| w_surfaces := []; w_next := n; w_rng := 0; w_removals := [] |}) ->
  sreachable s -> I (s_world s).
Proof.
  intros Hl Ha H0. induction 1 as [n|s s' _ IH Hs]; [apply H0|].
  apply (star_preserve wstep I _ _ (fun x y Hxy Hx => match Hxy with
    | or_introl H => Hl x y H Hx | or_intror E => eq_ind_r I (Ha x Hx) E end)
    (sstep_wstar s s' Hs) IH).
Qed.

(** C11: In every state the running page reaches, under any hosts, no
    surface holds more than [CFG.activeMaxPerSurface] sprites. *)
Theorem sreachable_cap_ok s : sreachable s -> cap_ok (s_world s).
Proof. apply sreachable_preserve; [apply lstep_cap_ok | apply animate_cap_ok | apply cap_ok_init]. Qed.

(** C12: In every state the running page reaches, with a valid random
    source, every live sprite moves at a speed in [[speedMin, speedMax]]. *)
Theorem sreachable_band s :
  valid_source src -> sreachable s -> all_lice live_in_band (s_world s).
Proof.
  intros Hsrc. apply sreachable_preserve; [intros; eapply lstep_band; eauto | | apply all_lice_init].
  intros w. apply (lice_from_all _ (fun l l' => l' = map stepFrame l) w); [|apply animate_lice_from].
  intros l l' -> Hl. apply Forall_map. eapply Forall_impl; [|exact Hl]. auto.
Qed.

(** With the reduced-motion preference set on every host, no state the
    page reaches has the loop running or an animation frame pending, so
    [loop], and with it every [tick], never runs. *)
Theorem reduced_motion_inert s :
  (forall h, env h -> h_reduced_motion h = true) ->
  sreachable s -> s_running s = false /\ s_raf s = 0%nat.
Proof.
  intros Hred. induction 1 as [n|s s' _ IH Hs]; [split; reflexivity|].
  destruct IH as [Hrun Hraf].
  destruct Hs as [h s Hh|h s Hh|h ts s Hh Hr H0 H1|h s Hh Ht|h s Hh Hi|h s Hh Hr|h s Hh|h s Hh Hp|s|el ly s];
    simpl; auto; [|lia].
  rewrite (Hred h Hh). simpl. auto.
Qed.

(** With the loop stopped, an animation frame changes nothing but the count
    of pending frames. *)
Lemma loop_stopped h ts s : s_running s = false -> loop h ts s = s.
Proof. intros Hr. unfold loop. rewrite Hr. reflexivity. Qed.

(** The shown image is a valid index of [CFG.imgs] and is the sprite's
    frame. *)
Definition frame_ok (L : louse) : Prop :=
  (l_frame L < List.length CFG.imgs)%nat /\ l_bg L = l_frame L.

Lemma stepFrame_ok L : frame_ok (stepFrame L).
Proof. split; [apply Nat.mod_upper_bound; discriminate | reflexivity]. Qed.

Lemma configureRoute_frame L W H n :
  l_frame (rval (configureRoute L W H) src n) = l_frame L /\
  l_bg (rval (configureRoute L W H) src n) = l_bg L.
Proof.
  unfold rval. destruct (route_endpoints W H src n) as [[[[x y] ex] ey] c] eqn:E.
  rewrite (configureRoute_eq L W H src n x y ex ey c E). simpl. auto.
Qed.

(** C33: In every state the page reaches, every sprite shows image
    [CFG.imgs[L.frame]] with [L.frame] a valid index. *)
Theorem sreachable_frames s : sreachable s -> all_lice frame_ok (s_world s).
Proof.
  apply sreachable_preserve; [| |apply all_lice_init].
  - intros w w'. apply lstep_all_lice.
    + intros surf el n0 W H. destruct (configureRoute_frame (rval (makeLouse surf el) src n0) W H
        (rcur (makeLouse surf el) src n0)) as [E1 E2].
      unfold frame_ok. rewrite E1, E2. unfold makeLouse, rnd. run_rnd. simpl. split; [lia | reflexivity].
    + intros h dt L L' _ [->|[layer [m ->]]] HL; [exact HL|].
      destruct (tick_louse_keeps h layer dt L src m) as (E1 & E2 & _).
      unfold frame_ok. rewrite E1, E2. exact HL.
  - intros w. apply (lice_from_all _ (fun l l' => l' = map stepFrame l) w); [|apply animate_lice_from].
    intros l l' -> _. apply Forall_forall. intros L HL. apply in_map_iff in HL.
    destruct HL as [L0 [<- _]]. apply stepFrame_ok.
Qed.

Lemma ensure_n_removals h k w : w_removals (ensure_n h k w) = w_removals w.
Proof.
  revert w. induction k as [|k IH]; intros w; simpl; [reflexivity|]. rewrite IH. apply ensure_removals.
Qed.

Lemma timers_ok_same s s' :
  w_removals (s_world s') = w_removals (s_world s) -> s_lastT s' = s_lastT s ->
  timers_ok s -> timers_ok s'.
Proof. unfold timers_ok. intros -> ->. auto. Qed.

(** The callback of an animation frame at [ts >= lastT] appends timers due
    at [ts + 160] and moves [lastT] to [ts]. *)
Lemma loop_timers h ts s :
  s_lastT s <= ts -> timers_ok s -> timers_ok (loop h ts s).
Proof.
  intros Hts Ht. unfold loop. destruct (s_running s); [|exact Ht]. cbn [negb].
  destruct (advance_clock _ _) as [fc step]. destruct Ht as [Hs Hb].
  unfold timers_ok. cbn [s_world s_lastT].
  match goal with |- context [tick src h ?dt ts ?w1] =>
    destruct (tick_removals src h dt ts w1) as [rs [Er Hrs]];
    assert (Ew : w_removals w1 = w_removals (s_world s)) by (destruct step; reflexivity) end.
  rewrite Er, Ew. split.
  - rewrite map_app. apply StronglySorted_app; [exact Hs| |].
    + apply (StronglySorted_const _ (ts + 160)); [apply Rle_refl|].
      apply Forall_map. exact Hrs.
    + intros a b Ha Hb'. apply in_map_iff in Ha, Hb'.
      destruct Ha as [ra [<- Ha]], Hb' as [rb [<- Hb']].
      rewrite Forall_forall in Hb, Hrs. rewrite (Hrs rb Hb'). specialize (Hb ra Ha). lra.
  - apply Forall_app. split.
    + eapply Forall_impl; [|exact Hb]. simpl. intros; lra.
    + eapply Forall_impl; [|exact Hrs]. simpl. intros; lra.
Qed.

Lemma sstep_timers s s' : sstep s s' -> timers_ok s -> timers_ok s'.
Proof.
  destruct 1 as [h s Hh|h s Hh|h ts s Hh Hr H0 H1|h s Hh Ht|h s Hh Hi|h s Hh Hr|h s Hh|h s Hh Hp|s|el ly s];
    try (apply timers_ok_same; simpl;
         first [apply ensure_removals | apply spawnBurst_removals | apply ensure_n_removals
               | apply host_reset_removals | reflexivity]; fail).
  - intros Ht. apply loop_timers; [exact H1 | exact Ht].
  - intros [Hs Hb]. unfold timers_ok. simpl. rewrite fire_removals.
    destruct (w_removals (s_world s)) as [|r rs]; simpl in *; [split; constructor|].
    inversion Hs; inversion Hb; subst. split; assumption.
Qed.

(** Stepping images keeps every dead sprite's element. *)
Lemma stepFrame_dead : dead_from (fun l l' => l' = map stepFrame l).
Proof.
  intros l l' L' -> Hin Hd. apply in_map_iff in Hin. destruct Hin as [L [<- HL]]. eauto.
Qed.

Lemma timers_inv s : sreachable s -> timers_ok s.
Proof.
  induction 1 as [n|s s' _ IH Hs]; [split; constructor | exact (sstep_timers s s' Hs IH)].
Qed.

Lemma sreachable_pending s : sreachable s -> pending_ok (s_world s).
Proof.
  intros Hr. apply sreachable_preserve; [apply lstep_pending | | | exact Hr].
  - intros w. apply (pending_transfer (fun l l' => l' = map stepFrame l) w);
      [apply stepFrame_dead | apply animate_lice_from | apply incl_refl].
  - intros n k0 i Hk. discriminate.
Qed.

(** C24: The removal timers of every state the page reaches are pending in
    the order they fall due, so the host runs them first-scheduled first,
    and each is due at most 160 ms after the last animation frame. *)
Theorem sreachable_timers s : sreachable s -> timers_ok s.
Proof. exact (timers_inv s). Qed.

(** C8: In every state the page reaches, each sprite marked dead has its
    removal timer pending, naming its surface and element, and due within
    160 ms of the last animation frame: the spec's fixed removal delay. *)
Theorem sreachable_removal_due s : sreachable s -> removal_due s.
Proof.
  intros Hr k info L Hg Hin Hd.
  destruct (sreachable_pending s Hr k info L Hg Hin Hd) as [r [Hr0 [Es Ee]]].
  destruct (timers_inv s Hr) as [_ Hb]. rewrite Forall_forall in Hb. eauto 6.
Qed.

End Loop.

(** C34: [animate] steps the image of every sprite of a surface, whatever its
    [alive] flag: a sprite already marked dead and waiting for its removal
    timer still changes image. *)
Theorem animate_steps_all w k info L :
  AMap.get k (w_surfaces w) = Some info -> In L (si_lice info) -> frame_ok L ->
  exists info', AMap.get k (w_surfaces (animate w)) = Some info' /\
    In (stepFrame L) (si_lice info') /\ l_alive (stepFrame L) = l_alive L /\
    l_frame (stepFrame L) <> l_frame L.
Proof.
  intros Hg Hin [Hf _]. rewrite animate_get, Hg. eexists. split; [reflexivity|].
  split; [apply in_map, Hin|]. split; [reflexivity|].
  unfold stepFrame. simpl. simpl in Hf.
  destruct (l_frame L) as [|[|f]]; simpl; lia.
Qed.

(** C31: [start] is not idempotent: a second call registers a second burst
    timeout and a second burst interval, binds a second [turned] handler (or
    a second polling interval), and with motion allowed starts a second
    animation-frame loop. *)
Theorem start_twice h s :
  let s2 := start h (start h s) in
  s_burst_timeouts s2 = (s_burst_timeouts s + 2)%nat /\
  s_burst_intervals s2 = (s_burst_intervals s + 2)%nat /\
  (s_turned s2 + s_polls s2 = s_turned s + s_polls s + 2)%nat /\
  (h_reduced_motion h = false -> s_raf s2 = (s_raf s + 2)%nat).
Proof.
  simpl. repeat split; try lia.
  - destruct (h_flip_on h); simpl; lia.
  - intros ->. simpl. lia.
Qed.

Lemma promise_all_not_rejected ps : Forall (fun p => p <> Rejected) ps -> promise_all ps <> Rejected.
Proof.
  induction 1 as [|p ps Hp _ IH]; simpl; [discriminate|].
  destruct p, (promise_all ps); congruence.
Qed.

Lemma promise_all_fulfilled ps :
  (promise_all ps = Fulfilled -> Forall (fun p => p = Fulfilled) ps) /\
  (Forall (fun p => p = Fulfilled) ps -> promise_all ps = Fulfilled).
Proof.
  induction ps as [|p ps [IH1 IH2]]; simpl; [split; [constructor | reflexivity]|]. split.
  - destruct p, (promise_all ps) eqn:E; try discriminate. intros _. constructor; auto.
  - intros H. inversion H as [|? ? -> Hps]; subst. rewrite (IH2 Hps). reflexivity.
Qed.

Lemma image_promises_fulfilled imgs :
  Forall (fun p => p = Fulfilled) (map image_promise imgs) <-> Forall (fun st => st <> Loading) imgs.
Proof.
  rewrite Forall_map, !Forall_forall. split; intros H st Hin; specialize (H st Hin); destruct st; simpl in *; congruence.
Qed.

(** C32: Image load errors never block the bootstrap: the preload promise
    is never rejected, and [start] proceeds past [await
    preloadImages(CFG.imgs)] exactly when no image is still loading,
    whether each one loaded or failed. *)
Theorem preload_errors_ignored h imgs s :
  preloadImages imgs <> Rejected /\
  (start_async h imgs s = Some (start h s) <-> Forall (fun st => st <> Loading) imgs).
Proof.
  unfold start_async, preloadImages. split.
  - apply promise_all_not_rejected, Forall_map, Forall_forall. intros st _. destruct st; discriminate.
  - rewrite <- image_promises_fulfilled.
    destruct (promise_all_fulfilled (map image_promise imgs)) as [H1 H2].
    split.
    + intros E. apply H1. destruct (promise_all _); congruence.
    + intros H. rewrite (H2 H). reflexivity.
Qed.

(** A running loop keeps its animation frame: each callback consumes one
    pending frame and asks for one. *)
Lemma loop_keeps_raf src h ts s :
  (0 < s_raf s)%nat -> s_running s = true -> s_raf (loop src h ts (consume_raf s)) = s_raf s.
Proof.
  intros Hp Hr. unfold loop, consume_raf. simpl. rewrite Hr. simpl.
  destruct (advance_clock _ _). simpl. lia.
Qed.

(** ** The frame clock *)

(** [k] consecutive frames of [dt] seconds from the clock [fc]: the final
    clock and, frame by frame, whether the images stepped. *)
Fixpoint run_clock (dt : R) (k : nat) (fc : R) : R * list bool :=
  match k with
  | O => (fc, [])
  | S k' => let '(fc1, b) := advance_clock fc dt in
            let '(fc2, bs) := run_clock dt k' fc1 in (fc2, b :: bs)
  end.

Lemma run_clock_quiet dt i j :
  0 <= dt -> INR (i + j) * (dt * 1000) < 90 ->
  run_clock dt j (INR i * (dt * 1000)) = (INR (i + j) * (dt * 1000), repeat false j).
Proof.
  revert i. induction j as [|j IH]; intros i Hdt Hlt; simpl.
  - rewrite Nat.add_0_r. reflexivity.
  - unfold advance_clock, CFG.frameMs.
    replace (INR i * (dt * 1000) + dt * 1000) with (INR (S i) * (dt * 1000)) by (rewrite S_INR; ring).
    assert (Hle : INR (S i) <= INR (i + S j)) by (apply le_INR; lia).
    destruct (Rle_dec 90 (INR (S i) * (dt * 1000))) as [Hge|_]; [nra|].
    replace (i + S j)%nat with (S i + j)%nat in * by lia.
    rewrite (IH (S i) Hdt Hlt). reflexivity.
Qed.

Lemma run_clock_snoc dt j fc :
  run_clock dt (j + 1) fc =
  (let '(fc1, bs) := run_clock dt j fc in
   let '(fc2, b) := advance_clock fc1 dt in (fc2, bs ++ [b])).
Proof.
  revert fc. induction j as [|j IH]; intros fc; simpl.
  - destruct (advance_clock fc dt). reflexivity.
  - destruct (advance_clock fc dt) as [fc1 b]. rewrite IH.
    destruct (run_clock dt j fc1) as [fc2 bs]. destruct (advance_clock fc2 dt). reflexivity.
Qed.

(** C30: The animation clock of [loop] steps the images on the first frame at
    which the accumulated time reaches [CFG.frameMs] and then restarts from
    0: with frames of [d = dt * 1000] ms, the images step once every [k+1]
    frames, where [k+1] is the least count with [(k+1) * d >= 90], so the
    period is [(k+1) * d], which exceeds 90 ms unless [d] divides 90. *)
Theorem frame_clock_period dt k :
  0 <= dt -> INR k * (dt * 1000) < 90 <= INR (S k) * (dt * 1000) ->
  run_clock dt (S k) 0 = (0, repeat false k ++ [true]).
Proof.
  intros Hdt [Hlo Hhi]. replace (S k) with (k + 1)%nat by lia.
  rewrite run_clock_snoc.
  replace 0 with (INR 0 * (dt * 1000)) at 1 by (simpl; ring).
  rewrite run_clock_quiet by (simpl; lra). simpl.
  unfold advance_clock, CFG.frameMs.
  replace (INR k * (dt * 1000) + dt * 1000) with (INR (S k) * (dt * 1000)) by (rewrite S_INR; ring).
  destruct (Rle_dec 90 _); [reflexivity | lra].
Qed.


(** ** Witnesses *)

(** Hosts of any kind, and hosts with the reduced-motion preference. *)
Definition env_any : host -> Prop := fun _ => True.
Definition env_reduced : host -> Prop := fun h => h_reduced_motion h = true.

Definition host_reduced : host :=
  {| h_pages := h_pages host0; h_rect := h_rect host0; h_offset := h_offset host0;
     h_innerHeight := h_innerHeight host0; h_reduced_motion := true; h_flip_on := true |}.

(** The page just after [start] on the book of [host0]. *)
Definition sys1 : sys := start host0 (sys_init 10).

Lemma sys1_reachable : sreachable src_zero env_any sys1.
Proof. exact (sr_step _ _ _ _ (sr_init _ _ 10) (ss_start _ _ host0 _ I)). Qed.

Lemma sstep_refines_witness : star (wstep src_zero) (s_world (sys_init 10)) (s_world sys1).
Proof. exact (sstep_refines src_zero env_any _ _ (ss_start _ _ host0 _ I)). Defined.

Lemma sreachable_cap_ok_witness : cap_ok (s_world sys1).
Proof. exact (sreachable_cap_ok src_zero env_any sys1 sys1_reachable). Defined.

Lemma sreachable_band_witness : all_lice live_in_band (s_world sys1).
Proof. exact (sreachable_band src_zero env_any sys1 src_zero_valid sys1_reachable). Defined.

Lemma sreachable_frames_witness : all_lice frame_ok (s_world sys1).
Proof. exact (sreachable_frames src_zero env_any sys1 sys1_reachable). Defined.

Lemma reduced_motion_inert_witness :
  s_running (start host_reduced (sys_init 10)) = false /\
  s_raf (start host_reduced (sys_init 10)) = 0%nat.
Proof.
  apply (reduced_motion_inert src_zero env_reduced); [intros h Hh; exact Hh|].
  exact (sr_step _ _ _ _ (sr_init _ _ 10) (ss_start _ _ host_reduced _ eq_refl)).
Defined.

Lemma animate_steps_all_witness :
  exists info', AMap.get 1 (w_surfaces (animate world_full)) = Some info' /\
    In (stepFrame (mark_despawn louse_run)) (si_lice info') /\
    l_alive (stepFrame (mark_despawn louse_run)) = l_alive (mark_despawn louse_run) /\
    l_frame (stepFrame (mark_despawn louse_run)) <> l_frame (mark_despawn louse_run).
Proof.
  apply (animate_steps_all world_full 1 _ _ eq_refl).
  - simpl. auto.
  - split; simpl; [lia | reflexivity].
Defined.

Lemma start_twice_witness :
  let s2 := start host0 (start host0 sys1) in
  s_burst_timeouts s2 = 3%nat /\ s_burst_intervals s2 = 3%nat /\
  (s_turned s2 + s_polls s2 = 3)%nat /\ s_raf s2 = 3%nat.
Proof.
  destruct (start_twice host0 sys1) as (H1 & H2 & H3 & H4).
  simpl in *. split; [exact H1|]. split; [exact H2|]. split; [exact H3|]. exact (H4 eq_refl).
Defined.

(** At 60 frames per second the images step on the sixth frame: every
    100 ms, not 90. *)
Lemma frame_clock_period_witness :
  run_clock (1 / 60) 6 0 = (0, [false; false; false; false; false; true]).
Proof. apply (frame_clock_period (1 / 60) 5); simpl; lra. Defined.

Lemma sreachable_timers_witness : timers_ok sys1.
Proof. exact (sreachable_timers src_zero env_any sys1 sys1_reachable). Defined.

Lemma sreachable_removal_due_witness : removal_due sys1.
Proof. exact (sreachable_removal_due src_zero env_any sys1 sys1_reachable). Defined.

(** Both sprite images fail to load: the bootstrap still runs. *)
Lemma preload_errors_ignored_witness :
  start_async host0 [Errored; Loaded] (sys_init 10) = Some (start host0 (sys_init 10)).
Proof. apply (preload_errors_ignored host0 [Errored; Loaded] (sys_init 10)). repeat constructor; discriminate. Defined.
