(* ===== verification/Scenario.v ===== *)
(** * End to end: a bounded number of sprites on a book

    The spec's end-to-end scenario (two 400 x 300 surfaces,
    [activeMaxPerSurface = 2], five bursts) asks that no more than four
    sprites are ever alive at once.  This file proves it of the whole
    program of [Loop], for every interleaving of the host's callbacks: when
    every host snapshot the environment presents has its pages among a list
    [P], the surfaces registered are pages of [P] ([ensureLayersOnVisiblePages]
    only registers visible pages), they are distinct, and each holds at most
    [CFG.activeMaxPerSurface] sprites; so the page never holds more than
    [CFG.activeMaxPerSurface * |P|] sprites, alive or dead.

    On that book the count is exact for bursts that follow one another
    with no frame in between: [getVisiblePages] returns both pages, each
    burst tops them up by [min(2, room)], and after [k] bursts they hold
    [min(2k, 4)] sprites ([bursts_on_book]). *)

From Stdlib Require Import Reals Lra Lia List String.
From S2P Require Import Prelude Config Host Visibility Route Locomotion Registry Lifecycle Burst Wf Removal Loop.
Import ListNotations.
Local Open Scope R_scope.

(** ** Definitions *)

(** Every registered page is one of [P]. *)
Definition keys_in (P : list nat) (w : world) : Prop := incl (AMap.keys (w_surfaces w)) P.

(** The sprites of all surfaces: the sum of the [lice.size]. *)
Definition total_sprites (w : world) : nat :=
  list_sum (map (fun e => List.length (si_lice (snd e))) (w_surfaces w)).

(** ** The registered pages *)

Lemma set_present_keys k (v info : surface_info) m :
  AMap.get k m = Some info -> AMap.keys (AMap.set k v m) = AMap.keys m.
Proof.
  intros Hg. destruct (AMap.get_split _ _ _ Hg) as [m1 [m2 [E1 E2]]].
  rewrite E2, E1. unfold AMap.keys. rewrite !map_app. reflexivity.
Qed.

Lemma ensure_one_keys P w el : In el P -> keys_in P w -> keys_in P (ensure_one w el).
Proof.
  intros Hel Hk x Hx. unfold ensure_one in Hx.
  destruct (AMap.get el (w_surfaces w)); simpl in Hx;
    apply AMap.keys_set_sub in Hx; destruct Hx as [<-|Hx]; auto.
Qed.

Lemma ensure_keys P h w :
  incl (h_pages h) P -> keys_in P w -> keys_in P (fst (ensureLayersOnVisiblePages h w)).
Proof.
  intros Hp Hw. unfold ensureLayersOnVisiblePages. simpl.
  apply fold_left_preserve; [|exact Hw]. intros w0 el Hin H0.
  apply ensure_one_keys; [apply Hp, getVisiblePages_incl, Hin | exact H0].
Qed.

Lemma spawnOneOn_keys src h w el :
  AMap.keys (w_surfaces (fst (spawnOneOn src h w el))) = AMap.keys (w_surfaces w).
Proof.
  destruct (spawnOneOn src h w el) as [w' [L|]] eqn:E; simpl.
  - destruct (spawnOneOn_some _ _ _ _ _ _ E) as [info [Hg [_ [_ ->]]]].
    exact (set_present_keys _ _ _ _ Hg).
  - rewrite (spawnOneOn_none _ _ _ _ _ E). reflexivity.
Qed.

Lemma spawnBurst_keys P src h w :
  incl (h_pages h) P -> keys_in P w -> keys_in P (spawnBurst src h w).
Proof.
  intros Hp Hw. pose proof (ensure_keys P h w Hp Hw) as H1. unfold spawnBurst.
  destruct (ensureLayersOnVisiblePages h w) as [w1 vis]. simpl in H1.
  destruct vis as [|a vis]; [exact H1|].
  destruct (shuffle (a :: vis) src (w_rng w1)) as [sh n].
  assert (Hpass : forall l r w0, keys_in P w0 -> keys_in P (fst (spawn_pass src h l r w0))).
  { intros l r w0. apply spawn_pass_preserve. intros h0 w2 el. unfold keys_in. rewrite spawnOneOn_keys. auto. }
  pose proof (Hpass sh CFG.burstSize (set_rng w1 n) H1) as H2.
  destruct (spawn_pass src h sh CFG.burstSize (set_rng w1 n)) as [w2 r].
  destruct (Nat.ltb 0 r); [apply Hpass|]; exact H2.
Qed.

Lemma ensure_n_keys P h k w :
  incl (h_pages h) P -> keys_in P w -> keys_in P (ensure_n h k w).
Proof.
  intros Hp. revert w. induction k as [|k IH]; intros w Hw; simpl; [exact Hw|].
  apply IH, ensure_keys; assumption.
Qed.

Lemma fire_keys w : AMap.keys (w_surfaces (fire w)) = AMap.keys (w_surfaces w).
Proof.
  unfold fire. destruct (w_removals w) as [|r rs]; [reflexivity|]. unfold remove_louse. simpl.
  destruct (AMap.get (rm_surf r) (w_surfaces w)) eqn:Hg; [|reflexivity].
  exact (set_present_keys _ _ _ _ Hg).
Qed.

Lemma host_reset_keys el ly w : AMap.keys (w_surfaces (host_reset el ly w)) = AMap.keys (w_surfaces w).
Proof.
  unfold host_reset. destruct (AMap.get el (w_surfaces w)) eqn:Hg; [|reflexivity].
  exact (set_present_keys _ _ _ _ Hg).
Qed.

Lemma animate_keys w : AMap.keys (w_surfaces (animate w)) = AMap.keys (w_surfaces w).
Proof. unfold animate, AMap.keys. simpl. rewrite map_map. apply map_ext. intros [k i]. reflexivity. Qed.

Lemma loop_keys src h ts s :
  AMap.keys (w_surfaces (s_world (loop src h ts s))) = AMap.keys (w_surfaces (s_world s)).
Proof.
  unfold loop. destruct (s_running s); [|reflexivity]. cbn [negb].
  destruct (advance_clock _ _) as [fc step]. cbn [s_world]. unfold tick.
  match goal with |- context [tick_surfaces src h ?dt ts (w_surfaces ?w1) (w_rng ?w1)] =>
    destruct (tick_surfaces_ids src h dt ts (w_surfaces w1) (w_rng w1)) as [_ E];
    destruct (tick_surfaces src h dt ts (w_surfaces w1) (w_rng w1)) as [[m rs] n] end.
  simpl in *. rewrite E. destruct step; [apply animate_keys | reflexivity].
Qed.

Section System.
Variable src : Source.
Variable env : host -> Prop.
Variable P : list nat.
Hypothesis env_pages : forall h, env h -> incl (h_pages h) P.

Lemma sstep_keys s s' : sstep src env s s' -> keys_in P (s_world s) -> keys_in P (s_world s').
Proof.
  unfold keys_in.
  destruct 1 as [h s Hh|h s Hh|h ts s Hh Hr H0 H1|h s Hh Ht|h s Hh Hi|h s Hh Hr|h s Hh|h s Hh Hp|s|el ly s];
    simpl; intros Hk;
    try (apply ensure_keys || apply spawnBurst_keys || apply ensure_n_keys);
    try (apply env_pages; assumption); try assumption.
  - rewrite loop_keys. exact Hk.
  - rewrite fire_keys. exact Hk.
  - rewrite host_reset_keys. exact Hk.
Qed.

Lemma sreachable_keys s : sreachable src env s -> keys_in P (s_world s).
Proof.
  induction 1 as [n|s s' _ IH Hs]; [intros x []|exact (sstep_keys s s' Hs IH)].
Qed.

End System.

(** ** Counting *)

Lemma animate_wf w : wf w -> wf (animate w).
Proof.
  assert (E : sprite_ids (animate w) = sprite_ids w).
  { unfold sprite_ids, animate. simpl. induction (w_surfaces w) as [|[k i] m IH]; [reflexivity|].
    simpl. rewrite IH. unfold entry_ids. simpl. rewrite map_map. reflexivity. }
  unfold wf. rewrite E, animate_keys. auto.
Qed.

Lemma list_sum_le {A} (f : A -> nat) (c : nat) l :
  (forall x, In x l -> (f x <= c)%nat) -> (list_sum (map f l) <= c * List.length l)%nat.
Proof.
  induction l as [|x l IH]; simpl; intros Hf; [lia|].
  specialize (Hf x (or_introl eq_refl)) as Hx. specialize (IH (fun y Hy => Hf y (or_intror Hy))). lia.
Qed.

Lemma total_le w :
  cap_ok w -> NoDup (AMap.keys (w_surfaces w)) ->
  (total_sprites w <= CFG.activeMaxPerSurface * List.length (AMap.keys (w_surfaces w)))%nat.
Proof.
  intros Hc Hnd. unfold total_sprites, AMap.keys. rewrite length_map. apply list_sum_le.
  intros [k info] Hin. apply (Hc k info), AMap.In_get; assumption.
Qed.

(** ** The spec's book: consecutive bursts *)

Lemma on_screen_host0 el : on_screen host0 el = true.
Proof.
  unfold on_screen, rectHasSize. simpl.
  repeat match goal with |- context [Rlt_dec ?a ?b] => destruct (Rlt_dec a b); [|lra] end.
  reflexivity.
Qed.

Lemma getVisiblePages_host0 : getVisiblePages host0 = [1%nat; 3%nat].
Proof.
  unfold getVisiblePages. rewrite filter_id_in by (intros x _; apply on_screen_host0).
  unfold sort_by_area. simpl. destruct (Rlt_dec (area host0 1) (area host0 3)) as [Hlt|]; [|reflexivity].
  unfold area in Hlt. simpl in Hlt. lra.
Qed.

Lemma ensure_one_count w el k : count (ensure_one w el) k = count w k.
Proof.
  unfold count, ensure_one. destruct (AMap.get el (w_surfaces w)) as [info|] eqn:Hg; simpl;
    (destruct (Nat.eq_dec k el) as [->|Hne];
     [rewrite AMap.get_set_eq, Hg; reflexivity | rewrite AMap.get_set_ne by exact Hne; reflexivity]).
Qed.

Lemma ensure_count h w k : count (fst (ensureLayersOnVisiblePages h w)) k = count w k.
Proof.
  unfold ensureLayersOnVisiblePages. simpl.
  apply (fold_left_preserve ensure_one (fun w' => count w' k = count w k)); [|reflexivity].
  intros w' el _ E. rewrite ensure_one_count. exact E.
Qed.

(** A registered page of the book has room for what its cap leaves. *)
Lemma room_host0 w el :
  settled w el -> room host0 w el = (CFG.activeMaxPerSurface - count w el)%nat.
Proof.
  intros [info [Hg _]]. unfold room, count. rewrite Hg, measure_host0.
  destruct (Rlt_dec 400 30); [lra|]. destruct (Rlt_dec 300 30); [lra | reflexivity].
Qed.

Lemma cap_count w el : cap_ok w -> (count w el <= CFG.activeMaxPerSurface)%nat.
Proof.
  unfold count. destruct (AMap.get el (w_surfaces w)) as [info|] eqn:Hg; intros Hc; [exact (Hc el info Hg) | cbv; lia].
Qed.

(** One burst on the book tops the two pages up by at most two sprites. *)
Lemma burst_book src w :
  cap_ok w ->
  sum_over (count (spawnBurst src host0 w)) [1%nat; 3%nat] =
    (sum_over (count w) [1%nat; 3%nat] + Nat.min 2 (4 - sum_over (count w) [1%nat; 3%nat]))%nat.
Proof.
  intros Hc. pose proof (spawnBurst_count_sum src host0 w) as H.
  assert (Hnd : NoDup (h_pages host0)) by (repeat constructor; simpl; intuition discriminate).
  specialize (H Hnd). destruct (ensureLayersOnVisiblePages host0 w) as [w1 vis] eqn:E.
  assert (Ev : vis = [1%nat; 3%nat]) by (injection E as _ <-; exact getVisiblePages_host0). subst vis.
  destruct H as [H _]. rewrite H.
  assert (Hw1 : w1 = fst (ensureLayersOnVisiblePages host0 w)) by (rewrite E; reflexivity).
  assert (Hs : forall el, In el [1%nat; 3%nat] -> settled w1 el).
  { intros el Hin. rewrite Hw1. unfold ensureLayersOnVisiblePages. simpl. apply fold_ensure_settles.
    left. rewrite getVisiblePages_host0. exact Hin. }
  unfold sum_over. cbn [map list_sum].
  rewrite !room_host0 by (apply Hs; simpl; tauto). rewrite Hw1, !ensure_count.
  pose proof (cap_count w 1 Hc). pose proof (cap_count w 3 Hc).
  unfold CFG.activeMaxPerSurface, CFG.burstSize, list_sum in *. cbn [fold_right] in *.
  repeat match goal with |- context [Nat.min ?a ?b] => destruct (Nat.min_spec a b) as [[? ->]|[? ->]] end;
    lia.
Qed.

Lemma bursts_cap_ok src h k w : cap_ok w -> cap_ok (Nat.iter k (spawnBurst src h) w).
Proof.
  intros Hc. induction k as [|k IH]; [exact Hc|].
  exact (lstep_cap_ok src _ _ (ls_burst src h _) IH).
Qed.

(** ** Theorems *)

(** C9: End to end: when every host snapshot has its pages among [P], no
    state the page reaches holds more than [CFG.activeMaxPerSurface * |P|]
    sprites in all, alive or waiting for removal; on the spec's two-page
    book, never more than four. *)
Theorem sreachable_total_bound src env P s :
  (forall h, env h -> incl (h_pages h) P) -> sreachable src env s ->
  (total_sprites (s_world s) <= CFG.activeMaxPerSurface * List.length P)%nat.
Proof.
  intros Hp Hr.
  pose proof (sreachable_preserve src env cap_ok s (lstep_cap_ok src) animate_cap_ok cap_ok_init Hr) as Hc.
  assert (Hw : wf (s_world s)).
  { apply (sreachable_preserve src env wf s (lstep_wf src) animate_wf); [|exact Hr].
    intros n. split; [constructor|]. split; [constructor | intros e []]. }
  pose proof (total_le _ Hc (proj1 Hw)) as Ht.
  pose proof (NoDup_incl_length (proj1 Hw) (sreachable_keys src env P Hp s Hr)) as Hl.
  unfold CFG.activeMaxPerSurface in *. lia.
Qed.

(** C10: On the spec's book (pages 1 and 3, both 400 x 300, at most
    [CFG.activeMaxPerSurface = 2] sprites a surface), bursts with no frame
    between them place [CFG.burstSize = 2] sprites each until the pages
    are full: after [k] bursts the two pages hold exactly [min(2k, 4)]
    sprites, whatever the random draws; after the spec's five bursts,
    exactly four. *)
Theorem bursts_on_book src k :
  sum_over (count (Nat.iter k (spawnBurst src host0) world0)) [1%nat; 3%nat] = Nat.min (2 * k) 4.
Proof.
  induction k as [|k IH]; [reflexivity|].
  rewrite Nat.iter_succ, burst_book by (apply bursts_cap_ok, cap_ok_init). rewrite IH.
  repeat match goal with |- context [Nat.min ?a ?b] => destruct (Nat.min_spec a b) as [[? ->]|[? ->]] end;
    lia.
Qed.

(** ** Witnesses *)

(** Hosts showing the spec's book: pages 1 and 3. *)
Definition env_book : host -> Prop := fun h => h_pages h = [1%nat; 3%nat].

Lemma sreachable_total_bound_witness : (total_sprites (s_world sys1) <= 4)%nat.
Proof.
  apply (sreachable_total_bound src_zero env_book [1%nat; 3%nat] sys1).
  - intros h Hh. rewrite Hh. apply incl_refl.
  - exact (sr_step _ _ _ _ (sr_init _ _ 10) (ss_start _ _ host0 _ eq_refl)).
Defined.
