(* ===== verification/Reduced.v ===== *)
(** * Reduced motion: bursts place sprites that never move

    [start] (woodlouse.js lines 314-327) sets [running = !media.matches]
    and requests the first animation frame only when motion is allowed, but
    it schedules the first burst ([setTimeout(spawnBurst, 600)]) and the
    burst interval either way, and the resize, [turned] and polling
    handlers stay bound.  With the reduced-motion preference set on every
    host the loop never runs, so no [tick] moves or despawns a sprite.

    This file follows the page through every step of [Loop.sstep] under
    such hosts.  The invariant [inert]: the loop is stopped, no animation
    frame is pending, no removal timer is pending and every sprite is
    alive.  Every step keeps it, and every step [retains] every sprite:
    the same record, on the same surface.  So bursts still place sprites
    (up to the cap) and each stays, unchanged, where [configureRoute] put
    it, for good. *)

From Stdlib Require Import Reals Lra Lia List.
From S2P Require Import Prelude Config Host Visibility Route Locomotion Registry Lifecycle Wf Removal Loop.
Import ListNotations.
Local Open Scope R_scope.

(** ** Definitions *)

(** Every sprite of [w] is still, the same record, on its surface in [w']. *)
Definition retains (w w' : world) : Prop :=
  forall k info L, AMap.get k (w_surfaces w) = Some info -> In L (si_lice info) ->
  exists info', AMap.get k (w_surfaces w') = Some info' /\ In L (si_lice info').

(** No removal timer pending and every sprite alive. *)
Definition quiet (w : world) : Prop :=
  w_removals w = [] /\ all_lice (fun L => l_alive L = true) w.

(** The page of a host that prefers reduced motion. *)
Definition inert (s : sys) : Prop :=
  s_running s = false /\ s_raf s = 0%nat /\ quiet (s_world s).

(** ** Sprites kept *)

Lemma retains_refl w : retains w w.
Proof. intros k info L Hg Hin. eauto. Qed.

Lemma retains_trans w1 w2 w3 : retains w1 w2 -> retains w2 w3 -> retains w1 w3.
Proof.
  intros H12 H23 k info L Hg Hin. destruct (H12 k info L Hg Hin) as [i2 [Hg2 Hin2]].
  exact (H23 k i2 L Hg2 Hin2).
Qed.

Lemma keeps_retains w w' : keeps w w' -> retains w w'.
Proof. intros Hk k info L Hg Hin. destruct (Hk k info Hg) as [i' [Hg' E]]. exists i'. rewrite E. auto. Qed.

(** Replacing the sprites of surface [el] by a list that contains them. *)
Lemma set_retains w el i0 info' :
  AMap.get el (w_surfaces w) = Some i0 -> incl (si_lice i0) (si_lice info') ->
  retains w (set_surfaces w (AMap.set el info' (w_surfaces w))).
Proof.
  intros Hg0 Hi k info L Hg Hin. simpl. destruct (Nat.eq_dec k el) as [->|Hne].
  - rewrite AMap.get_set_eq. exists info'. split; [reflexivity|].
    rewrite Hg0 in Hg. injection Hg as <-. apply Hi, Hin.
  - rewrite AMap.get_set_ne by exact Hne. eauto.
Qed.

Lemma spawnOneOn_retains src h w el : retains w (fst (spawnOneOn src h w el)).
Proof.
  destruct (spawnOneOn src h w el) as [w' [L0|]] eqn:E; simpl;
    [|rewrite (spawnOneOn_none _ _ _ _ _ E); apply retains_refl].
  destruct (spawnOneOn_some _ _ _ _ _ _ E) as [info0 [Hg0 [_ [_ Hs]]]].
  intros k info L Hg Hin. rewrite Hs.
  refine (set_retains w el info0 _ Hg0 _ k info L Hg Hin). simpl. apply incl_appl, incl_refl.
Qed.

Lemma host_reset_retains el ly w : retains w (host_reset el ly w).
Proof.
  unfold host_reset. destruct (AMap.get el (w_surfaces w)) as [i0|] eqn:Hg0; [|apply retains_refl].
  apply (set_retains w el i0); [exact Hg0 | apply incl_refl].
Qed.

Lemma ensure_retains h w : retains w (fst (ensureLayersOnVisiblePages h w)).
Proof.
  unfold ensureLayersOnVisiblePages. simpl.
  apply (fold_left_preserve ensure_one (retains w)); [|apply retains_refl].
  intros w0 el _ H. eapply retains_trans; [exact H | apply keeps_retains, ensure_one_keeps].
Qed.

Lemma ensure_n_retains h k w : retains w (ensure_n h k w).
Proof.
  revert w. induction k as [|k IH]; intros w; simpl; [apply retains_refl|].
  eapply retains_trans; [apply ensure_retains | apply IH].
Qed.

Lemma spawnBurst_retains src h w : retains w (spawnBurst src h w).
Proof.
  apply (spawnBurst_preserve src (retains w)); [| | |apply retains_refl].
  - intros w0 el H. eapply retains_trans; [exact H | apply keeps_retains, ensure_one_keeps].
  - intros w0 n H. exact H.
  - intros h0 w0 el H. eapply retains_trans; [exact H | apply spawnOneOn_retains].
Qed.

(** ** No timer, no dead sprite *)

Lemma spawn_rel_alive src l l' :
  spawn_rel src l l' -> Forall (fun L => l_alive L = true) l -> Forall (fun L => l_alive L = true) l'.
Proof.
  intros Hr Hl. apply Forall_forall. intros L' Hin. destruct (l_alive L') eqn:Ha; [reflexivity|].
  destruct (spawn_rel_dead src l l' L' Hr Hin Ha) as [L [HL [Hd _]]].
  rewrite Forall_forall in Hl. rewrite (Hl L HL) in Hd. discriminate.
Qed.

Lemma quiet_from_eq w w' :
  lice_from eq w w' -> w_removals w' = w_removals w -> quiet w -> quiet w'.
Proof.
  intros Hf Hr [H1 H2]. split; [congruence|].
  apply (lice_from_all _ eq w); [intros l l' -> ?; assumption | exact Hf | exact H2].
Qed.

Lemma ensure_one_quiet w el : quiet w -> quiet (ensure_one w el).
Proof.
  apply quiet_from_eq; [apply ensure_one_lice_from|].
  unfold ensure_one. destruct (AMap.get el _); reflexivity.
Qed.

Lemma spawnOneOn_quiet src h w el : quiet w -> quiet (fst (spawnOneOn src h w el)).
Proof.
  intros [H1 H2]. split; [rewrite spawnOneOn_removals; exact H1|].
  apply (lice_from_all _ (spawn_rel src) w); [apply spawn_rel_alive | apply spawnOneOn_lice_from | exact H2].
Qed.

Lemma ensure_quiet h w : quiet w -> quiet (fst (ensureLayersOnVisiblePages h w)).
Proof.
  unfold ensureLayersOnVisiblePages. simpl.
  apply (fold_left_preserve ensure_one quiet). intros w0 el _. apply ensure_one_quiet.
Qed.

Lemma ensure_n_quiet h k w : quiet w -> quiet (ensure_n h k w).
Proof.
  revert w. induction k as [|k IH]; intros w Hw; simpl; [exact Hw|]. apply IH, ensure_quiet, Hw.
Qed.

Lemma spawnBurst_quiet src h w : quiet w -> quiet (spawnBurst src h w).
Proof.
  apply (spawnBurst_preserve src quiet); [apply ensure_one_quiet | intros w0 n H; exact H | apply spawnOneOn_quiet].
Qed.

Lemma host_reset_quiet el ly w : quiet w -> quiet (host_reset el ly w).
Proof. apply quiet_from_eq; [apply host_reset_lice_from | apply host_reset_removals]. Qed.

(** With no timer pending, a removal callback has nothing to run. *)
Lemma fire_quiet w : quiet w -> fire w = w.
Proof. intros [H _]. unfold fire. rewrite H. reflexivity. Qed.

(** ** Every step of the page *)

Section Inert.
Variable src : Source.
Variable env : host -> Prop.
Hypothesis env_reduced_all : forall h, env h -> h_reduced_motion h = true.

Lemma sstep_inert s s' : sstep src env s s' -> inert s -> inert s' /\ retains (s_world s) (s_world s').
Proof.
  intros Hs [Hrun [Hraf Hq]].
  destruct Hs as [h s Hh|h s Hh|h ts s Hh Hr H0 H1|h s Hh Ht|h s Hh Hi|h s Hh Hr|h s Hh|h s Hh Hp|s|el ly s];
    simpl.
  - unfold start. rewrite (env_reduced_all h Hh). simpl.
    split; [split; [reflexivity | split; [exact Hraf | apply ensure_quiet, Hq]] | apply ensure_retains].
  - split; [split; [exact Hrun | split; [exact Hraf | apply spawnBurst_quiet, Hq]] | apply spawnBurst_retains].
  - lia.
  - split; [split; [exact Hrun | split; [exact Hraf | apply spawnBurst_quiet, Hq]] | apply spawnBurst_retains].
  - split; [split; [exact Hrun | split; [exact Hraf | apply spawnBurst_quiet, Hq]] | apply spawnBurst_retains].
  - split; [split; [exact Hrun | split; [exact Hraf | apply ensure_quiet, Hq]] | apply ensure_retains].
  - split; [split; [exact Hrun | split; [exact Hraf | apply ensure_n_quiet, Hq]] | apply ensure_n_retains].
  - split; [split; [exact Hrun | split; [exact Hraf | apply ensure_quiet, Hq]] | apply ensure_retains].
  - rewrite (fire_quiet _ Hq). split; [split; [exact Hrun | split; [exact Hraf | exact Hq]] | apply retains_refl].
  - split; [split; [exact Hrun | split; [exact Hraf | apply host_reset_quiet, Hq]] | apply host_reset_retains].
Qed.

Lemma sreachable_inert s : sreachable src env s -> inert s.
Proof.
  induction 1 as [n|s s' _ IH Hs]; [|exact (proj1 (sstep_inert s s' Hs IH))].
  split; [reflexivity | split; [reflexivity | split; [reflexivity | apply all_lice_init]]].
Qed.

End Inert.

(** ** Theorem *)

(** C25: With the reduced-motion preference set on every host, every state
    the page reaches has the loop stopped and no animation frame pending,
    so [tick] never runs; it has no removal timer pending and only live sprites,
    and every step the page can take next (a burst, a refresh, a host
    change) keeps every sprite, the same record, on its surface: sprites
    placed by bursts never move, never despawn and are never removed. *)
Theorem reduced_motion_frozen src env s s' :
  (forall h, env h -> h_reduced_motion h = true) ->
  sreachable src env s -> sstep src env s s' ->
  s_running s = false /\ s_raf s = 0%nat /\
  w_removals (s_world s) = [] /\ all_lice (fun L => l_alive L = true) (s_world s) /\
  retains (s_world s) (s_world s').
Proof.
  intros Hred Hr Hs. pose proof (sreachable_inert src env Hred s Hr) as Hi.
  destruct Hi as [Hrun [Hraf [H1 H2]]]. do 2 (split; [assumption|]). split; [exact H1 | split; [exact H2|]].
  exact (proj2 (sstep_inert src env Hred s s' Hs (conj Hrun (conj Hraf (conj H1 H2))))).
Qed.

(** ** Witness *)

(** The page of the reduced-motion book just after [start], and the
    [setTimeout(spawnBurst, 600)] burst that follows. *)
Definition sys_reduced : sys := start host_reduced (sys_init 10).

Lemma reduced_motion_frozen_witness :
  s_running sys_reduced = false /\ s_raf sys_reduced = 0%nat /\
  w_removals (s_world sys_reduced) = [] /\
  all_lice (fun L => l_alive L = true) (s_world sys_reduced) /\
  retains (s_world sys_reduced)
    (s_world (with_world (consume_timeout sys_reduced) (spawnBurst src_zero host_reduced (s_world sys_reduced)))).
Proof.
  apply (reduced_motion_frozen src_zero env_reduced).
  - intros h Hh. exact Hh.
  - exact (sr_step _ _ _ _ (sr_init _ _ 10) (ss_start _ _ host_reduced _ eq_refl)).
  - apply ss_burst_timeout; [reflexivity | simpl; lia].
Defined.
