(* ===== verification/Timers.v ===== *)
(** * The host's timers: when bursts and polls run

    [start] (woodlouse.js lines 314-328) hands the host three kinds of
    timer: [setTimeout(spawnBurst, 600)], [setInterval(spawnBurst,
    CFG.burstEveryMs)] and, when Turn.js's event API is missing,
    [bindFlipbookEvents]'s [setInterval(ensureLayersOnVisiblePages, 800)]
    (line 310).  [Loop.sstep] lets the host run a pending timer callback at
    any time; this file adds the clock.

    A timer is its due time in whole milliseconds, its period ([None] for
    [setTimeout]) and its callback; [start_timers] is the list [start]
    schedules, in its order.  The host's event loop runs the timer due
    first (the first scheduled among those due together) and re-arms an
    interval [period] ms later, at the end of the list.  [run fuel until q]
    runs every timer due no later than [until]; it returns [None] only when
    its fuel runs out, and [total until q], the number of runs due up to
    [until], is enough fuel ([run_total]).  With it, [run] reports
    each callback exactly as often as its timers fall due: after [T] ms the
    page has had [1 + T / 15000] bursts once [T >= 600], and [T / 800]
    polls without Turn.js ([burst_schedule]); the 600 ms burst is the
    first callback run ([first_callback_burst]).

    This clock counts whole milliseconds and says when the callbacks run;
    what they do to the page is [Loop.sstep]'s business, whose timer rules
    let a callback run at any time. *)

From Stdlib Require Import Reals Lra Lia List.
From S2P Require Import Prelude Config.
Import ListNotations.
Local Set Warnings "-abstract-large-number".

(** ** Timers *)

(** The callbacks [start] gives the host's timers. *)
Inductive callback := CbBurst | CbPoll.

Definition cb_eqb (a b : callback) : bool :=
  match a, b with
  | CbBurst, CbBurst | CbPoll, CbPoll => true
  | _, _ => false
  end.

Record timer := mkTimer { tm_due : nat; tm_period : option nat; tm_cb : callback }.

(** [setTimeout(cb, d)] and [setInterval(cb, d)] called at time [now]. *)
Definition setTimeout (now d : nat) (cb : callback) : timer := mkTimer (now + d) None cb.
Definition setInterval (now d : nat) (cb : callback) : timer := mkTimer (now + d) (Some d) cb.

(** [CFG.burstEveryMs] as the whole number of milliseconds it is. *)
Definition burst_every_ms : nat := 15000.

(** [bindFlipbookEvents] (lines 305-311): with Turn.js's [on] it binds
    the [turned] handler, otherwise it polls every 800 ms. *)
Definition poll_timers (flip_on : bool) (now : nat) : list timer :=
  if flip_on then [] else [setInterval now 800 CbPoll].

(** [setTimeout(spawnBurst, 600); spawnTimerId = setInterval(spawnBurst,
    CFG.burstEveryMs)] (lines 322-323). *)
Definition burst_timers (now : nat) : list timer :=
  [setTimeout now 600 CbBurst; setInterval now burst_every_ms CbBurst].

(** The timers [start] sets, in its order: [bindFlipbookEvents()] (line
    319), then the burst timers. *)
Definition start_timers (flip_on : bool) (now : nat) : list timer :=
  poll_timers flip_on now ++ burst_timers now.

(** ** The host's event loop *)

(** The earliest due time, [None] when no timer is pending. *)
Fixpoint next_due (q : list timer) : option nat :=
  match q with
  | [] => None
  | t :: q' =>
      match next_due q' with
      | None => Some (tm_due t)
      | Some m => Some (Nat.min (tm_due t) m)
      end
  end.

(** The first timer due at [m], and the others in their order. *)
Fixpoint pop_due (m : nat) (q : list timer) : option (timer * list timer) :=
  match q with
  | [] => None
  | t :: q' =>
      if Nat.eqb (tm_due t) m then Some (t, q') else
      match pop_due m q' with
      | Some (t', r) => Some (t', t :: r)
      | None => None
      end
  end.

(** An interval runs again [period] ms after it ran; a timeout is done. *)
Definition rearm (t : timer) : list timer :=
  match tm_period t with
  | Some p => [mkTimer (tm_due t + p) (Some p) (tm_cb t)]
  | None => []
  end.

(** Run the timers due no later than [until]: the callbacks run, with
    their times, and the timers left; [None] when the fuel runs out. *)
Fixpoint run (fuel until : nat) (q : list timer) : option (list (nat * callback) * list timer) :=
  match next_due q with
  | None => Some ([], q)
  | Some m =>
      if Nat.ltb until m then Some ([], q) else
      match fuel with
      | O => None
      | S f =>
          match pop_due m q with
          | None => None
          | Some (t, rest) =>
              match run f until (rest ++ rearm t) with
              | Some (tr, q') => Some ((m, tm_cb t) :: tr, q')
              | None => None
              end
          end
      end
  end.

(** ** Counting the runs due *)

(** How many times [t] runs up to [until]. *)
Definition firings (until : nat) (t : timer) : nat :=
  if Nat.ltb until (tm_due t) then 0 else
  match tm_period t with
  | None => 1
  | Some p => S ((until - tm_due t) / p)
  end.

(** The runs due up to [until], each weighted by [wt] of its callback. *)
Definition work (wt : callback -> nat) (until : nat) (q : list timer) : nat :=
  list_sum (map (fun t => wt (tm_cb t) * firings until t) q).

Definition total (until : nat) (q : list timer) : nat := work (fun _ => 1%nat) until q.

(** The callbacks of a trace, weighted by [wt]. *)
Definition tally (wt : callback -> nat) (tr : list (nat * callback)) : nat :=
  list_sum (map (fun e => wt (snd e)) tr).

(** How many times [c] ran in a trace. *)
Definition count_cb (c : callback) (tr : list (nat * callback)) : nat :=
  tally (fun c' => if cb_eqb c c' then 1 else 0)%nat tr.

(** Every interval has a positive period. *)
Definition periods_ok (q : list timer) : Prop :=
  Forall (fun t => forall p, tm_period t = Some p -> (0 < p)%nat) q.

(** ** The earliest timer *)

Lemma next_due_none q : next_due q = None -> q = [].
Proof. destruct q as [|t q]; simpl; [auto|]. destruct (next_due q); discriminate. Qed.

Lemma next_due_le q m : next_due q = Some m -> forall t, In t q -> (m <= tm_due t)%nat.
Proof.
  revert m. induction q as [|t0 q IH]; simpl; [discriminate|]. intros m Hm t [<-|Hin].
  - destruct (next_due q); injection Hm as <-; lia.
  - destruct (next_due q) as [m'|] eqn:E; [|rewrite (next_due_none q E) in Hin; destruct Hin].
    injection Hm as <-. specialize (IH m' eq_refl t Hin). lia.
Qed.

Lemma next_due_in q m : next_due q = Some m -> exists t, In t q /\ tm_due t = m.
Proof.
  revert m. induction q as [|t0 q IH]; simpl; [discriminate|]. intros m Hm.
  destruct (next_due q) as [m'|] eqn:E; injection Hm as <-; [|eauto].
  destruct (Nat.min_spec (tm_due t0) m') as [[_ ->]|[_ ->]]; [eauto|].
  destruct (IH m' eq_refl) as [t [Hin Ht]]. eauto.
Qed.

Lemma pop_due_split m q t rest :
  pop_due m q = Some (t, rest) -> exists pre post, q = pre ++ t :: post /\ rest = pre ++ post /\ tm_due t = m.
Proof.
  revert rest. induction q as [|t0 q IH]; simpl; [discriminate|]. intros rest.
  destruct (Nat.eqb_spec (tm_due t0) m) as [E|_].
  - injection 1 as <- <-. exists [], q. auto.
  - destruct (pop_due m q) as [[t' r]|] eqn:Hp; [|discriminate]. injection 1 as <- <-.
    destruct (IH r eq_refl) as [pre [post [-> [-> Ht]]]]. exists (t0 :: pre), post. auto.
Qed.

Lemma pop_due_found m q t : In t q -> tm_due t = m -> exists p, pop_due m q = Some p.
Proof.
  induction q as [|t0 q IH]; simpl; [tauto|]. intros Hin Ht.
  destruct (Nat.eqb_spec (tm_due t0) m); [eauto|].
  destruct Hin as [<-|Hin]; [contradiction|]. destruct (IH Hin Ht) as [[t' r] ->]. eauto.
Qed.

(** ** Counting *)

Lemma work_app wt until a b : work wt until (a ++ b) = (work wt until a + work wt until b)%nat.
Proof. unfold work. rewrite map_app, list_sum_app. reflexivity. Qed.

Lemma work_split wt until pre t post :
  work wt until (pre ++ t :: post) = (wt (tm_cb t) * firings until t + work wt until (pre ++ post))%nat.
Proof. rewrite !work_app. unfold work at 2. simpl. fold (work wt until post). lia. Qed.

Lemma work_late wt until q : Forall (fun t => until < tm_due t)%nat q -> work wt until q = 0%nat.
Proof.
  induction 1 as [|t q Ht _ IH]; [reflexivity|]. unfold work in *. simpl. rewrite IH.
  unfold firings. destruct (Nat.ltb_spec until (tm_due t)); [lia | lia].
Qed.

Lemma tally_one tr : tally (fun _ => 1%nat) tr = List.length tr.
Proof. induction tr as [|e tr IH]; simpl; [reflexivity|]. unfold tally in *. simpl. rewrite IH. reflexivity. Qed.

Lemma div_step a p : (0 < p)%nat -> (p <= a)%nat -> (a / p = S ((a - p) / p))%nat.
Proof.
  intros Hp Ha. replace a with ((a - p) + 1 * p)%nat at 1 by lia.
  rewrite Nat.div_add by lia. lia.
Qed.

(** Running a due timer uses up one of its runs; re-arming keeps the rest. *)
Lemma firings_rearm wt until t :
  (tm_due t <= until)%nat -> (forall p, tm_period t = Some p -> (0 < p)%nat) ->
  (work wt until (rearm t) + wt (tm_cb t) = wt (tm_cb t) * firings until t)%nat.
Proof.
  intros Hd Hp. unfold rearm, firings, work.
  destruct (Nat.ltb_spec until (tm_due t)) as [|_]; [lia|].
  destruct (tm_period t) as [p|]; simpl; [|lia].
  specialize (Hp p eq_refl). unfold firings. simpl.
  destruct (Nat.ltb_spec until (tm_due t + p)) as [Hlt|Hge].
  - rewrite (Nat.div_small (until - tm_due t) p) by lia. lia.
  - rewrite (div_step (until - tm_due t) p) by lia.
    replace (until - tm_due t - p)%nat with (until - (tm_due t + p))%nat by lia. lia.
Qed.

Lemma periods_ok_step pre t post :
  periods_ok (pre ++ t :: post) -> periods_ok ((pre ++ post) ++ rearm t).
Proof.
  unfold periods_ok. rewrite !Forall_app. intros [H1 H2]. inversion H2 as [|? ? Ht H3]; subst.
  split; [split; assumption|]. unfold rearm. destruct (tm_period t) as [p|] eqn:E; [|constructor].
  constructor; [|constructor]. simpl. intros p' [= <-]. exact (Ht p eq_refl).
Qed.

Lemma firings_pos until t : (tm_due t <= until)%nat -> (1 <= firings until t)%nat.
Proof. unfold firings. destruct (Nat.ltb_spec until (tm_due t)); [lia|]. destruct (tm_period t); lia. Qed.

Lemma periods_ok_mid pre t post : periods_ok (pre ++ t :: post) -> forall p, tm_period t = Some p -> (0 < p)%nat.
Proof. unfold periods_ok. rewrite Forall_app. intros [_ H]. inversion H; assumption. Qed.

(** The timers left after one run are due no earlier than it. *)
Lemma step_due_ge q m pre t post :
  next_due q = Some m -> q = pre ++ t :: post -> tm_due t = m ->
  Forall (fun t' => m <= tm_due t')%nat ((pre ++ post) ++ rearm t).
Proof.
  intros Hn -> Ht. apply Forall_app. split.
  - apply Forall_forall. intros x Hx. apply (next_due_le _ _ Hn). apply in_app_or in Hx.
    apply in_or_app. simpl. tauto.
  - unfold rearm. destruct (tm_period t); constructor; [simpl; lia | constructor].
Qed.

(** ** [run] *)

(** What a run reports: each callback as often as its timers fall due,
    and no timer left that is due by [until]. *)
Lemma run_spec fuel until q tr q' :
  periods_ok q -> run fuel until q = Some (tr, q') ->
  (forall wt, tally wt tr = work wt until q) /\ Forall (fun t => until < tm_due t)%nat q'.
Proof.
  revert q tr q'. induction fuel as [|f IH]; intros q tr q' Hp Hr; simpl in Hr;
    destruct (next_due q) as [m|] eqn:Hn;
    try (injection Hr as <- <-; rewrite (next_due_none q Hn); split; [reflexivity | constructor]);
    destruct (Nat.ltb_spec until m) as [Hlt|Hge];
    try (injection Hr as <- <-; assert (Hl : Forall (fun t => until < tm_due t)%nat q)
           by (apply Forall_forall; intros t Ht; pose proof (next_due_le q m Hn t Ht); lia);
         split; [intros wt; rewrite (work_late wt until q Hl); reflexivity | exact Hl]);
    [discriminate|].
  destruct (pop_due m q) as [[t rest]|] eqn:Hpop; [|discriminate].
  destruct (run f until (rest ++ rearm t)) as [[tr0 q0]|] eqn:Hrun; [|discriminate].
  injection Hr as <- <-. destruct (pop_due_split _ _ _ _ Hpop) as [pre [post [Eq [-> Ht]]]]. subst q.
  destruct (IH _ _ _ (periods_ok_step _ _ _ Hp) Hrun) as [Htally Hlate]. split; [|exact Hlate].
  intros wt. unfold tally in *. simpl. rewrite Htally, work_app, work_split.
  pose proof (firings_rearm wt until t ltac:(lia) (periods_ok_mid _ _ _ Hp)). lia.
Qed.

(** Fuel for every run due is enough. *)
Lemma run_enough fuel until q :
  periods_ok q -> (total until q <= fuel)%nat -> exists r, run fuel until q = Some r.
Proof.
  revert q. induction fuel as [|f IH]; intros q Hp Hf; simpl;
    destruct (next_due q) as [m|] eqn:Hn; eauto;
    destruct (Nat.ltb_spec until m) as [Hlt|Hge]; eauto;
    destruct (next_due_in q m Hn) as [t0 [Hin0 Ht0]];
    destruct (pop_due_found m q t0 Hin0 Ht0) as [[t rest] Hpop]; try rewrite Hpop;
    destruct (pop_due_split _ _ _ _ Hpop) as [pre [post [Eq [-> Ht]]]]; subst q;
    unfold total in Hf; rewrite work_split in Hf; cbv beta in Hf; pose proof (firings_pos until t ltac:(lia)).
  - lia.
  - pose proof (firings_rearm (fun _ => 1%nat) until t ltac:(lia) (periods_ok_mid _ _ _ Hp)).
    destruct (IH ((pre ++ post) ++ rearm t) (periods_ok_step _ _ _ Hp)) as [[tr q'] ->];
      [unfold total; rewrite work_app; cbv beta in *; lia | eauto].
Qed.

(** ** The timers of [start] *)

Lemma burst_every_ms_cfg : INR burst_every_ms = CFG.burstEveryMs.
Proof. unfold burst_every_ms, CFG.burstEveryMs. rewrite INR_IZR_INZ. reflexivity. Qed.

Lemma burst_every_ms_pos : (0 < burst_every_ms)%nat.
Proof. apply Nat.ltb_lt. reflexivity. Qed.

Lemma firings_interval now d c T :
  (0 < d)%nat -> firings T (setInterval now d c) = ((T - now) / d)%nat.
Proof.
  intros Hd. unfold firings, setInterval. cbn [tm_due tm_period].
  destruct (Nat.ltb_spec T (now + d)).
  - symmetry. apply Nat.div_small. lia.
  - rewrite (div_step (T - now) d) by lia. do 2 f_equal. lia.
Qed.

Lemma firings_timeout now d c T :
  firings T (setTimeout now d c) = (if Nat.leb (now + d) T then 1 else 0)%nat.
Proof.
  unfold firings, setTimeout. cbn [tm_due tm_period].
  destruct (Nat.ltb_spec T (now + d)), (Nat.leb_spec (now + d) T); try lia; reflexivity.
Qed.

Lemma start_periods_ok flip now : periods_ok (start_timers flip now).
Proof.
  pose proof burst_every_ms_pos.
  destruct flip; repeat constructor; cbn; intros p [= <-]; lia.
Qed.

Lemma work_start wt flip t0 T :
  work wt T (start_timers flip t0) =
  ((if flip then 0 else wt CbPoll * ((T - t0) / 800)) +
   wt CbBurst * (if Nat.leb (t0 + 600) T then 1 else 0) + wt CbBurst * ((T - t0) / burst_every_ms))%nat.
Proof.
  pose proof burst_every_ms_pos.
  destruct flip; unfold work, start_timers, poll_timers, burst_timers; cbn [app map list_sum fold_right tm_cb];
    rewrite firings_timeout, !firings_interval by lia; cbn [tm_cb setTimeout setInterval]; lia.
Qed.

(** ** Theorems on the event loop *)

(** The event loop, run up to [until], ends when given fuel for the runs
    due: it runs exactly that many callbacks and leaves no timer due. *)
Lemma run_total fuel until q :
  periods_ok q -> (total until q <= fuel)%nat ->
  exists tr q', run fuel until q = Some (tr, q') /\ List.length tr = total until q /\
    Forall (fun t => until < tm_due t)%nat q'.
Proof.
  intros Hp Hf. destruct (run_enough fuel until q Hp Hf) as [[tr q'] Hr].
  destruct (run_spec fuel until q tr q' Hp Hr) as [Ht Hl].
  exists tr, q'. split; [exact Hr|]. split; [|exact Hl].
  rewrite <- tally_one. apply Ht.
Qed.

(** C22: [start]'s timers run on schedule: [T] ms after [start] at [t0]
    the page has had one burst from [setTimeout(spawnBurst, 600)] once
    600 ms have passed and one from the interval every [CFG.burstEveryMs],
    and, without Turn.js's event API, a poll every 800 ms. *)
Theorem burst_schedule flip t0 T :
  exists tr q', run (total T (start_timers flip t0)) T (start_timers flip t0) = Some (tr, q') /\
    count_cb CbBurst tr = ((if Nat.leb (t0 + 600) T then 1 else 0) + (T - t0) / burst_every_ms)%nat /\
    count_cb CbPoll tr = (if flip then 0 else (T - t0) / 800)%nat.
Proof.
  pose proof (start_periods_ok flip t0) as Hp.
  destruct (run_enough _ T _ Hp (le_n _)) as [[tr q'] Hr].
  destruct (run_spec _ T _ tr q' Hp Hr) as [Ht _].
  exists tr, q'. split; [exact Hr|]. unfold count_cb. rewrite !Ht, !work_start. cbn [cb_eqb].
  destruct flip; lia.
Qed.

Lemma next_due_start flip t0 : next_due (start_timers flip t0) = Some (t0 + 600)%nat.
Proof.
  assert (Hb : (600 <= burst_every_ms)%nat) by (apply Nat.leb_le; reflexivity).
  destruct flip; cbn [start_timers poll_timers burst_timers app next_due setTimeout setInterval tm_due];
    rewrite (Nat.min_l (t0 + 600)) by lia; [reflexivity|]. rewrite Nat.min_r by lia. reflexivity.
Qed.

Lemma pop_due_start flip t0 :
  pop_due (t0 + 600) (start_timers flip t0) =
  Some (setTimeout t0 600 CbBurst, poll_timers flip t0 ++ [setInterval t0 burst_every_ms CbBurst]).
Proof.
  destruct flip; cbn [start_timers poll_timers burst_timers app pop_due setTimeout setInterval tm_due];
    rewrite ?Nat.eqb_refl; [reflexivity|].
  destruct (Nat.eqb_spec (t0 + 800) (t0 + 600)); [lia | reflexivity].
Qed.

(** C23: The first callback [start]'s timers run is the burst of
    [setTimeout(spawnBurst, 600)], 600 ms after [start]: it comes before
    the first poll (800 ms) and the first interval burst (15 s). *)
Theorem first_callback_burst flip t0 fuel T tr q' :
  (t0 + 600 <= T)%nat -> run fuel T (start_timers flip t0) = Some (tr, q') ->
  hd_error tr = Some (t0 + 600, CbBurst)%nat.
Proof.
  intros HT Hr. destruct fuel as [|f]; cbn [run] in Hr; rewrite next_due_start in Hr;
    destruct (Nat.ltb_spec T (t0 + 600)); try lia; [discriminate|].
  rewrite pop_due_start in Hr.
  destruct (run f T _) as [[tr0 q0]|]; [|discriminate]. injection Hr as <- _. reflexivity.
Qed.

(** ** Witnesses *)

Lemma first_callback_burst_witness :
  hd_error (match run 10 2000 (start_timers false 0) with Some (tr, _) => tr | None => [] end) =
  Some (600, CbBurst)%nat.
Proof.
  apply (first_callback_burst false 0 10 2000 _ [setInterval 0 burst_every_ms CbBurst; mkTimer 2400 (Some 800) CbPoll]);
    [lia | vm_compute; reflexivity].
Defined.
