(* ===== verification/Delay.v ===== *)
(** * The removal delay on the clock

    [maybeDespawn] (woodlouse.js lines 231-242) schedules
    [setTimeout(() => { L.el.remove(); L.surfaceInfo.lice.delete(L); }, 160)]
    at the time of the animation frame that killed the sprite.  [Loop]
    proves that in every reachable state these timers are pending in due
    order, each due at most 160 ms after the last frame.  The browser runs
    a timeout's callback once its due time has passed, the one due first
    first; [fire_until t] is that: the host runs, in order, the removal
    callbacks due by [t] ([fire_due], with one unit of fuel per pending
    timer, which is enough since each run drops one).

    The theorems: running the removal timers due by [t] removes exactly
    those timers, in a reachable state, and deletes no live sprite
    ([fire_until_exact]); and 160 ms after the last frame no timer and no
    dead sprite is left ([removal_deadline]), the spec's end-to-end
    requirement that each sprite reaching its exit threshold is removed
    within the fixed delay window. *)

From Stdlib Require Import Reals Lra Lia List Sorted.
From S2P Require Import Prelude Config Host Visibility Route Locomotion Registry Lifecycle Wf Removal Loop Scenario.
Import ListNotations.
Local Open Scope R_scope.

(** ** Definitions *)

(** The removal timer [r] is due by time [t]. *)
Definition due_by (t : R) (r : removal) : bool := if Rle_dec (rm_due r) t then true else false.

(** The host runs the removal callbacks due by [t], first due first, at
    most [k] of them. *)
Fixpoint fire_due (k : nat) (t : R) (w : world) : world :=
  match k with
  | O => w
  | S k' =>
      match w_removals w with
      | r :: _ => if due_by t r then fire_due k' t (fire w) else w
      | [] => w
      end
  end.

(** Time has reached [t]: every removal callback due by then has run. *)
Definition fire_until (t : R) (w : world) : world := fire_due (List.length (w_removals w)) t w.

(** ** Running the timers due *)

Lemma due_by_true t r : due_by t r = true <-> rm_due r <= t.
Proof. unfold due_by. destruct (Rle_dec (rm_due r) t); split; congruence || tauto. Qed.

(** The due timers are a prefix of the sorted list: running them leaves
    exactly the others. *)
Lemma fire_due_removals k t w :
  StronglySorted Rle (map rm_due (w_removals w)) -> (List.length (w_removals w) <= k)%nat ->
  w_removals (fire_due k t w) = filter (fun r => negb (due_by t r)) (w_removals w).
Proof.
  revert w. induction k as [|k IH]; intros w Hs Hk; simpl.
  - destruct (w_removals w); [reflexivity | simpl in Hk; lia].
  - destruct (w_removals w) as [|r rs] eqn:E; [rewrite E; reflexivity|].
    cbn [map] in Hs. inversion Hs as [|? ? Hs' Hall]; subst.
    cbn [filter]. destruct (due_by t r) eqn:Hd; cbn [negb].
    + rewrite IH; rewrite fire_removals, E; [reflexivity | exact Hs' | simpl in *; lia].
    + rewrite E. f_equal. symmetry. apply filter_id_in. intros r' Hr'.
      rewrite Forall_forall in Hall.
      specialize (Hall (rm_due r') (in_map _ _ _ Hr')).
      destruct (due_by t r') eqn:Hd'; [|reflexivity].
      apply due_by_true in Hd'. assert (rm_due r <= t) by lra.
      apply due_by_true in H. congruence.
Qed.

(** When every pending timer is due by [t], the host runs them all. *)
Lemma fire_due_all k t w :
  Forall (fun r => rm_due r <= t) (w_removals w) -> fire_due k t w = drain k w.
Proof.
  revert w. induction k as [|k IH]; intros w Hall; simpl; [reflexivity|].
  destruct (w_removals w) as [|r rs] eqn:E.
  - assert (Hf : fire w = w) by (unfold fire; rewrite E; reflexivity).
    rewrite Hf. clear IH. induction k as [|k IHk]; simpl; [reflexivity | rewrite Hf; exact IHk].
  - inversion Hall as [|? ? Hr Hrs]; subst.
    replace (due_by t r) with true by (symmetry; apply due_by_true, Hr).
    apply IH. rewrite fire_removals, E. exact Hrs.
Qed.

Lemma fire_due_ttd k t w : timers_target_dead w -> timers_target_dead (fire_due k t w).
Proof.
  revert w. induction k as [|k IH]; intros w Hw; simpl; [exact Hw|].
  destruct (w_removals w); [exact Hw|]. destruct (due_by t r); [apply IH, fire_ttd, Hw | exact Hw].
Qed.

Lemma fire_due_live k t w kk info L :
  timers_target_dead w -> AMap.get kk (w_surfaces w) = Some info -> In L (si_lice info) ->
  l_alive L = true ->
  exists info', AMap.get kk (w_surfaces (fire_due k t w)) = Some info' /\ In L (si_lice info').
Proof.
  revert w info. induction k as [|k IH]; intros w info Hw Hg Hin Ha; simpl; [eauto|].
  destruct (w_removals w); [eauto|]. destruct (due_by t r); [|eauto].
  destruct (fire_live w kk info L Hw Hg Hin Ha) as [i1 [Hg1 Hin1]].
  exact (IH (fire w) i1 (fire_ttd w Hw) Hg1 Hin1 Ha).
Qed.

(** ** Timers name dead sprites, in every state of the page *)

Lemma all_sprites_animate w : all_sprites (animate w) = map stepFrame (all_sprites w).
Proof.
  unfold all_sprites, animate. simpl. induction (w_surfaces w) as [|[k i] m IH]; [reflexivity|].
  simpl. rewrite IH, map_app. reflexivity.
Qed.

Lemma animate_ttd w : timers_target_dead w -> timers_target_dead (animate w).
Proof.
  apply ttd_mono; [apply incl_refl | simpl; lia|].
  intros L' HL' Ha. rewrite all_sprites_animate in HL'. apply in_map_iff in HL'.
  destruct HL' as [L [<- HL]]. right. exists L. auto.
Qed.

Lemma sreachable_ttd src env s : sreachable src env s -> wf (s_world s) /\ timers_target_dead (s_world s).
Proof.
  apply (sreachable_preserve src env (fun w => wf w /\ timers_target_dead w)).
  - intros w w' Hs Hw. exact (lstep_ttd src w w' Hs Hw).
  - intros w [H1 H2]. split; [apply animate_wf, H1 | apply animate_ttd, H2].
  - intros n. split; [split; [constructor|]; split; [constructor | intros e []] | intros r []].
Qed.

(** ** Theorems *)

(** C16: When the clock reaches [t], the host's run of the removal callbacks
    due by [t] removes exactly the timers due by [t] and keeps the others
    in their order, and it deletes no live sprite: every live sprite is
    still on its surface. *)
Theorem fire_until_exact src env s t :
  sreachable src env s ->
  w_removals (fire_until t (s_world s)) = filter (fun r => negb (due_by t r)) (w_removals (s_world s)) /\
  (forall k info L, AMap.get k (w_surfaces (s_world s)) = Some info -> In L (si_lice info) ->
     l_alive L = true ->
     exists info', AMap.get k (w_surfaces (fire_until t (s_world s))) = Some info' /\ In L (si_lice info')).
Proof.
  intros Hr. destruct (timers_inv src env s Hr) as [Hs _].
  destruct (sreachable_ttd src env s Hr) as [_ Ht]. split.
  - apply fire_due_removals; [exact Hs | apply le_n].
  - intros k info L Hg Hin Ha. exact (fire_due_live _ t _ k info L Ht Hg Hin Ha).
Qed.

(** C7: Every sprite that has crossed its despawn threshold is gone within
    the removal delay: 160 ms after the last animation frame, once the
    host has run the removal callbacks due by then, no removal timer is
    left and every sprite still on a surface is alive. *)
Theorem removal_deadline src env s t :
  sreachable src env s -> s_lastT s + 160 <= t ->
  w_removals (fire_until t (s_world s)) = [] /\
  all_lice (fun L => l_alive L = true) (fire_until t (s_world s)).
Proof.
  intros Hr Ht. destruct (timers_inv src env s Hr) as [_ Hb].
  unfold fire_until. rewrite fire_due_all.
  - destruct (drain_spec (List.length (w_removals (s_world s))) (s_world s) (sreachable_pending src env s Hr))
      as [H1 H2].
    rewrite skipn_all in H2. split; [exact H2 | exact (clears_of_pending _ H1 H2)].
  - eapply Forall_impl; [|exact Hb]. simpl. intros r Hr0. lra.
Qed.

(** ** Witnesses *)

Lemma fire_until_exact_witness :
  w_removals (fire_until 0 (s_world sys1)) = filter (fun r => negb (due_by 0 r)) (w_removals (s_world sys1)) /\
  (forall k info L, AMap.get k (w_surfaces (s_world sys1)) = Some info -> In L (si_lice info) ->
     l_alive L = true ->
     exists info', AMap.get k (w_surfaces (fire_until 0 (s_world sys1))) = Some info' /\ In L (si_lice info')).
Proof. exact (fire_until_exact src_zero env_any sys1 0 sys1_reachable). Defined.

Lemma removal_deadline_witness :
  w_removals (fire_until (s_lastT sys1 + 160) (s_world sys1)) = [] /\
  all_lice (fun L => l_alive L = true) (fire_until (s_lastT sys1 + 160) (s_world sys1)).
Proof. apply (removal_deadline src_zero env_any sys1); [exact sys1_reachable | lra]. Defined.
